(** * TruckLoopReplay: the legacy timeline reconstructor and the replay pipeline

    A shallow embedding of [src/legacyAdapter.ts] (the reconstruction of a
    replay timeline from a legacy export) and of the parts of [src/App.tsx]
    that time speech and decide the move phase of the replay pipeline.

    Modelling conventions.
    - A JavaScript number is an integer [Z]: the model covers exports whose
      numbers are integers (every finite integer a JSON document can carry
      exactly).  The remainder operator [%] is the truncating [Z.rem].
    - A JavaScript string is a [string]; the model is exact on ASCII text.
      Literals of the source outside ASCII are carried as their UTF-8 bytes,
      on which equality and [includes] agree with the source.  White space
      is the ASCII white space of [\s] and [trim].
    - The [unknown] input is a [json] value: what [JSON.parse] hands to
      [parseLegacyExport].  An object carries its own properties in
      enumeration order, with pairwise distinct keys.
    - A call that throws ([message.turn] on a [null] message) is [None]. *)

From Stdlib Require Import ZArith List String Ascii Bool Lia QArith Sorted PrimFloat Uint63.
Import ListNotations.
Local Open Scope string_scope.
Local Open Scope list_scope.
Local Open Scope Z_scope.
Set Warnings "-register-all".

(** ** Values of the export *)

Inductive json : Type :=
| JNull
| JBool (b : bool)
| JNum (z : Z)
| JStr (s : string)
| JArr (items : list json)
| JObj (props : list (string * json)).

Definition Rec := list (string * json).

(** Decimal rendering of an array index, as the property key of an element. *)
Definition digitChar (d : nat) : ascii := ascii_of_nat (48 + d).

Fixpoint natToStringFuel (fuel n : nat) (acc : string) : string :=
  match fuel with
  | O => acc
  | S fuel' =>
      let acc' := String (digitChar (n mod 10)) acc in
      match (n / 10)%nat with
      | O => acc'
      | q => natToStringFuel fuel' q acc'
      end
  end.

Definition natToString (n : nat) : string := natToStringFuel (S n) n EmptyString.

Fixpoint indexed {A : Type} (i : nat) (l : list A) : list (nat * A) :=
  match l with
  | [] => []
  | x :: tl => (i, x) :: indexed (S i) tl
  end.

(** [asRecord]: an object is its own record; an array is a record keyed by
    its indices; any other value is the empty record. *)
Definition asRecord (value : option json) : Rec :=
  match value with
  | Some (JObj props) => props
  | Some (JArr items) => map (fun p => (natToString (fst p), snd p)) (indexed 0 items)
  | _ => []
  end.

(** Property read [record.key]; [None] is [undefined]. *)
Fixpoint prop (record : Rec) (key : string) : option json :=
  match record with
  | [] => None
  | (k, v) :: tl => if String.eqb k key then Some v else prop tl key
  end.

Definition asNumber (value : option json) (fallback : Z) : Z :=
  match value with
  | Some (JNum z) => z
  | _ => fallback
  end.

Definition asString (value : option json) (fallback : string) : string :=
  match value with
  | Some (JStr s) => s
  | _ => fallback
  end.

(** [Array.isArray(v) ? v : []] *)
Definition asArray (value : option json) : list json :=
  match value with
  | Some (JArr items) => items
  | _ => []
  end.

Definition FALLBACK_TRACK : Z := 48.
Definition FALLBACK_HP : Z := 3.

Definition compactTrackSize (payload : Rec) : option Z :=
  let request := asRecord (prop payload "request") in
  let compactPs := asRecord (prop request "ps") in
  let publicState := asRecord (prop request "public_state") in
  let compactTs := asNumber (prop compactPs "ts") 0 in
  if 0 <? compactTs then Some compactTs
  else
    let fullTs := asNumber (prop publicState "track_size") 0 in
    if 0 <? fullTs then Some fullTs else None.

(** ** Track arithmetic *)

Inductive Direction : Type := forward | backward.

Definition wrapTrack (position trackLength : Z) : Z :=
  let track := Z.max 1 trackLength in
  Z.rem (Z.rem position track + track) track.

Definition circularDistance (from to trackLength : Z) : Z :=
  let track := Z.max 1 trackLength in
  let a := wrapTrack from track in
  let b := wrapTrack to track in
  let d := Z.abs (a - b) in
  Z.min d (track - d).

Definition inferDirectionByPosition
    (fromPos toPos : Z) (declared : Direction) (steps trackLength : Z) : Direction :=
  let track := Z.max 1 trackLength in
  let from := wrapTrack fromPos track in
  let to := wrapTrack toPos track in
  let fwd := Z.rem (to - from + track) track in
  let bwd := Z.rem (from - to + track) track in
  if (fwd =? steps) && negb (bwd =? steps) then forward
  else if (bwd =? steps) && negb (fwd =? steps) then backward
  else
    let df := Z.abs (fwd - steps) in
    let db := Z.abs (bwd - steps) in
    if df <? db then forward
    else if db <? df then backward
    else declared.

(** ** Strings *)

Definition isSpace (c : ascii) : bool :=
  let n := nat_of_ascii c in
  ((9 <=? n) && (n <=? 13))%nat || (n =? 32)%nat.

Definition isLineTerminator (c : ascii) : bool :=
  let n := nat_of_ascii c in
  ((n =? 10) || (n =? 13))%nat.

Definition lowerChar (c : ascii) : ascii :=
  let n := nat_of_ascii c in
  if ((65 <=? n) && (n <=? 90))%nat then ascii_of_nat (n + 32) else c.

Fixpoint toLowerCase (s : string) : string :=
  match s with
  | EmptyString => EmptyString
  | String c tl => String (lowerChar c) (toLowerCase tl)
  end.

Definition isEmpty (s : string) : bool :=
  match s with
  | EmptyString => true
  | _ => false
  end.

(** [a || b] on strings: the empty string is falsy. *)
Definition orElse (a b : string) : string := if isEmpty a then b else a.

Fixpoint trimStart (s : string) : string :=
  match s with
  | EmptyString => EmptyString
  | String c tl => if isSpace c then trimStart tl else s
  end.

Fixpoint trimEnd (s : string) : string :=
  match s with
  | EmptyString => EmptyString
  | String c tl =>
      match trimEnd tl with
      | EmptyString => if isSpace c then EmptyString else String c EmptyString
      | r => String c r
      end
  end.

Definition trim (s : string) : string := trimEnd (trimStart s).

Fixpoint dropN (n : nat) (s : string) : string :=
  match n, s with
  | S n', String _ tl => dropN n' tl
  | _, _ => s
  end.

Fixpoint startsWith (p s : string) : bool :=
  match p, s with
  | EmptyString, _ => true
  | String a p', String b s' => Ascii.eqb a b && startsWith p' s'
  | _, _ => false
  end.

(** A literal under the regular-expression flag [i]. *)
Fixpoint startsWithCI (p s : string) : bool :=
  match p, s with
  | EmptyString, _ => true
  | String a p', String b s' => Ascii.eqb (lowerChar a) (lowerChar b) && startsWithCI p' s'
  | _, _ => false
  end.

Fixpoint includes (sub s : string) : bool :=
  startsWith sub s ||
  match s with
  | EmptyString => false
  | String _ tl => includes sub tl
  end.

Definition FENCE : string := "```".
Definition FENCE_JSON : string := "```json".
Definition TOOL_CALLS : string :=
  String "034" ("tool_calls" ++ String "034" EmptyString).

(** [/"tool_calls"\s*:/] anchored at the head of [s]; [ci] is the flag [i]. *)
Definition toolCallsKeyAt (ci : bool) (s : string) : bool :=
  (if ci then startsWithCI TOOL_CALLS s else startsWith TOOL_CALLS s) &&
  startsWith ":" (trimStart (dropN (String.length TOOL_CALLS) s)).

(** [/"tool_calls"\s*:/.test(s)] *)
Fixpoint hasToolCallsKey (ci : bool) (s : string) : bool :=
  toolCallsKeyAt ci s ||
  match s with
  | EmptyString => false
  | String _ tl => hasToolCallsKey ci tl
  end.

(** The shortest [k] such that [s] has the closing fence at offset [k];
    the result is the pair of the text before it and the text after it. *)
Fixpoint splitAtFence (s : string) : option (string * string) :=
  if startsWith FENCE s then Some (EmptyString, dropN 3 s)
  else
    match s with
    | EmptyString => None
    | String c tl =>
        match splitAtFence tl with
        | Some (before, after) => Some (String c before, after)
        | None => None
        end
    end.

Fixpoint takeN (n : nat) (s : string) : string :=
  match n, s with
  | S n', String c tl => String c (takeN n' tl)
  | _, _ => EmptyString
  end.

(** [text.replace(/```json[\s\S]*?```/gi, block => test(block) ? '' : block)] *)
Fixpoint stripToolFences (fuel : nat) (s : string) : string :=
  match fuel with
  | O => s
  | S fuel' =>
      match s with
      | EmptyString => EmptyString
      | String c tl =>
          if startsWithCI FENCE_JSON s then
            match splitAtFence (dropN 7 s) with
            | Some (body, after) =>
                let block := (takeN 7 s ++ body ++ FENCE)%string in
                ((if hasToolCallsKey false block then EmptyString else block)
                   ++ stripToolFences fuel' after)%string
            | None => String c (stripToolFences fuel' tl)
            end
          else String c (stripToolFences fuel' tl)
      end
  end.

(** [text.replace(/```[\s\S]*?```/g, '')] *)
Fixpoint stripFences (fuel : nat) (s : string) : string :=
  match fuel with
  | O => s
  | S fuel' =>
      match s with
      | EmptyString => EmptyString
      | String c tl =>
          if startsWith FENCE s then
            match splitAtFence (dropN 3 s) with
            | Some (_, after) => stripFences fuel' after
            | None => String c (stripFences fuel' tl)
            end
          else String c (stripFences fuel' tl)
      end
  end.

(** [text.replace(/\n?\s*```json[\s\S]*$/gi, block => test(block) ? '' : block)]:
    the match starts at the leftmost offset from which white space leads to
    an opening [```json], and runs to the end of the text. *)
Fixpoint stripOpenToolFence (s : string) : string :=
  if startsWithCI FENCE_JSON (trimStart s) then
    if hasToolCallsKey false s then EmptyString else s
  else
    match s with
    | EmptyString => EmptyString
    | String c tl => String c (stripOpenToolFence tl)
    end.

Fixpoint endsWithBrace (s : string) : bool :=
  match s with
  | EmptyString => false
  | String c EmptyString => Ascii.eqb c "}"
  | String _ tl => endsWithBrace tl
  end.

Fixpoint removeLast (s : string) : string :=
  match s with
  | EmptyString => EmptyString
  | String _ EmptyString => EmptyString
  | String c tl => String c (removeLast tl)
  end.

(** [/\n?\s*\{[\s\S]*"tool_calls"\s*:[\s\S]*\}\s*$/i] anchored at the head of [s]. *)
Definition trailingToolObjectAt (s : string) : bool :=
  match trimStart s with
  | String c rest =>
      Ascii.eqb c "{" &&
      (let body := trimEnd rest in
       endsWithBrace body && hasToolCallsKey true (removeLast body))
  | EmptyString => false
  end.

(** [text.replace(/\n?\s*\{[\s\S]*"tool_calls"\s*:[\s\S]*\}\s*$/i, '')] *)
Fixpoint stripTrailingToolObject (s : string) : string :=
  if trailingToolObjectAt s then EmptyString
  else
    match s with
    | EmptyString => EmptyString
    | String c tl => String c (stripTrailingToolObject tl)
    end.

Fixpoint dropBackticks (s : string) : string :=
  match s with
  | String c tl => if Ascii.eqb c "`" then dropBackticks tl else s
  | EmptyString => EmptyString
  end.

(** [text.replace(/```+/g, '')] *)
Fixpoint stripBacktickRuns (fuel : nat) (s : string) : string :=
  match fuel with
  | O => s
  | S fuel' =>
      match s with
      | EmptyString => EmptyString
      | String c tl =>
          if startsWith FENCE s then stripBacktickRuns fuel' (dropBackticks s)
          else String c (stripBacktickRuns fuel' tl)
      end
  end.

(** The closure [sanitize] of [parseAgentMessage]. *)
Definition sanitize (input : string) : string :=
  let text := input in
  let text := stripToolFences (String.length text) text in
  let text := stripFences (String.length text) text in
  let text := stripOpenToolFence text in
  let text := stripTrailingToolObject text in
  let text := stripBacktickRuns (String.length text) text in
  trim text.

(** The source's [parseAgentMessage], over the host's [JSON.parse]: [Some v]
    when the text is a JSON document of value [v], [None] when it throws. *)
Definition parseAgentMessage (JSON_parse : string -> option json) (raw : string) : string :=
  match JSON_parse raw with
  | Some JNull => sanitize raw
  | Some parsed => sanitize (asString (prop (asRecord (Some parsed)) "message") raw)
  | None => sanitize raw
  end.

Definition isCommentatorIdentity (agentId aiName : string) : bool :=
  let id := toLowerCase (trim agentId) in
  let name := toLowerCase (trim aiName) in
  String.eqb id "commentator" ||
  startsWith "commentator" id ||
  includes "解说" name ||
  includes "commentator" name.

Definition parseMoveDirection (raw : option json) : Direction :=
  let value := toLowerCase (trim (asString raw EmptyString)) in
  if String.eqb value "backward" || String.eqb value "counterclockwise" ||
     String.eqb value "counter_clockwise" || String.eqb value "ccw"
  then backward
  else forward.

Definition directionName (d : Direction) : string :=
  match d with
  | forward => "forward"
  | backward => "backward"
  end.

(** The longest run of characters other than a closing bracket, and the rest. *)
Fixpoint spanName (s : string) : string * string :=
  match s with
  | EmptyString => (EmptyString, EmptyString)
  | String c tl =>
      if Ascii.eqb c "]" then (EmptyString, s)
      else let '(n, r) := spanName tl in (String c n, r)
  end.

Fixpoint hasLineTerminator (s : string) : bool :=
  match s with
  | EmptyString => false
  | String c tl => isLineTerminator c || hasLineTerminator tl
  end.

Fixpoint lastChar (s : string) : option ascii :=
  match s with
  | EmptyString => None
  | String c EmptyString => Some c
  | String _ tl => lastChar tl
  end.

(** [TAG([^\]]+)\]\s*(BODY+)$] anchored at the head of [s], where [BODY] is
    [[\s\S]] when [anyChar] holds and [.] otherwise; the result is the
    pair of the two captures. *)
Definition speakerTagAt (tag : string) (anyChar : bool) (s : string) : option (string * string) :=
  if startsWith tag s then
    let '(speaker, rest) := spanName (dropN (String.length tag) s) in
    if isEmpty speaker then None
    else
      match rest with
      | String _ tail =>
          match trimStart tail with
          | EmptyString =>
              match lastChar tail with
              | Some c =>
                  if anyChar || negb (isLineTerminator c)
                  then Some (speaker, String c EmptyString)
                  else None
              | None => None
              end
          | body =>
              if anyChar || negb (hasLineTerminator body)
              then Some (speaker, body)
              else None
          end
      | EmptyString => None
      end
  else None.

Fixpoint speakerTagFrom (tag : string) (anyChar : bool) (s : string) : option (string * string) :=
  match speakerTagAt tag anyChar s with
  | Some r => Some r
  | None =>
      match s with
      | EmptyString => None
      | String _ tl => speakerTagFrom tag anyChar tl
      end
  end.

(** [/(?:^\[[^\]]+\])*TAG([^\]]+)\]\s*(BODY+)$/u.exec(text)]: at offset 0 one
    bracketed prefix may precede the tag. *)
Definition execSpeakerTag (tag : string) (anyChar : bool) (text : string) : option (string * string) :=
  let prefixed :=
    match text with
    | String c tl =>
        if Ascii.eqb c "[" then
          let '(inner, rest) := spanName tl in
          if isEmpty inner then None
          else
            match rest with
            | String _ after => speakerTagAt tag anyChar after
            | EmptyString => None
            end
        else None
    | EmptyString => None
    end in
  match prefixed with
  | Some r => Some r
  | None => speakerTagFrom tag anyChar text
  end.

Definition COMMENTATOR_TAG : string := "[COMMENTATOR][".
Definition DISCUSS_TAG : string := "[DISCUSS][".

(** Template rendering of an integer, [`${n}`]. *)
Definition numToString (z : Z) : string :=
  match z with
  | Z0 => "0"
  | Zpos p => natToString (Pos.to_nat p)
  | Zneg p => ("-" ++ natToString (Pos.to_nat p))%string
  end.

Definition turnAgentKey (tick : Z) (agentId : string) : string :=
  (numToString tick ++ ":" ++ agentId)%string.

(** ** Maps and sets keyed by strings

    A [Map] keeps its keys in insertion order; [set] on a present key
    replaces the value in place. *)

Definition SMap (V : Type) : Type := list (string * V).

Fixpoint mapGet {V : Type} (m : SMap V) (key : string) : option V :=
  match m with
  | [] => None
  | (k, v) :: tl => if String.eqb k key then Some v else mapGet tl key
  end.

Definition mapHas {V : Type} (m : SMap V) (key : string) : bool :=
  match mapGet m key with
  | Some _ => true
  | None => false
  end.

Fixpoint mapSet {V : Type} (m : SMap V) (key : string) (value : V) : SMap V :=
  match m with
  | [] => [(key, value)]
  | (k, v) :: tl =>
      if String.eqb k key then (k, value) :: tl else (k, v) :: mapSet tl key value
  end.

(** Mutation of the object stored under [key], when there is one. *)
Fixpoint mapUpdate {V : Type} (m : SMap V) (key : string) (f : V -> V) : SMap V :=
  match m with
  | [] => []
  | (k, v) :: tl =>
      if String.eqb k key then (k, f v) :: tl else (k, v) :: mapUpdate tl key f
  end.

Definition mapValues {V : Type} (m : SMap V) : list V := map snd m.

Definition setHas (s : list string) (key : string) : bool :=
  existsb (String.eqb key) s.

Definition setAdd (s : list string) (key : string) : list string :=
  if setHas s key then s else s ++ [key].

(** [a ?? b] on a map lookup. *)
Definition getOr {V : Type} (o : option V) (d : V) : V :=
  match o with
  | Some v => v
  | None => d
  end.

(** ** The data model ([types.ts] and the types of [legacyAdapter.ts]) *)

Module MutablePlayer.
Record t : Type := mk {
  player_id : string;
  name : string;
  avatar : string;
  position : Z;
  facing : Z;
  vote_reverse : option bool;
  hp : Z;
  inventory : list (string * Z);
  message : string
}.
Definition set_name (v : string) (p : t) : t :=
  mk (player_id p) v (avatar p) (position p) (facing p) (vote_reverse p) (hp p) (inventory p) (message p).
Definition set_avatar (v : string) (p : t) : t :=
  mk (player_id p) (name p) v (position p) (facing p) (vote_reverse p) (hp p) (inventory p) (message p).
Definition set_position (v : Z) (p : t) : t :=
  mk (player_id p) (name p) (avatar p) v (facing p) (vote_reverse p) (hp p) (inventory p) (message p).
Definition set_facing (v : Z) (p : t) : t :=
  mk (player_id p) (name p) (avatar p) (position p) v (vote_reverse p) (hp p) (inventory p) (message p).
Definition set_vote_reverse (v : option bool) (p : t) : t :=
  mk (player_id p) (name p) (avatar p) (position p) (facing p) v (hp p) (inventory p) (message p).
Definition set_hp (v : Z) (p : t) : t :=
  mk (player_id p) (name p) (avatar p) (position p) (facing p) (vote_reverse p) v (inventory p) (message p).
Definition set_message (v : string) (p : t) : t :=
  mk (player_id p) (name p) (avatar p) (position p) (facing p) (vote_reverse p) (hp p) (inventory p) v.
End MutablePlayer.

Module PlayerState.
Record t : Type := mk {
  player_id : string;
  name : string;
  avatar : option string;
  position : Z;
  facing : Z;
  vote_reverse : option bool;
  hp : Z;
  inventory : list (string * Z);
  message : string
}.
Definition set_position (v : Z) (p : t) : t :=
  mk (player_id p) (name p) (avatar p) v (facing p) (vote_reverse p) (hp p) (inventory p) (message p).
Definition set_facing (v : Z) (p : t) : t :=
  mk (player_id p) (name p) (avatar p) (position p) v (vote_reverse p) (hp p) (inventory p) (message p).
Definition set_hp (v : Z) (p : t) : t :=
  mk (player_id p) (name p) (avatar p) (position p) (facing p) (vote_reverse p) v (inventory p) (message p).
End PlayerState.

Module TruckState.
Record t : Type := mk {
  position : Z;
  direction : Z;
  speed : Z;
  can_multi_hit : bool
}.
End TruckState.

Module ItemState.
Record t : Type := mk {
  item_id : string;
  kind : string;
  position : Z;
  ttl : Z;
  planted : bool
}.
End ItemState.

Module LogEntry.
Record t : Type := mk {
  ts : Z;
  tick : Z;
  kind : string;
  payload : Rec
}.
End LogEntry.

Module GameState.
Record t : Type := mk {
  tick : Z;
  track_length : Z;
  players : list PlayerState.t;
  truck : TruckState.t;
  items : list ItemState.t;
  logs : list LogEntry.t
}.
Definition set_players (v : list PlayerState.t) (g : t) : t :=
  mk (tick g) (track_length g) v (truck g) (items g) (logs g).
End GameState.

Module ReplayFrame.
Record t : Type := mk {
  state : GameState.t;
  label : string
}.
(** Mutation of the players of the frame's snapshot, one by one. *)
Definition mapPlayers (f : PlayerState.t -> PlayerState.t) (fr : t) : t :=
  mk (GameState.set_players (map f (GameState.players (state fr))) (state fr)) (label fr).
End ReplayFrame.

Module ReplayAction.
Record t : Type := mk {
  tick : Z;
  agent_id : string;
  ai_name : string;
  steps : Z;
  direction : Direction;
  message : string;
  discussion_message : string;
  action_message : string;
  frameIndex : Z
}.
End ReplayAction.

Inductive Delivery : Type := public | private.

Module ReplayDiscussion.
Record t : Type := mk {
  tick : Z;
  agent_id : string;
  ai_name : string;
  message : string;
  delivery : Delivery;
  targets : list string;
  frameIndex : Z
}.
End ReplayDiscussion.

Module ReplayTimeline.
Record t : Type := mk {
  frames : list ReplayFrame.t;
  actions : list ReplayAction.t;
  discussions : list ReplayDiscussion.t
}.
Definition empty : t := mk [] [] [].
End ReplayTimeline.

(** The value type of [lastIntentByAgent]. *)
Module Intent.
Record t : Type := mk {
  message : string;
  steps : Z;
  direction : Direction;
  tick : Z;
  ai_name : string
}.
End Intent.

(** The mutable variables that the body of [parseLegacyExport] closes over. *)
Record Recon : Type := mkRecon {
  players : SMap MutablePlayer.t;
  aiNameById : SMap string;
  aiIdByName : SMap string;
  avatarById : SMap string;
  logs : list LogEntry.t;
  frames : list ReplayFrame.t;
  actions : list ReplayAction.t;
  discussions : list ReplayDiscussion.t;
  lastIntentByAgent : SMap Intent.t;
  discussionByTurnAgent : SMap string;
  actionByTurnAgent : SMap string;
  knownPositionByAgent : list string;
  inferredSpawnDone : list string;
  tick : Z;
  trackLength : Z;
  maxHpSeen : Z;
  seq : Z;
  truck : TruckState.t
}.

Definition set_players (v : SMap MutablePlayer.t) (st : Recon) : Recon :=
  mkRecon v (aiNameById st) (aiIdByName st) (avatarById st) (logs st) (frames st)
    (actions st) (discussions st) (lastIntentByAgent st) (discussionByTurnAgent st)
    (actionByTurnAgent st) (knownPositionByAgent st) (inferredSpawnDone st) (tick st)
    (trackLength st) (maxHpSeen st) (seq st) (truck st).

Definition set_aiNameById (v : SMap string) (st : Recon) : Recon :=
  mkRecon (players st) v (aiIdByName st) (avatarById st) (logs st) (frames st)
    (actions st) (discussions st) (lastIntentByAgent st) (discussionByTurnAgent st)
    (actionByTurnAgent st) (knownPositionByAgent st) (inferredSpawnDone st) (tick st)
    (trackLength st) (maxHpSeen st) (seq st) (truck st).

Definition set_aiIdByName (v : SMap string) (st : Recon) : Recon :=
  mkRecon (players st) (aiNameById st) v (avatarById st) (logs st) (frames st)
    (actions st) (discussions st) (lastIntentByAgent st) (discussionByTurnAgent st)
    (actionByTurnAgent st) (knownPositionByAgent st) (inferredSpawnDone st) (tick st)
    (trackLength st) (maxHpSeen st) (seq st) (truck st).

Definition set_avatarById (v : SMap string) (st : Recon) : Recon :=
  mkRecon (players st) (aiNameById st) (aiIdByName st) v (logs st) (frames st)
    (actions st) (discussions st) (lastIntentByAgent st) (discussionByTurnAgent st)
    (actionByTurnAgent st) (knownPositionByAgent st) (inferredSpawnDone st) (tick st)
    (trackLength st) (maxHpSeen st) (seq st) (truck st).

Definition set_logs (v : list LogEntry.t) (st : Recon) : Recon :=
  mkRecon (players st) (aiNameById st) (aiIdByName st) (avatarById st) v (frames st)
    (actions st) (discussions st) (lastIntentByAgent st) (discussionByTurnAgent st)
    (actionByTurnAgent st) (knownPositionByAgent st) (inferredSpawnDone st) (tick st)
    (trackLength st) (maxHpSeen st) (seq st) (truck st).

Definition set_frames (v : list ReplayFrame.t) (st : Recon) : Recon :=
  mkRecon (players st) (aiNameById st) (aiIdByName st) (avatarById st) (logs st) v
    (actions st) (discussions st) (lastIntentByAgent st) (discussionByTurnAgent st)
    (actionByTurnAgent st) (knownPositionByAgent st) (inferredSpawnDone st) (tick st)
    (trackLength st) (maxHpSeen st) (seq st) (truck st).

Definition set_actions (v : list ReplayAction.t) (st : Recon) : Recon :=
  mkRecon (players st) (aiNameById st) (aiIdByName st) (avatarById st) (logs st)
    (frames st) v (discussions st) (lastIntentByAgent st) (discussionByTurnAgent st)
    (actionByTurnAgent st) (knownPositionByAgent st) (inferredSpawnDone st) (tick st)
    (trackLength st) (maxHpSeen st) (seq st) (truck st).

Definition set_discussions (v : list ReplayDiscussion.t) (st : Recon) : Recon :=
  mkRecon (players st) (aiNameById st) (aiIdByName st) (avatarById st) (logs st)
    (frames st) (actions st) v (lastIntentByAgent st) (discussionByTurnAgent st)
    (actionByTurnAgent st) (knownPositionByAgent st) (inferredSpawnDone st) (tick st)
    (trackLength st) (maxHpSeen st) (seq st) (truck st).

Definition set_lastIntentByAgent (v : SMap Intent.t) (st : Recon) : Recon :=
  mkRecon (players st) (aiNameById st) (aiIdByName st) (avatarById st) (logs st)
    (frames st) (actions st) (discussions st) v (discussionByTurnAgent st)
    (actionByTurnAgent st) (knownPositionByAgent st) (inferredSpawnDone st) (tick st)
    (trackLength st) (maxHpSeen st) (seq st) (truck st).

Definition set_discussionByTurnAgent (v : SMap string) (st : Recon) : Recon :=
  mkRecon (players st) (aiNameById st) (aiIdByName st) (avatarById st) (logs st)
    (frames st) (actions st) (discussions st) (lastIntentByAgent st) v
    (actionByTurnAgent st) (knownPositionByAgent st) (inferredSpawnDone st) (tick st)
    (trackLength st) (maxHpSeen st) (seq st) (truck st).

Definition set_actionByTurnAgent (v : SMap string) (st : Recon) : Recon :=
  mkRecon (players st) (aiNameById st) (aiIdByName st) (avatarById st) (logs st)
    (frames st) (actions st) (discussions st) (lastIntentByAgent st)
    (discussionByTurnAgent st) v (knownPositionByAgent st) (inferredSpawnDone st)
    (tick st) (trackLength st) (maxHpSeen st) (seq st) (truck st).

Definition set_knownPositionByAgent (v : list string) (st : Recon) : Recon :=
  mkRecon (players st) (aiNameById st) (aiIdByName st) (avatarById st) (logs st)
    (frames st) (actions st) (discussions st) (lastIntentByAgent st)
    (discussionByTurnAgent st) (actionByTurnAgent st) v (inferredSpawnDone st) (tick st)
    (trackLength st) (maxHpSeen st) (seq st) (truck st).

Definition set_inferredSpawnDone (v : list string) (st : Recon) : Recon :=
  mkRecon (players st) (aiNameById st) (aiIdByName st) (avatarById st) (logs st)
    (frames st) (actions st) (discussions st) (lastIntentByAgent st)
    (discussionByTurnAgent st) (actionByTurnAgent st) (knownPositionByAgent st) v
    (tick st) (trackLength st) (maxHpSeen st) (seq st) (truck st).

Definition set_tick (v : Z) (st : Recon) : Recon :=
  mkRecon (players st) (aiNameById st) (aiIdByName st) (avatarById st) (logs st)
    (frames st) (actions st) (discussions st) (lastIntentByAgent st)
    (discussionByTurnAgent st) (actionByTurnAgent st) (knownPositionByAgent st)
    (inferredSpawnDone st) v (trackLength st) (maxHpSeen st) (seq st) (truck st).

Definition set_trackLength (v : Z) (st : Recon) : Recon :=
  mkRecon (players st) (aiNameById st) (aiIdByName st) (avatarById st) (logs st)
    (frames st) (actions st) (discussions st) (lastIntentByAgent st)
    (discussionByTurnAgent st) (actionByTurnAgent st) (knownPositionByAgent st)
    (inferredSpawnDone st) (tick st) v (maxHpSeen st) (seq st) (truck st).

Definition set_maxHpSeen (v : Z) (st : Recon) : Recon :=
  mkRecon (players st) (aiNameById st) (aiIdByName st) (avatarById st) (logs st)
    (frames st) (actions st) (discussions st) (lastIntentByAgent st)
    (discussionByTurnAgent st) (actionByTurnAgent st) (knownPositionByAgent st)
    (inferredSpawnDone st) (tick st) (trackLength st) v (seq st) (truck st).

Definition set_seq (v : Z) (st : Recon) : Recon :=
  mkRecon (players st) (aiNameById st) (aiIdByName st) (avatarById st) (logs st)
    (frames st) (actions st) (discussions st) (lastIntentByAgent st)
    (discussionByTurnAgent st) (actionByTurnAgent st) (knownPositionByAgent st)
    (inferredSpawnDone st) (tick st) (trackLength st) (maxHpSeen st) v (truck st).

Definition set_truck (v : TruckState.t) (st : Recon) : Recon :=
  mkRecon (players st) (aiNameById st) (aiIdByName st) (avatarById st) (logs st)
    (frames st) (actions st) (discussions st) (lastIntentByAgent st)
    (discussionByTurnAgent st) (actionByTurnAgent st) (knownPositionByAgent st)
    (inferredSpawnDone st) (tick st) (trackLength st) (maxHpSeen st) (seq st) v.

(** ** The closures of [parseLegacyExport] *)

Definition clonePlayer (player : MutablePlayer.t) : PlayerState.t :=
  PlayerState.mk
    (MutablePlayer.player_id player)
    (MutablePlayer.name player)
    (if isEmpty (MutablePlayer.avatar player) then None else Some (MutablePlayer.avatar player))
    (MutablePlayer.position player)
    (MutablePlayer.facing player)
    (MutablePlayer.vote_reverse player)
    (MutablePlayer.hp player)
    (MutablePlayer.inventory player)
    (MutablePlayer.message player).

Definition cloneState (tick trackLength : Z) (players : SMap MutablePlayer.t)
    (truck : TruckState.t) (logs : list LogEntry.t) : GameState.t :=
  GameState.mk tick trackLength (map clonePlayer (mapValues players)) truck [] logs.

Definition initialRecon : Recon :=
  mkRecon [] [] [] [] [] [] [] [] [] [] [] [] [] 0 FALLBACK_TRACK FALLBACK_HP 0
    (TruckState.mk 0 1 1 false).

Definition updatePlayer (agentId : string) (f : MutablePlayer.t -> MutablePlayer.t)
    (st : Recon) : Recon :=
  set_players (mapUpdate (players st) agentId f) st.

Definition upgradeMutableHp (nextMaxHp : Z) (player : MutablePlayer.t) : MutablePlayer.t :=
  if MutablePlayer.hp player =? FALLBACK_HP
  then MutablePlayer.set_hp nextMaxHp player else player.

Definition upgradeHp (nextMaxHp : Z) (player : PlayerState.t) : PlayerState.t :=
  if PlayerState.hp player =? FALLBACK_HP
  then PlayerState.set_hp nextMaxHp player else player.

Definition backfillFallbackHp (nextMaxHp : Z) (st : Recon) : Recon :=
  if negb (maxHpSeen st <? nextMaxHp) then st
  else
    let st := set_maxHpSeen nextMaxHp st in
    let st := set_players
                (map (fun kv => (fst kv, upgradeMutableHp nextMaxHp (snd kv))) (players st)) st in
    set_frames (map (ReplayFrame.mapPlayers (upgradeHp nextMaxHp)) (frames st)) st.

Definition ensurePlayer (agentId aiName avatar : string) (st : Recon) : Recon :=
  let st :=
    if negb (mapHas (players st) agentId) then
      set_players
        (mapSet (players st) agentId
           (MutablePlayer.mk agentId (orElse aiName agentId) (orElse avatar EmptyString)
              0 1 None (maxHpSeen st) [] EmptyString)) st
    else if negb (isEmpty aiName) then updatePlayer agentId (MutablePlayer.set_name aiName) st
    else st in
  let st :=
    if negb (isEmpty avatar) then
      set_avatarById (mapSet (avatarById st) agentId avatar)
        (updatePlayer agentId (MutablePlayer.set_avatar avatar) st)
    else st in
  if negb (isEmpty aiName) then
    set_aiIdByName (mapSet (aiIdByName st) aiName agentId)
      (set_aiNameById (mapSet (aiNameById st) agentId aiName) st)
  else st.

Definition ensureCommentatorExists (st : Recon) : Recon :=
  if existsb
       (fun player =>
          isCommentatorIdentity (MutablePlayer.player_id player) (MutablePlayer.name player))
       (mapValues (players st))
  then st
  else
    let st := ensurePlayer "commentator" "解说员" EmptyString st in
    updatePlayer "commentator"
      (fun commentator =>
         MutablePlayer.set_message
           (orElse (MutablePlayer.message commentator) "解说席待命中...")
           (MutablePlayer.set_hp (Z.max (MutablePlayer.hp commentator) (maxHpSeen st))
              (MutablePlayer.set_facing 1 (MutablePlayer.set_position 0 commentator))))
      st.

(** [logs.splice(0, logs.length - 120)] once the buffer passes 120 entries. *)
Definition pushLog (kind : string) (payload : Rec) (st : Recon) : Recon :=
  let logs1 := logs st ++ [LogEntry.mk (seq st) (tick st) kind payload] in
  let logs2 := if (120 <? List.length logs1)%nat then skipn (List.length logs1 - 120) logs1 else logs1 in
  set_seq (seq st + 1) (set_logs logs2 st).

Definition pushFrame (label : string) (st : Recon) : Recon :=
  set_frames
    (frames st ++
       [ReplayFrame.mk (cloneState (tick st) (trackLength st) (players st) (truck st) (logs st))
          label]) st.

Definition isNullish (value : option json) : bool :=
  match value with
  | None | Some JNull => true
  | _ => false
  end.

(** The keys of the record that [compactPlayerPositions] returns.  The
    assignment [out[id] = n] creates no property for the key [__proto__]. *)
Definition compactPlayerPositions (payload : Rec) : list (string * Z) :=
  let request := asRecord (prop payload "request") in
  let compactPs := asRecord (prop request "ps") in
  let fullPublic := asRecord (prop request "public_state") in
  let source :=
    asRecord (if isNullish (prop compactPs "pp")
              then prop fullPublic "player_positions" else prop compactPs "pp") in
  map (fun kv => (fst kv, asNumber (Some (snd kv)) 0))
      (filter (fun kv => negb (String.eqb (fst kv) "__proto__")) source).

(** [frames[i]] for a numeric index. *)
Definition frameAt (frames : list ReplayFrame.t) (i : Z) : option ReplayFrame.t :=
  if i <? 0 then None else nth_error frames (Z.to_nat i).

Definition findPlayer (agentId : string) (players : list PlayerState.t) : option PlayerState.t :=
  find (fun p => String.eqb (PlayerState.player_id p) agentId) players.

(** Mutation of the first element that [find] returns. *)
Fixpoint updateFirst {A : Type} (pred : A -> bool) (f : A -> A) (l : list A) : list A :=
  match l with
  | [] => []
  | x :: tl => if pred x then f x :: tl else x :: updateFirst pred f tl
  end.

Definition patchSpawn (agentId : string) (inferredSpawn declaredSign : Z)
    (frame : ReplayFrame.t) : ReplayFrame.t :=
  ReplayFrame.mk
    (GameState.set_players
       (updateFirst (fun p => String.eqb (PlayerState.player_id p) agentId)
          (fun fp => PlayerState.set_facing declaredSign (PlayerState.set_position inferredSpawn fp))
          (GameState.players (ReplayFrame.state frame)))
       (ReplayFrame.state frame))
    (ReplayFrame.label frame).

Definition signOf (n : Z) : Z := if 0 <=? n then 1 else -1.

Definition updateTruck (payload : Rec) (wrap : Z -> Z) (st : Recon) : Recon :=
  let tr := truck st in
  set_truck
    (TruckState.mk
       (wrap (asNumber (prop payload "truck_position") (TruckState.position tr)))
       (signOf (asNumber (prop payload "truck_direction") (TruckState.direction tr)))
       (Z.max 1 (asNumber (prop payload "truck_rage") (TruckState.speed tr)))
       (TruckState.can_multi_hit tr)) st.

Definition onGameStarted (payload : Rec) (st : Recon) : Recon :=
  let ids := asArray (prop payload "alive_agents") in
  let names := asArray (prop payload "alive_ai_names") in
  let st :=
    fold_left
      (fun st entry =>
         let agentId := asString (Some (snd entry)) EmptyString in
         ensurePlayer agentId (asString (nth_error names (fst entry)) agentId)
           (getOr (mapGet (avatarById st) agentId) EmptyString) st)
      (indexed 0 ids) st in
  let st := updateTruck payload (fun p => p) st in
  pushFrame "game_started" st.

(** The block [if (player) { ... }] of the [player_hit] handler. *)
Definition applyHit (payload : Rec) (agentId : string) (player : MutablePlayer.t)
    (st : Recon) : Recon :=
  let lives := asNumber (prop payload "lives") (MutablePlayer.hp player) in
  let st := backfillFallbackHp lives st in
  let st := updatePlayer agentId (MutablePlayer.set_hp lives) st in
  match prop payload "respawned_position" with
  | Some (JNum respawn) =>
      set_knownPositionByAgent (setAdd (knownPositionByAgent st) agentId)
        (updatePlayer agentId
           (MutablePlayer.set_position (wrapTrack respawn (trackLength st))) st)
  | _ => st
  end.

Definition onPlayerHit (payload : Rec) (st : Recon) : Recon :=
  let agentId := asString (prop payload "agent_id") EmptyString in
  let aiName := asString (prop payload "ai_name") agentId in
  let st := ensurePlayer agentId aiName
              (asString (prop payload "avatar")
                 (getOr (mapGet (avatarById st) agentId) EmptyString)) st in
  let st :=
    match mapGet (players st) agentId with
    | Some player => applyHit payload agentId player st
    | None => st
    end in
  pushFrame "player_hit" st.

Definition onTruckMoved (payload : Rec) (st : Recon) : Recon :=
  pushFrame "truck_moved" (updateTruck payload (fun p => wrapTrack p (trackLength st)) st).

(** The block [if (player) { ... }] of the [player_moved] handler. *)
Definition applyMove (payload : Rec) (agentId : string) (player : MutablePlayer.t)
    (st : Recon) : Recon :=
  let declaredDirection := parseMoveDirection (prop payload "direction") in
  let declaredSign := match declaredDirection with backward => -1 | forward => 1 end in
  let intent := mapGet (lastIntentByAgent st) agentId in
  let steps :=
    Z.max 1 (asNumber (prop payload "steps")
               (match intent with Some i => Intent.steps i | None => 1 end)) in
  let hasPosition :=
    match prop payload "position" with Some (JNum _) => true | _ => false end in
  let movedTo :=
    if hasPosition
    then wrapTrack (asNumber (prop payload "position") (MutablePlayer.position player))
           (trackLength st)
    else wrapTrack (MutablePlayer.position player + declaredSign * steps) (trackLength st) in
  let inferredSpawn := wrapTrack (movedTo - declaredSign * steps) (trackLength st) in
  let known := setHas (knownPositionByAgent st) agentId in
  let basePos := if known then MutablePlayer.position player else inferredSpawn in
  let st :=
    if known then st
    else
      let st := updatePlayer agentId (MutablePlayer.set_position inferredSpawn) st in
      let st :=
        if setHas (inferredSpawnDone st) agentId then st
        else
          set_inferredSpawnDone (setAdd (inferredSpawnDone st) agentId)
            (set_frames (map (patchSpawn agentId inferredSpawn declaredSign) (frames st)) st) in
      set_knownPositionByAgent (setAdd (knownPositionByAgent st) agentId) st in
  let resolvedDirection :=
    inferDirectionByPosition basePos movedTo declaredDirection steps (trackLength st) in
  let st :=
    updatePlayer agentId
      (fun p =>
         MutablePlayer.set_vote_reverse
           (match prop payload "vote_reverse" with Some (JBool b) => Some b | _ => None end)
           (MutablePlayer.set_facing
              (match resolvedDirection with backward => -1 | forward => 1 end)
              (MutablePlayer.set_position movedTo p))) st in
  let lives := asNumber (prop payload "lives") (MutablePlayer.hp player) in
  let st := backfillFallbackHp lives st in
  updatePlayer agentId (MutablePlayer.set_hp lives) st.

(** The action that the [player_moved] handler appends, built once the
    frame of the move is pushed. *)
Definition moveAction (payload : Rec) (agentId aiName : string) (st : Recon) : ReplayAction.t :=
  let frameIndex := Z.of_nat (List.length (frames st)) - 1 in
  let intent := mapGet (lastIntentByAgent st) agentId in
  let discussionText :=
    getOr (mapGet (discussionByTurnAgent st) (turnAgentKey (tick st) agentId)) EmptyString in
  let actionText :=
    getOr (mapGet (actionByTurnAgent st) (turnAgentKey (tick st) agentId)) EmptyString in
  let prevState :=
    if (1 <? List.length (frames st))%nat
    then option_map ReplayFrame.state (frameAt (frames st) (Z.of_nat (List.length (frames st)) - 2))
    else None in
  let movedPlayer :=
    match frameAt (frames st) frameIndex with
    | Some fr => findPlayer agentId (GameState.players (ReplayFrame.state fr))
    | None => None
    end in
  let prevPlayer :=
    match prevState with
    | Some g => findPlayer agentId (GameState.players g)
    | None => None
    end in
  let declared :=
    parseMoveDirection
      (Some (JStr (asString (prop payload "direction")
                     (match intent with
                      | Some i => directionName (Intent.direction i)
                      | None => "forward"
                      end)))) in
  let steps :=
    Z.max 1 (asNumber (prop payload "steps")
               (match intent with Some i => Intent.steps i | None => 1 end)) in
  let inferredDirection :=
    match movedPlayer, prevPlayer with
    | Some mp, Some pp =>
        inferDirectionByPosition (PlayerState.position pp) (PlayerState.position mp) declared steps
          (match frameAt (frames st) frameIndex with
           | Some fr => GameState.track_length (ReplayFrame.state fr)
           | None => trackLength st
           end)
    | _, _ => declared
    end in
  let intentMessage := match intent with Some i => Intent.message i | None => EmptyString end in
  let storedMessage :=
    match mapGet (players st) agentId with
    | Some p => MutablePlayer.message p
    | None => EmptyString
    end in
  ReplayAction.mk (tick st) agentId
    (orElse aiName
       (orElse (match intent with Some i => Intent.ai_name i | None => EmptyString end) agentId))
    steps inferredDirection
    (orElse actionText (orElse discussionText (orElse intentMessage storedMessage)))
    discussionText
    (orElse actionText (orElse intentMessage storedMessage))
    frameIndex.

Definition onPlayerMoved (payload : Rec) (st : Recon) : Recon :=
  let agentId := asString (prop payload "agent_id") EmptyString in
  let aiName := asString (prop payload "ai_name") agentId in
  let st := ensurePlayer agentId aiName
              (asString (prop payload "avatar")
                 (getOr (mapGet (avatarById st) agentId) EmptyString)) st in
  let st :=
    match mapGet (players st) agentId with
    | Some player => applyMove payload agentId player st
    | None => st
    end in
  let st := pushFrame "player_moved" st in
  set_actions (actions st ++ [moveAction payload agentId aiName st]) st.

Section Reconstruction.

(** The host's [JSON.parse]: [Some v] for a JSON document of value [v],
    [None] where it throws [SyntaxError]. *)
Variable JSON_parse : string -> option json.

Definition isAgentTextEvent (event : string) : bool :=
  String.eqb event "discussion_response" || String.eqb event "agent_response" ||
  String.eqb event "commentator_response".

Definition nonEmptyStrings (items : list json) : list string :=
  filter (fun x => negb (isEmpty x)) (map (fun x => asString (Some x) EmptyString) items).

Definition onAgentInteraction (event : string) (payload : Rec) (st : Recon) : Recon :=
  let agentId := asString (prop payload "agent_id") EmptyString in
  let aiName := asString (prop payload "ai_name") EmptyString in
  let avatar :=
    asString (prop payload "avatar") (getOr (mapGet (avatarById st) agentId) EmptyString) in
  let st := if isEmpty agentId then st else ensurePlayer agentId aiName avatar st in
  let positionMap := compactPlayerPositions payload in
  let st :=
    fold_left
      (fun st pid =>
         ensurePlayer pid (getOr (mapGet (aiNameById st) pid) pid)
           (getOr (mapGet (avatarById st) pid) EmptyString) st)
      (map fst positionMap) st in
  if isAgentTextEvent event then
    let st :=
      if isEmpty agentId then st
      else
        let text := parseAgentMessage JSON_parse (asString (prop payload "message") EmptyString) in
        let st :=
          match mapGet (players st) agentId with
          | Some _ =>
              let st := updatePlayer agentId (MutablePlayer.set_message text) st in
              if negb (String.eqb event "commentator_response") then
                pushLog
                  (if isCommentatorIdentity agentId (orElse aiName agentId)
                   then "commentary" else "player_speak")
                  [("player_id", JStr agentId); ("text", JStr text);
                   ("source", JStr "agent_interaction")] st
              else st
          | None => st
          end in
        let st :=
          if String.eqb event "discussion_response" && negb (isEmpty text) then
            set_discussionByTurnAgent
              (mapSet (discussionByTurnAgent st) (turnAgentKey (tick st) agentId) text) st
          else st in
        let st :=
          if String.eqb event "agent_response" && negb (isEmpty text) then
            set_actionByTurnAgent
              (mapSet (actionByTurnAgent st) (turnAgentKey (tick st) agentId) text) st
          else st in
        set_lastIntentByAgent
          (mapSet (lastIntentByAgent st) agentId
             (Intent.mk text (asNumber (prop payload "steps") 0)
                (parseMoveDirection (prop payload "direction")) (tick st)
                (orElse aiName agentId))) st in
    let st := pushFrame event st in
    if String.eqb event "discussion_response" && negb (isEmpty agentId) then
      set_discussions
        (discussions st ++
           [ReplayDiscussion.mk (tick st) agentId (orElse aiName agentId)
              (parseAgentMessage JSON_parse (asString (prop payload "message") EmptyString))
              (if String.eqb (asString (prop payload "delivery") EmptyString) "private"
               then private else public)
              (nonEmptyStrings (asArray (prop payload "targets")))
              (Z.of_nat (List.length (frames st)) - 1)]) st
    else st
  else st.

Definition setPlayerMessage (agentId message : string) (st : Recon) : Recon :=
  updatePlayer agentId (MutablePlayer.set_message message) st.

Definition onCommentatorBroadcast (payload : Rec) (st : Recon) : Recon :=
  let agentId := asString (prop payload "agent_id") "commentator" in
  let aiName := asString (prop payload "ai_name") (orElse agentId "解说员") in
  let avatar :=
    asString (prop payload "avatar") (getOr (mapGet (avatarById st) agentId) EmptyString) in
  let st := ensurePlayer (orElse agentId "commentator") aiName avatar st in
  let message := parseAgentMessage JSON_parse (asString (prop payload "text") EmptyString) in
  let st := setPlayerMessage (orElse agentId "commentator") message st in
  let st :=
    pushLog "commentary"
      [("player_id", JStr (orElse agentId "commentator")); ("ai_name", JStr aiName);
       ("text", JStr message); ("source", JStr "structured")] st in
  pushFrame "commentator_broadcast" st.

Definition systemChatter (text : string) (st : Recon) : Recon :=
  pushLog "discussion" [("player_id", JStr "system"); ("text", JStr text)] st.

Definition onPublicBroadcast (payload : Rec) (st : Recon) : Recon :=
  let text := asString (prop payload "text") EmptyString in
  let st :=
    if includes COMMENTATOR_TAG text then
      match execSpeakerTag COMMENTATOR_TAG true text with
      | Some (aiName, body) =>
          let agentId := getOr (mapGet (aiIdByName st) aiName) "commentator" in
          let st := ensurePlayer agentId aiName
                      (getOr (mapGet (avatarById st) agentId) EmptyString) st in
          let message := parseAgentMessage JSON_parse body in
          let st := setPlayerMessage agentId message st in
          pushLog "commentary"
            [("player_id", JStr agentId); ("text", JStr message); ("source", JStr "broadcast")] st
      | None => systemChatter text st
      end
    else if includes DISCUSS_TAG text then
      match execSpeakerTag DISCUSS_TAG false text with
      | Some (aiName, body) =>
          let agentId := getOr (mapGet (aiIdByName st) aiName) aiName in
          let st := ensurePlayer agentId aiName
                      (getOr (mapGet (avatarById st) agentId) EmptyString) st in
          let message := parseAgentMessage JSON_parse body in
          let st := setPlayerMessage agentId message st in
          pushLog "discussion" [("player_id", JStr agentId); ("text", JStr message)] st
      | None => systemChatter text st
      end
    else systemChatter text st in
  pushFrame "public_broadcast" st.

(** The dispatch on the event, after the tick and the track length are
    brought up to date. *)
Definition dispatchEvent (event messageType : string) (payload : Rec) (st : Recon) : Recon :=
  if String.eqb event "game_started" then onGameStarted payload st
  else if String.eqb messageType "agent_interaction" then onAgentInteraction event payload st
  else if String.eqb event "player_moved" then onPlayerMoved payload st
  else if String.eqb event "player_hit" then onPlayerHit payload st
  else if String.eqb event "truck_moved" then onTruckMoved payload st
  else if String.eqb event "commentator_broadcast" then onCommentatorBroadcast payload st
  else if String.eqb event "public_broadcast" then onPublicBroadcast payload st
  else if String.eqb event "turn_finished" || String.eqb event "turn_started"
  then pushFrame event st
  else st.

Definition applyTrackHint (payload : Rec) (st : Recon) : Recon :=
  match compactTrackSize payload with
  | Some maybeTrackSize => set_trackLength maybeTrackSize st
  | None => st
  end.

(** One turn of the loop over [coreMessages]; reading a property of a
    [null] message throws. *)
Definition processMessage (st : Recon) (message : json) : option Recon :=
  match message with
  | JNull => None
  | _ =>
      let fields := asRecord (Some message) in
      let messageTurn := asNumber (prop fields "turn") (tick st) in
      let st := set_tick (Z.max (tick st) messageTurn) st in
      let event := asString (prop fields "event") EmptyString in
      let payload := asRecord (prop fields "payload") in
      let messageType := asString (prop fields "message_type") EmptyString in
      let st := applyTrackHint payload st in
      Some (dispatchEvent event messageType payload st)
  end.

Fixpoint processMessages (st : Recon) (coreMessages : list json) : option Recon :=
  match coreMessages with
  | [] => Some st
  | message :: rest =>
      match processMessage st message with
      | Some st' => processMessages st' rest
      | None => None
      end
  end.

Definition seedRoster (metas : list json) (st : Recon) : Recon :=
  fold_left
    (fun st item =>
       let row := asRecord (Some item) in
       let agentId := asString (prop row "agent_id") EmptyString in
       if isEmpty agentId then st
       else ensurePlayer agentId (asString (prop row "ai_name") agentId)
              (asString (prop row "avatar") EmptyString) st)
    metas st.

Definition clampRegistryHp (st : Recon) : Recon :=
  set_players
    (map (fun kv =>
            (fst kv,
             MutablePlayer.set_hp
               (Z.max 0 (Z.min (maxHpSeen st) (MutablePlayer.hp (snd kv)))) (snd kv)))
       (players st)) st.

End Reconstruction.

(** ** The trajectory repair pass *)

(** [actionByFrame.get(i)]: the map is filled in the order of [actions], a
    later action replacing an earlier one under the same key. *)
Definition actionByFrameGet (actions : list ReplayAction.t) (i : Z) : option ReplayAction.t :=
  find (fun a => ReplayAction.frameIndex a =? i) (rev actions).

(** [prevById.get(id)] for the map built from the players of [prev]. *)
Definition prevByIdGet (players : list PlayerState.t) (id : string) : option PlayerState.t :=
  find (fun p => String.eqb (PlayerState.player_id p) id) (rev players).

Definition isActing (movedAction : option ReplayAction.t) (player : PlayerState.t) : bool :=
  match movedAction with
  | Some a => String.eqb (ReplayAction.agent_id a) (PlayerState.player_id player)
  | None => false
  end.

Definition repairPlayer (prev curr : ReplayFrame.t) (movedAction : option ReplayAction.t)
    (player : PlayerState.t) : PlayerState.t :=
  match prevByIdGet (GameState.players (ReplayFrame.state prev)) (PlayerState.player_id player) with
  | None => player
  | Some prevPlayer =>
      let hpDropped := PlayerState.hp player <? PlayerState.hp prevPlayer in
      if String.eqb (ReplayFrame.label curr) "player_hit" && hpDropped then player
      else
        let track := GameState.track_length (ReplayFrame.state curr) in
        match movedAction with
        | Some a =>
            if String.eqb (ReplayAction.agent_id a) (PlayerState.player_id player) then
              let expected :=
                wrapTrack
                  (PlayerState.position prevPlayer +
                   (match ReplayAction.direction a with backward => -1 | forward => 1 end) *
                   Z.max 1 (ReplayAction.steps a))
                  track in
              let jump :=
                circularDistance (PlayerState.position prevPlayer) (PlayerState.position player)
                  track in
              if (jump =? 0) || (Z.max 2 (ReplayAction.steps a + 2) <? jump)
              then PlayerState.set_position expected player
              else player
            else
              let jump :=
                circularDistance (PlayerState.position prevPlayer) (PlayerState.position player)
                  track in
              if 2 <? jump
              then PlayerState.set_position (PlayerState.position prevPlayer) player
              else player
        | None =>
            let jump :=
              circularDistance (PlayerState.position prevPlayer) (PlayerState.position player)
                track in
            if 2 <? jump
            then PlayerState.set_position (PlayerState.position prevPlayer) player
            else player
        end
  end.

(** The body of the loop at index [i]: [prev] is [frames[i - 1]] as the
    earlier turns of the loop left it. *)
Definition repairFrame (actions : list ReplayAction.t) (i : Z) (prev curr : ReplayFrame.t)
    : ReplayFrame.t :=
  ReplayFrame.mapPlayers (repairPlayer prev curr (actionByFrameGet actions i)) curr.

Fixpoint repairFrom (actions : list ReplayAction.t) (i : Z) (prev : ReplayFrame.t)
    (rest : list ReplayFrame.t) : list ReplayFrame.t :=
  match rest with
  | [] => []
  | curr :: tl =>
      let curr' := repairFrame actions i prev curr in
      curr' :: repairFrom actions (i + 1) curr' tl
  end.

Definition repairFrames (actions : list ReplayAction.t) (frames : list ReplayFrame.t)
    : list ReplayFrame.t :=
  match frames with
  | [] => []
  | first :: rest => first :: repairFrom actions 1 first rest
  end.

Definition parseLegacyExport (JSON_parse : string -> option json) (input : json)
    : option ReplayTimeline.t :=
  let envelope := asRecord (Some input) in
  let coreMessages := asArray (prop envelope "core_messages") in
  match coreMessages with
  | [] => Some ReplayTimeline.empty
  | _ =>
      let st := seedRoster (asArray (prop envelope "agent_metadata")) initialRecon in
      let st := ensureCommentatorExists st in
      match processMessages JSON_parse st coreMessages with
      | None => None
      | Some st =>
          let st := ensureCommentatorExists (clampRegistryHp st) in
          Some (ReplayTimeline.mk (repairFrames (actions st) (frames st))
                  (actions st) (discussions st))
      end
  end.

(** ** The replay pipeline ([App.tsx]) *)

Module Playback.

Definition DIALOGUE_TIME_SCALE : Q := 125 # 100.
Definition SPEECH_TIME_COMPENSATION : Q := 8 # 10.
Definition COMMENTATOR_SPEECH_MULTIPLIER : Z := 3.

(** [speechDurationMs(message, multiplier)], in exact arithmetic. *)
Definition speechDurationMs (message : string) (multiplier : Z) : Q :=
  inject_Z (Z.max 2200 (Z.min 9000 (1400 + Z.of_nat (String.length message) * 36)))
  * DIALOGUE_TIME_SCALE
  * SPEECH_TIME_COMPENSATION
  * inject_Z (Z.max 1 multiplier).

(** The same product in binary64, as the source evaluates it, for a clamp
    value that is already computed: the integers involved are exact in
    binary64. *)
Definition speechScaleBinary64 (clamped : Z) : float :=
  PrimFloat.mul
    (PrimFloat.mul (PrimFloat.of_uint63 (Uint63.of_Z clamped)) 0x1.4p+0%float)
    0x1.999999999999ap-1%float.

Inductive ActionPhase : Type :=
| idle | discussion | sight | dice | sync | move | impact.

(** The part of the component's state that the move phase writes. *)
Record View : Type := mkView {
  actionIndex : Z;
  actionPhase : ActionPhase;
  activeAction : option ReplayAction.t
}.

(** What the pipeline does on reaching the move phase: it either leaves
    through the branch [if (!toState)] with the view it has written, or
    goes on to [animateMoveForRun(fromState, toState, action)]. *)
Inductive MoveOutcome : Type :=
| MoveSkipped (view : View)
| MoveInterpolates (targetIndex : Z) (fromState toState : GameState.t).

Definition enterMove (replayFrames : list ReplayFrame.t) (action : ReplayAction.t)
    (live : GameState.t) (view : View) : MoveOutcome :=
  let view := mkView (actionIndex view) move (activeAction view) in
  let targetIndex :=
    Z.min (ReplayAction.frameIndex action) (Z.of_nat (List.length replayFrames) - 1) in
  let toState := option_map ReplayFrame.state (frameAt replayFrames targetIndex) in
  let fromState := live in
  match toState with
  | None => MoveSkipped (mkView (actionIndex view + 1) idle None)
  | Some toState => MoveInterpolates targetIndex fromState toState
  end.

End Playback.

(** ** Notions used by the statements *)




(** [after] is [before] moved to the cell [position]: it stands on
    [position] and every other field is the one of [before]. *)
Definition placedAt (position : Z) (before after : PlayerState.t) : Prop :=
  PlayerState.position after = position /\
  PlayerState.player_id after = PlayerState.player_id before /\
  PlayerState.name after = PlayerState.name before /\
  PlayerState.avatar after = PlayerState.avatar before /\
  PlayerState.facing after = PlayerState.facing before /\
  PlayerState.vote_reverse after = PlayerState.vote_reverse before /\
  PlayerState.hp after = PlayerState.hp before /\
  PlayerState.inventory after = PlayerState.inventory before /\
  PlayerState.message after = PlayerState.message before.

(** An export without a recognizable event list: [core_messages] is
    missing, is not a list, or is the empty list. *)
Definition noEventList (input : json) : Prop :=
  match prop (asRecord (Some input)) "core_messages" with
  | None => True
  | Some (JArr []) => True
  | Some (JArr (_ :: _)) => False
  | Some _ => True
  end.

(** The placeholder upgrade of one snapshot player, as a relation between
    the player before and after. *)
Definition placeholderUpgraded (nextMaxHp : Z) (before after : PlayerState.t) : Prop :=
  (PlayerState.hp before = FALLBACK_HP ->
   after = PlayerState.set_hp nextMaxHp before) /\
  (PlayerState.hp before <> FALLBACK_HP -> after = before).

Definition framePlayersRelated (R : PlayerState.t -> PlayerState.t -> Prop)
    (before after : ReplayFrame.t) : Prop :=
  ReplayFrame.label after = ReplayFrame.label before /\
  GameState.tick (ReplayFrame.state after) = GameState.tick (ReplayFrame.state before) /\
  GameState.track_length (ReplayFrame.state after) =
    GameState.track_length (ReplayFrame.state before) /\
  Forall2 R (GameState.players (ReplayFrame.state before))
    (GameState.players (ReplayFrame.state after)).

(** The text that [parseAgentMessage] hands to [sanitize]: the string
    member [message] of the JSON document [raw], when [raw] is the document
    of an object with such a member, and [raw] itself otherwise. *)
Definition messageOf (parsed : option json) (raw : string) : string :=
  match parsed with
  | Some (JObj props) => asString (prop props "message") raw
  | _ => raw
  end.

(** What a frame keeps for good once it is emitted: its label and the track
    length of its snapshot. *)
Definition frameShape (fr : ReplayFrame.t) : string * Z :=
  (ReplayFrame.label fr, GameState.track_length (ReplayFrame.state fr)).

Definition shapes (st : Recon) : list (string * Z) := map frameShape (frames st).

(** Two states of the reconstruction with the same emitted frames up to the
    retroactive patches, the same actions and the same track length. *)
Definition same (st st' : Recon) : Prop :=
  shapes st' = shapes st /\ actions st' = actions st /\ trackLength st' = trackLength st.

(** The effect of one handler on the frames and the actions. *)
Inductive StepShape (st st' : Recon) : Prop :=
| StepQuiet :
    shapes st' = shapes st -> actions st' = actions st ->
    trackLength st' = trackLength st -> StepShape st st'
| StepEmits (label : string) :
    shapes st' = shapes st ++ [(label, trackLength st)] -> actions st' = actions st ->
    trackLength st' = trackLength st -> StepShape st st'
| StepMoves (action : ReplayAction.t) :
    shapes st' = shapes st ++ [("player_moved", trackLength st)] ->
    actions st' = actions st ++ [action] ->
    ReplayAction.frameIndex action = Z.of_nat (List.length (shapes st)) ->
    trackLength st' = trackLength st -> StepShape st st'.

(** A handler that pushes exactly one frame, under the track length in
    force, and leaves the track length alone. *)
Definition PushesOne (st st' : Recon) : Prop :=
  (exists label, shapes st' = shapes st ++ [(label, trackLength st)]) /\
  trackLength st' = trackLength st.

(** Every action points at a frame of the list labeled [player_moved], and
    the frame indices increase strictly along the list of actions. *)
Definition actionsAnchored (frames : list ReplayFrame.t) (actions : list ReplayAction.t) : Prop :=
  Forall
    (fun a =>
       0 <= ReplayAction.frameIndex a < Z.of_nat (List.length frames) /\
       exists fr,
         frameAt frames (ReplayAction.frameIndex a) = Some fr /\
         ReplayFrame.label fr = "player_moved")
    actions /\
  StronglySorted Z.lt (map ReplayAction.frameIndex actions).

Definition coreMessagesOf (input : json) : list json :=
  asArray (prop (asRecord (Some input)) "core_messages").

Definition trackHintOf (message : json) : option Z :=
  compactTrackSize (asRecord (prop (asRecord (Some message)) "payload")).

(** The positive track-size hints of the stream, in its order. *)
Fixpoint trackHints (coreMessages : list json) : list Z :=
  match coreMessages with
  | [] => []
  | message :: rest =>
      match trackHintOf message with
      | Some hint => hint :: trackHints rest
      | None => trackHints rest
      end
  end.

(** Whether the turn of the loop for a message with this [event] and
    [message_type] pushes a frame: the branches of the loop that call
    [pushFrame], in the order in which the loop tries them. *)
Definition pushesFrame (event messageType : string) : bool :=
  if String.eqb event "game_started" then true
  else if String.eqb messageType "agent_interaction" then isAgentTextEvent event
  else if String.eqb event "player_moved" then true
  else if String.eqb event "player_hit" then true
  else if String.eqb event "truck_moved" then true
  else if String.eqb event "commentator_broadcast" then true
  else if String.eqb event "public_broadcast" then true
  else if String.eqb event "turn_finished" || String.eqb event "turn_started" then true
  else false.

Definition emitsFrame (message : json) : bool :=
  pushesFrame
    (asString (prop (asRecord (Some message)) "event") EmptyString)
    (asString (prop (asRecord (Some message)) "message_type") EmptyString).

(** The number of frames that the messages push. *)
Definition framesPushedBy (coreMessages : list json) : nat :=
  List.length (filter emitsFrame coreMessages).

(** The messages before the first one that carries a positive hint, and the
    messages from that one on. *)
Fixpoint beforeFirstHint (coreMessages : list json) : list json :=
  match coreMessages with
  | [] => []
  | message :: rest =>
      match trackHintOf message with
      | Some _ => []
      | None => message :: beforeFirstHint rest
      end
  end.

Fixpoint fromFirstHint (coreMessages : list json) : list json :=
  match coreMessages with
  | [] => []
  | message :: rest =>
      match trackHintOf message with
      | Some _ => coreMessages
      | None => fromFirstHint rest
      end
  end.

(** The track lengths that the frames must carry when every positive hint
    replaces the track length: the frame of a message carries the hint of
    that message, or else the latest hint before it, or else [current]. *)
Fixpoint expectedTracks (current : Z) (coreMessages : list json) : list Z :=
  match coreMessages with
  | [] => []
  | message :: rest =>
      let current :=
        match trackHintOf message with
        | Some hint => hint
        | None => current
        end in
      if emitsFrame message
      then current :: expectedTracks current rest
      else expectedTracks current rest
  end.

Definition trackLengths (frames : list ReplayFrame.t) : list Z :=
  map (fun fr => GameState.track_length (ReplayFrame.state fr)) frames.

(** [actionsAnchored] on the labels of the frames alone. *)
Definition anchoredAt (labels : list string) (actions : list ReplayAction.t) : Prop :=
  Forall
    (fun a =>
       0 <= ReplayAction.frameIndex a < Z.of_nat (List.length labels) /\
       nth_error labels (Z.to_nat (ReplayAction.frameIndex a)) = Some "player_moved")
    actions /\
  StronglySorted Z.lt (map ReplayAction.frameIndex actions).

Definition labelsOf (st : Recon) : list string := map fst (shapes st).

Definition tracksOf (st : Recon) : list Z := map snd (shapes st).

Definition hpTable (tl : ReplayTimeline.t) : list (list Z) :=
  map (fun fr => map PlayerState.hp (GameState.players (ReplayFrame.state fr)))
    (ReplayTimeline.frames tl).

(** The upper half of the hit-point bound, on a state of the
    reconstruction: the ceiling is at least the fallback, and no player of
    the registry or of an emitted frame has more hp than the ceiling. *)
Definition hpCapped (st : Recon) : Prop :=
  FALLBACK_HP <= maxHpSeen st /\
  Forall (fun kv => MutablePlayer.hp (snd kv) <= maxHpSeen st) (players st) /\
  Forall
    (fun fr =>
       Forall (fun p => PlayerState.hp p <= maxHpSeen st)
         (GameState.players (ReplayFrame.state fr)))
    (frames st).

(** A step that never lowers the ceiling and keeps the bound. *)
Definition grows (st st' : Recon) : Prop :=
  maxHpSeen st <= maxHpSeen st' /\ (hpCapped st -> hpCapped st').

(** The state in which the loop over the messages starts: the roster of
    [agent_metadata] is seeded and a commentator exists. *)
Definition startOf (input : json) : Recon :=
  ensureCommentatorExists
    (seedRoster (asArray (prop (asRecord (Some input)) "agent_metadata")) initialRecon).

(** The integers [from], [from + 1], ..., [from + n - 1]. *)
Fixpoint integersFrom (n : nat) (from : Z) : list Z :=
  match n with
  | O => []
  | S n' => from :: integersFrom n' (from + 1)
  end.

(** ** Sample inputs *)

Definition sampleState : GameState.t :=
  GameState.mk 0 48 [] (TruckState.mk 0 1 1 false) [] [].

Definition sampleAction (frameIndex : Z) : ReplayAction.t :=
  ReplayAction.mk 1 "a1" "Al" 3 forward EmptyString EmptyString EmptyString frameIndex.

Definition sampleFrame (label : string) (players : list PlayerState.t) : ReplayFrame.t :=
  ReplayFrame.mk (GameState.mk 0 48 players (TruckState.mk 0 1 1 false) [] []) label.

Definition samplePlayer (id : string) (position hp : Z) : PlayerState.t :=
  PlayerState.mk id id None position 1 None hp [] EmptyString.

Definition sampleView : Playback.View := Playback.mkView 0 Playback.sync None.

Definition sampleRecon (frames : list ReplayFrame.t) : Recon :=
  set_frames frames initialRecon.

Definition fencedNote : string := "see ```let x = 1``` here".

Definition event (name : string) (turn : Z) (payload : Rec) : json :=
  JObj [("turn", JNum turn); ("event", JStr name); ("payload", JObj payload)].

(** A parser that rejects every text.  It agrees with [JSON.parse] on the
    sample exports, none of whose messages is a JSON document. *)
Definition rejectingParser : string -> option json := fun _ => None.

Definition sampleExport : json :=
  JObj [("core_messages", JArr [
    event "game_started" 0
      [("alive_agents", JArr [JStr "a"; JStr "b"]);
       ("alive_ai_names", JArr [JStr "Al"; JStr "Bo"])];
    event "player_moved" 1
      [("agent_id", JStr "a"); ("steps", JNum 3); ("position", JNum 8); ("lives", JNum 5)];
    event "player_hit" 1 [("agent_id", JStr "b"); ("lives", JNum 4)];
    event "player_moved" 2
      [("agent_id", JStr "b"); ("steps", JNum 2); ("direction", JStr "backward")];
    event "turn_finished" 2 []])].

Definition sampleTimeline : ReplayTimeline.t :=
  Eval vm_compute in
    match parseLegacyExport rejectingParser sampleExport with
    | Some tl => tl
    | None => ReplayTimeline.empty
    end.

Definition hint (size : Z) : string * json :=
  ("request", JObj [("ps", JObj [("ts", JNum size)])]).

(** Two checkpoints, the second with a smaller track-size hint. *)
Definition shrinkingExport : json :=
  JObj [("core_messages", JArr [
    event "turn_started" 1 [hint 20];
    event "turn_finished" 1 [hint 10]])].

Definition growingExport : json :=
  JObj [("core_messages", JArr [
    event "game_started" 0 [];
    event "turn_started" 1 [hint 20];
    event "turn_finished" 1 [];
    event "turn_started" 2 [hint 24]])].

Definition growingTimeline : ReplayTimeline.t :=
  Eval vm_compute in
    match parseLegacyExport rejectingParser growingExport with
    | Some tl => tl
    | None => ReplayTimeline.empty
    end.

(** One hit that reports a negative number of lives. *)
Definition negativeLivesExport : json :=
  JObj [("core_messages", JArr [
    event "player_hit" 1 [("agent_id", JStr "a1"); ("lives", JNum (-1))]])].

(** * Further notions

    The rest of the development covers more of [legacyAdapter.ts] and of
    [App.tsx]: what the registry and the emitted frames keep through the
    loop over the messages, and the helpers of the display. *)

(** ** The registry and the frames through the loop *)

Definition idsOf (st : Recon) : list string := map fst (players st).

Definition playerIds (g : GameState.t) : list string :=
  map PlayerState.player_id (GameState.players g).

Definition prefixOf {A : Type} (l l' : list A) : Prop := exists t, l' = l ++ t.

Definition facingOK (z : Z) : Prop := z = 1 \/ z = -1.

Definition truckOK (t : TruckState.t) : Prop :=
  facingOK (TruckState.direction t) /\ 1 <= TruckState.speed t.

(** The registry is keyed by player id, the keys are distinct, every facing
    is 1 or -1, the truck faces 1 or -1 at speed 1 at least, and the log
    buffer holds 120 entries at most. *)
Record RegOK (st : Recon) : Prop := mkRegOK {
  reg_keys : Forall (fun kv => MutablePlayer.player_id (snd kv) = fst kv) (players st);
  reg_nodup : NoDup (idsOf st);
  reg_facing : Forall (fun kv => facingOK (MutablePlayer.facing (snd kv))) (players st);
  reg_truck : truckOK (truck st);
  reg_logs : (List.length (logs st) <= 120)%nat
}.

Definition facingsOK (g : GameState.t) : Prop :=
  Forall (fun p => facingOK (PlayerState.facing p)) (GameState.players g).

Definition FramesOK (st : Recon) : Prop :=
  Forall (fun fr => facingsOK (ReplayFrame.state fr)) (frames st).

(** What no later event rewrites in an emitted frame: everything but the
    position, the facing and the hp of its players. *)
Record Core : Type := mkCore {
  core_label : string;
  core_tick : Z;
  core_track : Z;
  core_ids : list string;
  core_logs : list LogEntry.t;
  core_truck : TruckState.t
}.

Definition frameCore (fr : ReplayFrame.t) : Core :=
  mkCore (ReplayFrame.label fr)
    (GameState.tick (ReplayFrame.state fr))
    (GameState.track_length (ReplayFrame.state fr))
    (playerIds (ReplayFrame.state fr))
    (GameState.logs (ReplayFrame.state fr))
    (GameState.truck (ReplayFrame.state fr)).

Definition cores (st : Recon) : list Core := map frameCore (frames st).

(** A step that emits no frame, no action and no discussion: the cores of
    the frames stay, the tick does not go back, the registry only gains
    players at its end, and the registry and the frames stay well formed. *)
Record Quiet (st st' : Recon) : Prop := mkQuiet {
  q_cores : cores st' = cores st;
  q_actions : actions st' = actions st;
  q_discussions : discussions st' = discussions st;
  q_tick : tick st <= tick st';
  q_ids : prefixOf (idsOf st) (idsOf st');
  q_reg : RegOK st -> RegOK st';
  q_frames : FramesOK st -> FramesOK st'
}.

(** [st'] is [pre] with one more frame, the clone of [pre] under [label]. *)
Definition Pushed (pre : Recon) (label : string) (st' : Recon) : Prop :=
  frames st' =
    frames pre ++
      [ReplayFrame.mk
         (cloneState (tick pre) (trackLength pre) (players pre) (truck pre) (logs pre)) label] /\
  players st' = players pre /\ tick st' = tick pre /\
  logs st' = logs pre /\ truck st' = truck pre.

(** The labels of the frames that come with neither an action nor a
    discussion. *)
Definition isPlainLabel (label : string) : bool :=
  existsb (String.eqb label)
    ["game_started"; "discussion_response"; "agent_response"; "commentator_response";
     "player_hit"; "truck_moved"; "commentator_broadcast"; "public_broadcast";
     "turn_finished"; "turn_started"].

Definition isFrameLabel (label : string) : bool :=
  String.eqb label "player_moved" || isPlainLabel label.

(** The effect of one handler. *)
Inductive Handled (st st' : Recon) : Prop :=
| HandledQuiet : Quiet st st' -> Handled st st'
| HandledFrame (pre : Recon) (label : string) :
    Quiet st pre -> Pushed pre label st' -> isPlainLabel label = true ->
    actions st' = actions pre -> discussions st' = discussions pre -> Handled st st'
| HandledDiscussion (pre : Recon) (d : ReplayDiscussion.t) :
    Quiet st pre -> Pushed pre "discussion_response" st' ->
    actions st' = actions pre -> discussions st' = discussions pre ++ [d] ->
    ReplayDiscussion.frameIndex d = Z.of_nat (List.length (frames pre)) ->
    ReplayDiscussion.tick d = tick pre ->
    In (ReplayDiscussion.agent_id d) (idsOf pre) ->
    Handled st st'
| HandledMove (pre : Recon) (a : ReplayAction.t) :
    Quiet st pre -> Pushed pre "player_moved" st' ->
    actions st' = actions pre ++ [a] -> discussions st' = discussions pre ->
    ReplayAction.frameIndex a = Z.of_nat (List.length (frames pre)) ->
    ReplayAction.tick a = tick pre ->
    1 <= ReplayAction.steps a ->
    In (ReplayAction.agent_id a) (idsOf pre) ->
    Handled st st'.

(** The core of the frame that [pushFrame label] emits from [pre]. *)
Definition pushedCore (pre : Recon) (label : string) : Core :=
  mkCore label (tick pre) (trackLength pre) (idsOf pre) (logs pre) (truck pre).

(** [cores[i]] for a numeric index. *)
Definition coreAt (cs : list Core) (i : Z) : option Core :=
  if i <? 0 then None else nth_error cs (Z.to_nat i).

(** The indices of the cores that carry [label], in increasing order. *)
Fixpoint indicesOf (label : string) (i : Z) (cs : list Core) : list Z :=
  match cs with
  | [] => []
  | c :: tl =>
      if String.eqb (core_label c) label
      then i :: indicesOf label (i + 1) tl
      else indicesOf label (i + 1) tl
  end.

Definition coreLe (c c' : Core) : Prop :=
  core_tick c <= core_tick c' /\ prefixOf (core_ids c) (core_ids c').

Definition coreOK (c : Core) : Prop :=
  NoDup (core_ids c) /\ (List.length (core_logs c) <= 120)%nat /\
  truckOK (core_truck c) /\ isFrameLabel (core_label c) = true.

Definition actionOK (cs : list Core) (a : ReplayAction.t) : Prop :=
  exists c,
    coreAt cs (ReplayAction.frameIndex a) = Some c /\
    core_label c = "player_moved" /\
    core_tick c = ReplayAction.tick a /\
    In (ReplayAction.agent_id a) (core_ids c) /\
    1 <= ReplayAction.steps a.

Definition discussionOK (cs : list Core) (d : ReplayDiscussion.t) : Prop :=
  0 <= ReplayDiscussion.frameIndex d /\
  exists c,
    coreAt cs (ReplayDiscussion.frameIndex d) = Some c /\
    core_label c = "discussion_response" /\
    core_tick c = ReplayDiscussion.tick d /\
    In (ReplayDiscussion.agent_id d) (core_ids c).

(** The invariant of the loop over the messages, on the cores [cs] of the
    frames, the actions and the discussions. *)
Record TimelineOK (cs : list Core) (acts : list ReplayAction.t)
    (discs : list ReplayDiscussion.t) : Prop := mkTimelineOK {
  t_chain : StronglySorted coreLe cs;
  t_each : Forall coreOK cs;
  t_moves : map ReplayAction.frameIndex acts = indicesOf "player_moved" 0 cs;
  t_actions : Forall (actionOK cs) acts;
  t_discussions : Forall (discussionOK cs) discs;
  t_discussion_order : StronglySorted Z.lt (map ReplayDiscussion.frameIndex discs)
}.

Record LoopOK (st : Recon) : Prop := mkLoopOK {
  l_reg : RegOK st;
  l_frames : FramesOK st;
  l_timeline : TimelineOK (cores st) (actions st) (discussions st);
  l_top : Forall (fun c => core_tick c <= tick st /\ prefixOf (core_ids c) (idsOf st)) (cores st)
}.

Definition timelineCores (tl : ReplayTimeline.t) : list Core :=
  map frameCore (ReplayTimeline.frames tl).

(** The [agent_interaction] handler in three stages: the roster is brought
    up to date, the text of the agent is stored, the frame is pushed. *)
Definition agentRostered (payload : Rec) (st : Recon) : Recon :=
  let agentId := asString (prop payload "agent_id") EmptyString in
  let aiName := asString (prop payload "ai_name") EmptyString in
  let avatar :=
    asString (prop payload "avatar") (getOr (mapGet (avatarById st) agentId) EmptyString) in
  let st := if isEmpty agentId then st else ensurePlayer agentId aiName avatar st in
  fold_left
    (fun st pid =>
       ensurePlayer pid (getOr (mapGet (aiNameById st) pid) pid)
         (getOr (mapGet (avatarById st) pid) EmptyString) st)
    (map fst (compactPlayerPositions payload)) st.

Definition agentSpoken (JSON_parse : string -> option json) (name : string) (payload : Rec)
    (st : Recon) : Recon :=
  let agentId := asString (prop payload "agent_id") EmptyString in
  let aiName := asString (prop payload "ai_name") EmptyString in
  let st := agentRostered payload st in
  if isEmpty agentId then st
  else
    let text := parseAgentMessage JSON_parse (asString (prop payload "message") EmptyString) in
    let st :=
      match mapGet (players st) agentId with
      | Some _ =>
          let st := updatePlayer agentId (MutablePlayer.set_message text) st in
          if negb (String.eqb name "commentator_response") then
            pushLog
              (if isCommentatorIdentity agentId (orElse aiName agentId)
               then "commentary" else "player_speak")
              [("player_id", JStr agentId); ("text", JStr text);
               ("source", JStr "agent_interaction")] st
          else st
      | None => st
      end in
    let st :=
      if String.eqb name "discussion_response" && negb (isEmpty text) then
        set_discussionByTurnAgent
          (mapSet (discussionByTurnAgent st) (turnAgentKey (tick st) agentId) text) st
      else st in
    let st :=
      if String.eqb name "agent_response" && negb (isEmpty text) then
        set_actionByTurnAgent
          (mapSet (actionByTurnAgent st) (turnAgentKey (tick st) agentId) text) st
      else st in
    set_lastIntentByAgent
      (mapSet (lastIntentByAgent st) agentId
         (Intent.mk text (asNumber (prop payload "steps") 0)
            (parseMoveDirection (prop payload "direction")) (tick st)
            (orElse aiName agentId))) st.

Definition discussionOf (JSON_parse : string -> option json) (payload : Rec) (st : Recon)
    : ReplayDiscussion.t :=
  let agentId := asString (prop payload "agent_id") EmptyString in
  let aiName := asString (prop payload "ai_name") EmptyString in
  ReplayDiscussion.mk (tick st) agentId (orElse aiName agentId)
    (parseAgentMessage JSON_parse (asString (prop payload "message") EmptyString))
    (if String.eqb (asString (prop payload "delivery") EmptyString) "private"
     then private else public)
    (nonEmptyStrings (asArray (prop payload "targets")))
    (Z.of_nat (List.length (frames st)) - 1).

(** A frame with the positions of its players blanked: what the repair
    pass cannot touch. *)
Definition blankPosition (p : PlayerState.t) : PlayerState.t :=
  PlayerState.mk (PlayerState.player_id p) (PlayerState.name p) (PlayerState.avatar p) 0
    (PlayerState.facing p) (PlayerState.vote_reverse p) (PlayerState.hp p)
    (PlayerState.inventory p) (PlayerState.message p).

Definition withoutPositions (fr : ReplayFrame.t) : ReplayFrame.t :=
  ReplayFrame.mk
    (GameState.mk
       (GameState.tick (ReplayFrame.state fr))
       (GameState.track_length (ReplayFrame.state fr))
       (map blankPosition (GameState.players (ReplayFrame.state fr)))
       (GameState.truck (ReplayFrame.state fr))
       (GameState.items (ReplayFrame.state fr))
       (GameState.logs (ReplayFrame.state fr)))
    (ReplayFrame.label fr).

Definition frameIds (fr : ReplayFrame.t) : list string := playerIds (ReplayFrame.state fr).

Definition frameTick (fr : ReplayFrame.t) : Z := GameState.tick (ReplayFrame.state fr).

(** The indices of the frames labeled [label], in increasing order. *)
Definition framesLabeled (label : string) (frames : list ReplayFrame.t) : list Z :=
  indicesOf label 0 (map frameCore frames).

(** The timeline that the function returns from the state that the loop
    over the messages ends with. *)
Definition timelineOf (st : Recon) : ReplayTimeline.t :=
  ReplayTimeline.mk (repairFrames (actions st) (frames st)) (actions st) (discussions st).

(** The ids that [agent_metadata] declares: the non-empty [agent_id]s. *)
Definition declaredAgents (input : json) : list string :=
  filter (fun agentId => negb (isEmpty agentId))
    (map (fun item => asString (prop (asRecord (Some item)) "agent_id") EmptyString)
       (asArray (prop (asRecord (Some input)) "agent_metadata"))).

(** The position that the repair pass expects of the agent of [a] from the
    position [from] of the frame before. *)
Definition expectedPosition (a : ReplayAction.t) (from track : Z) : Z :=
  wrapTrack
    (from + (match ReplayAction.direction a with backward => -1 | forward => 1 end) *
            Z.max 1 (ReplayAction.steps a))
    track.

(** ** The helpers of the display ([App.tsx]) *)

(** [App.tsx] has its own [wrapTrack], with the body of the one of the
    adapter, and [wrapCell], with the same body again. *)
Definition wrapCell (cell trackLength : Z) : Z :=
  let track := Z.max 1 trackLength in
  Z.rem (Z.rem cell track + track) track.

(** [visibleCellsBidirectional], on integers, where [Math.floor] and
    [Math.round] change nothing: the loop pushes one cell on each side for
    [i] from 1 to [count]. *)
Definition visibleCellsBidirectional (position visionRange trackLength : Z)
    : list Z * list Z :=
  let track := Z.max 1 trackLength in
  let count := Z.max 1 visionRange in
  let base := wrapTrack position track in
  let steps := integersFrom (Z.to_nat count) 1 in
  (map (fun i => wrapCell (base + i) track) steps,
   map (fun i => wrapCell (base - i) track) steps).

Definition canSeeTruckBidirectional (position truckPosition visionRange trackLength : Z)
    : bool :=
  let track := Z.max 1 trackLength in
  let wrappedPos := wrapTrack position track in
  let wrappedTruck := wrapTrack truckPosition track in
  let cwDist := Z.rem (wrappedTruck - wrappedPos + track) track in
  let ccwDist := Z.rem (wrappedPos - wrappedTruck + track) track in
  Z.min cwDist ccwDist <=? Z.max 1 visionRange.

(** [sanitizeDisplayMessage]; [None] is [null] or [undefined]. *)
Definition sanitizeDisplayMessage (input : option string) : string :=
  let text := trim (match input with Some s => s | None => EmptyString end) in
  if isEmpty text then EmptyString
  else
    let text := stripToolFences (String.length text) text in
    let text := stripFences (String.length text) text in
    let text := stripOpenToolFence text in
    let text := stripTrailingToolObject text in
    let text := stripBacktickRuns (String.length text) text in
    trim text.

(** An export with a discussion, an answer, two moves, a hit and a truck
    move. *)
Definition richExport : json :=
  JObj [("agent_metadata", JArr [
          JObj [("agent_id", JStr "a"); ("ai_name", JStr "Al")];
          JObj [("agent_id", JStr "b"); ("ai_name", JStr "Bo")]]);
        ("core_messages", JArr [
    event "game_started" 0
      [("alive_agents", JArr [JStr "a"; JStr "b"]);
       ("alive_ai_names", JArr [JStr "Al"; JStr "Bo"]); hint 20];
    JObj [("turn", JNum 1); ("event", JStr "discussion_response");
          ("message_type", JStr "agent_interaction");
          ("payload", JObj [("agent_id", JStr "a"); ("ai_name", JStr "Al");
                            ("message", JStr "left or right?");
                            ("targets", JArr [JStr "b"])])];
    JObj [("turn", JNum 1); ("event", JStr "agent_response");
          ("message_type", JStr "agent_interaction");
          ("payload", JObj [("agent_id", JStr "a"); ("ai_name", JStr "Al");
                            ("message", JStr "three ahead");
                            ("steps", JNum 3); ("direction", JStr "forward")])];
    event "player_moved" 1
      [("agent_id", JStr "a"); ("steps", JNum 3); ("position", JNum 8); ("lives", JNum 5)];
    event "truck_moved" 1
      [("truck_position", JNum 4); ("truck_direction", JNum (-1)); ("truck_rage", JNum 2)];
    event "player_hit" 1 [("agent_id", JStr "b"); ("lives", JNum 4)];
    JObj [("turn", JNum 2); ("event", JStr "discussion_response");
          ("message_type", JStr "agent_interaction");
          ("payload", JObj [("agent_id", JStr "c"); ("message", JStr "hello");
                            ("delivery", JStr "private")])];
    event "player_moved" 2
      [("agent_id", JStr "b"); ("steps", JNum 2); ("direction", JStr "backward")];
    event "turn_finished" 2 []])].

Definition richTimeline : ReplayTimeline.t :=
  Eval vm_compute in
    match parseLegacyExport rejectingParser richExport with
    | Some tl => tl
    | None => ReplayTimeline.empty
    end.

(** The first action of [richTimeline]. *)
Definition richMove : ReplayAction.t :=
  ReplayAction.mk 1 "a" "a" 3 forward "three ahead" "left or right?" "three ahead" 3.

(** * Properties *)

(** ** The embedding on sample inputs *)

Example wrapTrack_negative : wrapTrack (-3) 20 = 17.
Proof. reflexivity. Qed.

Example circularDistance_across_zero : circularDistance 19 2 20 = 3.
Proof. reflexivity. Qed.

Example sanitize_trims : sanitize "  go left  " = "go left".
Proof. reflexivity. Qed.

Example sanitize_tool_fence :
  sanitize ("I move. ```json {" ++ TOOL_CALLS ++ ": [1]} ``` bye") = "I move.  bye".
Proof. reflexivity. Qed.

Example sanitize_trailing_object :
  sanitize ("I move. {" ++ TOOL_CALLS ++ " : [1]}  ") = "I move.".
Proof. reflexivity. Qed.

Example sanitize_open_fence :
  sanitize ("I move. ```JSON {" ++ TOOL_CALLS ++ ": [1]} ") = "I move.".
Proof. reflexivity. Qed.

Example sanitize_stray_backticks : sanitize "a ```` b" = "a  b".
Proof. reflexivity. Qed.

Example speaker_tag_prefixed :
  execSpeakerTag COMMENTATOR_TAG true "[R3][COMMENTATOR][Bob]   what a move" =
  Some ("Bob", "what a move").
Proof. reflexivity. Qed.

Example speaker_tag_second_try :
  execSpeakerTag DISCUSS_TAG false "x [DISCUSS][] a [DISCUSS][Al]b" = Some ("Al", "b").
Proof. reflexivity. Qed.

Example sample_timeline_shape :
  map frameShape (ReplayTimeline.frames sampleTimeline) =
  [("game_started", 48); ("player_moved", 48); ("player_hit", 48);
   ("player_moved", 48); ("turn_finished", 48)] /\
  hpTable sampleTimeline =
  [[5; 5; 5]; [5; 5; 5]; [5; 5; 4]; [5; 5; 4]; [5; 5; 4]].
Proof. split; reflexivity. Qed.


(** ** Direction inference *)

Lemma wrapTrack_modulo :
  forall position trackLength,
    1 <= trackLength -> wrapTrack position trackLength = position mod trackLength.
Proof.
  intros position trackLength Htrack. unfold wrapTrack. cbv zeta.
  rewrite Z.max_r by exact Htrack.
  pose proof (Z.rem_bound_abs position trackLength ltac:(lia)) as Hbound.
  rewrite Z.rem_mod_nonneg by lia.
  rewrite (Z.quot_rem' position trackLength) at 2.
  replace (Z.rem position trackLength + trackLength)
    with (Z.rem position trackLength + 1 * trackLength) by lia.
  rewrite Z_mod_plus_full.
  rewrite Z.add_comm, Z.mul_comm, Z_mod_plus_full. reflexivity.
Qed.




(** ** Speech timing *)

Lemma integersFrom_In :
  forall (n : nat) (from z : Z),
    from <= z < from + Z.of_nat n -> In z (integersFrom n from).
Proof.
  induction n as [| n IH]; intros from z Hz; [lia |].
  cbn [integersFrom]. destruct (Z.eq_dec from z) as [-> | Hne]; [left; reflexivity |].
  right. apply IH. lia.
Qed.

(** In binary64 too the two pacing constants cancel: for every clamp value
    from 2200 to 9000 the product is the clamp value itself, although 0.8 is
    not a binary64 number. *)
Lemma speechScaleBinary64_exact :
  forallb
    (fun clamped =>
       PrimFloat.eqb (Playback.speechScaleBinary64 clamped)
         (PrimFloat.of_uint63 (Uint63.of_Z clamped)))
    (integersFrom (Z.to_nat 6801) 2200) = true.
Proof. vm_compute. reflexivity. Qed.

(** C8. The duration of a normal utterance before speed scaling is the clamp
    of [1400 + 36 * length] to [2200, 9000]: the pacing constants 1.25 and
    0.8 multiply to one, and the default multiplier is one.  The product of
    the clamp value with the two constants is the clamp value in binary64
    arithmetic as well. *)
Theorem speechDurationMs_is_clamp :
  forall message : string,
    let clamped := Z.min 9000 (Z.max 2200 (1400 + 36 * Z.of_nat (String.length message))) in
    Playback.DIALOGUE_TIME_SCALE * Playback.SPEECH_TIME_COMPENSATION == 1 /\
    Playback.speechDurationMs message 1 == inject_Z clamped /\
    PrimFloat.eqb (Playback.speechScaleBinary64 clamped)
      (PrimFloat.of_uint63 (Uint63.of_Z clamped)) = true.
Proof.
  intros message clamped. split; [reflexivity |]. split.
  - unfold Playback.speechDurationMs.
    replace (Z.max 2200 (Z.min 9000 (1400 + Z.of_nat (String.length message) * 36)))
      with clamped by (subst clamped; lia).
    generalize clamped. intros z.
    unfold Playback.DIALOGUE_TIME_SCALE, Playback.SPEECH_TIME_COMPENSATION.
    unfold Qeq, Qmult, inject_Z. cbn. lia.
  - pose proof speechScaleBinary64_exact as Hall.
    rewrite forallb_forall in Hall. apply (Hall clamped).
    apply integersFrom_In. subst clamped. lia.
Qed.

(** ** Exports without events *)

(** C9. An export whose [core_messages] is missing, is not a list or is the
    empty list makes [parseLegacyExport] return the empty timeline; it does
    not throw. *)
Theorem parseLegacyExport_no_events :
  forall (JSON_parse : string -> option json) (input : json),
    noEventList input ->
    parseLegacyExport JSON_parse input = Some ReplayTimeline.empty /\
    ReplayTimeline.empty = ReplayTimeline.mk [] [] [].
Proof.
  intros JSON_parse input H. split; [| reflexivity].
  unfold parseLegacyExport, noEventList in *.
  destruct (prop (asRecord (Some input)) "core_messages") as [v |]; [| reflexivity].
  destruct v as [| b | z | s | items | props]; try reflexivity.
  destruct items; [reflexivity | contradiction].
Qed.

Lemma parseLegacyExport_no_events_witness :
  noEventList (JObj [("agent_metadata", JArr [])]) /\
  noEventList (JObj [("core_messages", JStr "none")]) /\
  parseLegacyExport rejectingParser (JObj [("core_messages", JArr [])]) =
    Some ReplayTimeline.empty.
Proof.
  split; [exact I |]. split; [exact I |].
  apply (proj1 (parseLegacyExport_no_events rejectingParser
                  (JObj [("core_messages", JArr [])]) I)).
Defined.

(** ** The move phase of the pipeline *)

(** C5, as the specification has it, fails: with one known frame and an action
    whose [frameIndex] is 5, the pipeline does not skip; it interpolates
    toward frame 0, the last known frame. *)
Lemma enterMove_past_end_interpolates :
  Z.of_nat (List.length [sampleFrame "player_moved" []]) <= ReplayAction.frameIndex (sampleAction 5) /\
  Playback.enterMove [sampleFrame "player_moved" []] (sampleAction 5) sampleState sampleView =
    Playback.MoveInterpolates 0 sampleState (ReplayFrame.state (sampleFrame "player_moved" [])) /\
  Playback.enterMove [sampleFrame "player_moved" []] (sampleAction 5) sampleState sampleView <>
    Playback.MoveSkipped (Playback.mkView 1 Playback.idle None).
Proof.
  split; [cbn; lia |]. split; [reflexivity | discriminate].
Qed.

(** C5, amended. When the [frameIndex] of the action is past the end of the
    frame list, the target index is clamped to the last frame: the pipeline
    interpolates toward the last known frame; only when there is no frame at
    all does it skip the interpolation, advance the action index by one and
    return to idle with no active action. *)
Theorem enterMove_past_end :
  forall (replayFrames : list ReplayFrame.t) (action : ReplayAction.t)
         (live : GameState.t) (view : Playback.View),
    Z.of_nat (List.length replayFrames) <= ReplayAction.frameIndex action ->
    Playback.enterMove replayFrames action live view =
    match rev replayFrames with
    | [] =>
        Playback.MoveSkipped
          (Playback.mkView (Playback.actionIndex view + 1) Playback.idle None)
    | lastFrame :: _ =>
        Playback.MoveInterpolates (Z.of_nat (List.length replayFrames) - 1) live
          (ReplayFrame.state lastFrame)
    end.
Proof.
  intros replayFrames action live view Hpast.
  unfold Playback.enterMove. cbv zeta.
  rewrite Z.min_r by lia.
  clear Hpast.
  induction replayFrames as [| lastFrame front _] using rev_ind.
  - reflexivity.
  - rewrite rev_app_distr. cbn [rev app].
    unfold frameAt. rewrite length_app. cbn [List.length].
    destruct (Z.ltb_spec (Z.of_nat (List.length front + 1) - 1) 0) as [Hneg | _]; [lia |].
    replace (Z.to_nat (Z.of_nat (List.length front + 1) - 1))
      with (List.length front) by lia.
    rewrite nth_error_app2 by lia. rewrite Nat.sub_diag. reflexivity.
Qed.

Lemma enterMove_past_end_witness :
  Playback.enterMove [sampleFrame "game_started" []; sampleFrame "player_moved" []]
    (sampleAction 7) sampleState sampleView =
  Playback.MoveInterpolates 1 sampleState (ReplayFrame.state (sampleFrame "player_moved" [])).
Proof.
  apply (enterMove_past_end [sampleFrame "game_started" []; sampleFrame "player_moved" []]
           (sampleAction 7) sampleState sampleView).
  cbn. lia.
Defined.

(** ** The placeholder upgrade *)

Lemma Forall2_map_self :
  forall (A : Type) (R : A -> A -> Prop) (f : A -> A) (l : list A),
    (forall x, R x (f x)) -> Forall2 R l (map f l).
Proof.
  intros A R f l H. induction l; cbn; constructor; auto.
Qed.

Lemma upgradeHp_placeholder :
  forall nextMaxHp p, placeholderUpgraded nextMaxHp p (upgradeHp nextMaxHp p).
Proof.
  intros nextMaxHp p. unfold placeholderUpgraded, upgradeHp.
  destruct (Z.eqb_spec (PlayerState.hp p) FALLBACK_HP); split; congruence.
Qed.

(** C4. When [backfillFallbackHp] observes a ceiling larger than [maxHpSeen],
    the ceiling becomes that value and, in every frame emitted so far, every
    player whose hp is the placeholder 3 gets the new ceiling as hp, while a
    player with any other hp is left as it was; labels, ticks, track lengths
    and the order of players do not change. *)
Theorem backfillFallbackHp_upgrades_placeholders :
  forall (nextMaxHp : Z) (st : Recon),
    maxHpSeen st < nextMaxHp ->
    maxHpSeen (backfillFallbackHp nextMaxHp st) = nextMaxHp /\
    Forall2 (framePlayersRelated (placeholderUpgraded nextMaxHp))
      (frames st) (frames (backfillFallbackHp nextMaxHp st)).
Proof.
  intros nextMaxHp st Hlt. unfold backfillFallbackHp.
  destruct (Z.ltb_spec (maxHpSeen st) nextMaxHp) as [_ | Hge]; [| lia].
  cbn. split; [reflexivity |].
  apply Forall2_map_self. intros fr.
  unfold framePlayersRelated. cbn. repeat split.
  apply Forall2_map_self. apply upgradeHp_placeholder.
Qed.

Lemma backfillFallbackHp_upgrades_placeholders_witness :
  map (fun fr => map PlayerState.hp (GameState.players (ReplayFrame.state fr)))
    (frames (backfillFallbackHp 5
       (sampleRecon [sampleFrame "game_started" [samplePlayer "a" 0 3; samplePlayer "b" 0 2]]))) =
  [[5; 2]] /\
  Forall2 (framePlayersRelated (placeholderUpgraded 5))
    [sampleFrame "game_started" [samplePlayer "a" 0 3; samplePlayer "b" 0 2]]
    (frames (backfillFallbackHp 5
       (sampleRecon [sampleFrame "game_started" [samplePlayer "a" 0 3; samplePlayer "b" 0 2]]))).
Proof.
  split; [reflexivity |].
  apply (backfillFallbackHp_upgrades_placeholders 5
           (sampleRecon [sampleFrame "game_started" [samplePlayer "a" 0 3; samplePlayer "b" 0 2]])).
  vm_compute. reflexivity.
Defined.

(** ** The trajectory repair pass *)

Lemma repairFrom_nth :
  forall actions rest i prev n curr,
    nth_error rest n = Some curr ->
    exists prevOut,
      nth_error (prev :: repairFrom actions i prev rest) n = Some prevOut /\
      nth_error (repairFrom actions i prev rest) n =
        Some (repairFrame actions (i + Z.of_nat n) prevOut curr).
Proof.
  intros actions rest. induction rest as [| c tl IH]; intros i prev n curr Hn.
  - destruct n; discriminate.
  - destruct n as [| n].
    + cbn in Hn. injection Hn as ->. exists prev. cbn. rewrite Z.add_0_r. auto.
    + cbn in Hn. cbn [repairFrom].
      destruct (IH (i + 1) (repairFrame actions i prev c) n curr Hn) as [prevOut [H1 H2]].
      exists prevOut. split.
      * exact H1.
      * cbn [nth_error]. rewrite H2.
        replace (i + Z.of_nat (S n)) with (i + 1 + Z.of_nat n) by lia. reflexivity.
Qed.

Lemma repairFrames_nth :
  forall actions frames n curr,
    nth_error frames (S n) = Some curr ->
    exists prevOut,
      nth_error (repairFrames actions frames) n = Some prevOut /\
      nth_error (repairFrames actions frames) (S n) =
        Some (repairFrame actions (Z.of_nat (S n)) prevOut curr).
Proof.
  intros actions frames n curr Hn. destruct frames as [| first rest]; [discriminate |].
  cbn in Hn. destruct (repairFrom_nth actions rest 1 first n curr Hn) as [prevOut [H1 H2]].
  exists prevOut. split; [exact H1 |].
  cbn [repairFrames nth_error]. rewrite H2.
  replace (Z.of_nat (S n)) with (1 + Z.of_nat n) by lia. reflexivity.
Qed.

Lemma circularDistance_same :
  forall position trackLength, circularDistance position position trackLength = 0.
Proof.
  intros position trackLength. unfold circularDistance. cbv zeta.
  rewrite Z.sub_diag. cbn [Z.abs]. lia.
Qed.

(** C3. Take two consecutive frames, the earlier one as the pass has left
    it, and a player of the later frame who is also in the earlier one and
    is not the agent of the action recorded for the later frame.  If the
    later frame is not labeled [player_hit] and the circular distance
    between the two positions is more than 2 cells, then in the repaired
    later frame that player stands on the cell of the earlier frame, which
    is another cell than the one of the later frame before the pass, and no
    other field of the player has changed. *)
Theorem repairFrames_reverts_jump :
  forall (actions : list ReplayAction.t) (frames : list ReplayFrame.t) (n k : nat)
         (prevOut curr : ReplayFrame.t) (player prevPlayer : PlayerState.t),
    nth_error (repairFrames actions frames) n = Some prevOut ->
    nth_error frames (S n) = Some curr ->
    nth_error (GameState.players (ReplayFrame.state curr)) k = Some player ->
    prevByIdGet (GameState.players (ReplayFrame.state prevOut)) (PlayerState.player_id player)
      = Some prevPlayer ->
    isActing (actionByFrameGet actions (Z.of_nat (S n))) player = false ->
    ReplayFrame.label curr <> "player_hit" ->
    2 < circularDistance (PlayerState.position prevPlayer) (PlayerState.position player)
          (GameState.track_length (ReplayFrame.state curr)) ->
    exists (currOut : ReplayFrame.t) (playerOut : PlayerState.t),
      nth_error (repairFrames actions frames) (S n) = Some currOut /\
      nth_error (GameState.players (ReplayFrame.state currOut)) k = Some playerOut /\
      PlayerState.position playerOut = PlayerState.position prevPlayer /\
      PlayerState.position playerOut <> PlayerState.position player /\
      placedAt (PlayerState.position prevPlayer) player playerOut.
Proof.
  intros actions frames n k prevOut curr player prevPlayer Hprev Hcurr Hk Hby Hact Hlabel Hjump.
  destruct (repairFrames_nth actions frames n curr Hcurr) as [prevOut' [H1 H2]].
  rewrite Hprev in H1. injection H1 as <-.
  exists (repairFrame actions (Z.of_nat (S n)) prevOut curr).
  exists (repairPlayer prevOut curr (actionByFrameGet actions (Z.of_nat (S n))) player).
  split; [exact H2 |].
  split.
  { unfold repairFrame, ReplayFrame.mapPlayers.
    cbn [ReplayFrame.state GameState.set_players GameState.players].
    rewrite nth_error_map, Hk. reflexivity. }
  assert (Hout : repairPlayer prevOut curr (actionByFrameGet actions (Z.of_nat (S n))) player =
                 PlayerState.set_position (PlayerState.position prevPlayer) player).
  { unfold repairPlayer. rewrite Hby.
    destruct (String.eqb_spec (ReplayFrame.label curr) "player_hit") as [He | _];
      [contradiction |].
    cbn [andb].
    destruct (Z.ltb_spec 2 (circularDistance (PlayerState.position prevPlayer)
                (PlayerState.position player) (GameState.track_length (ReplayFrame.state curr))))
      as [_ | Hle]; [| lia].
    destruct (actionByFrameGet actions (Z.of_nat (S n))) as [a |]; [| reflexivity].
    cbn [isActing] in Hact. rewrite Hact. reflexivity. }
  rewrite Hout.
  split; [reflexivity |].
  split.
  { cbn [PlayerState.set_position PlayerState.position]. intros Heq.
    rewrite Heq, circularDistance_same in Hjump. lia. }
  repeat split.
Qed.

Lemma repairFrames_reverts_jump_witness :
  exists (currOut : ReplayFrame.t) (playerOut : PlayerState.t),
    nth_error
      (repairFrames []
         [sampleFrame "game_started" [samplePlayer "a" 4 3];
          sampleFrame "turn_started" [samplePlayer "a" 20 3]]) 1 = Some currOut /\
    nth_error (GameState.players (ReplayFrame.state currOut)) 0 = Some playerOut /\
    PlayerState.position playerOut = PlayerState.position (samplePlayer "a" 4 3) /\
    PlayerState.position playerOut <> PlayerState.position (samplePlayer "a" 20 3) /\
    placedAt (PlayerState.position (samplePlayer "a" 4 3)) (samplePlayer "a" 20 3) playerOut.
Proof.
  apply (repairFrames_reverts_jump []
           [sampleFrame "game_started" [samplePlayer "a" 4 3];
            sampleFrame "turn_started" [samplePlayer "a" 20 3]]
           0 0 (sampleFrame "game_started" [samplePlayer "a" 4 3])
           (sampleFrame "turn_started" [samplePlayer "a" 20 3])
           (samplePlayer "a" 20 3) (samplePlayer "a" 4 3)).
  - reflexivity.
  - reflexivity.
  - reflexivity.
  - reflexivity.
  - reflexivity.
  - cbn. discriminate.
  - vm_compute. reflexivity.
Defined.

(** ** Message sanitization *)

Lemma includes_cons :
  forall sub c tl,
    includes sub (String c tl) = false ->
    startsWith sub (String c tl) = false /\ includes sub tl = false.
Proof.
  intros sub c tl H. cbn [includes] in H. apply orb_false_iff in H. exact H.
Qed.

Lemma includes_tail :
  forall sub c tl, includes sub tl = true -> includes sub (String c tl) = true.
Proof.
  intros sub c tl H. cbn [includes]. rewrite H. apply orb_true_r.
Qed.

Lemma includes_head :
  forall sub s, startsWith sub s = true -> includes sub s = true.
Proof.
  intros sub s H. destruct s; cbn [includes]; rewrite H; reflexivity.
Qed.

Lemma includes_trimStart :
  forall sub s, includes sub (trimStart s) = true -> includes sub s = true.
Proof.
  intros sub s. induction s as [| c tl IH]; intros H; [exact H |].
  cbn [trimStart] in H. destruct (isSpace c); [| exact H].
  apply includes_tail, IH, H.
Qed.

Lemma lowerChar_backtick :
  forall a, Ascii.eqb (lowerChar "`") (lowerChar a) = true -> Ascii.eqb "`" a = true.
Proof.
  intros a. destruct a as [[] [] [] [] [] [] [] []]; vm_compute; intros H; congruence.
Qed.

Lemma startsWithCI_fence :
  forall s, startsWithCI FENCE_JSON s = true -> startsWith FENCE s = true.
Proof.
  intros s H. unfold FENCE_JSON, FENCE in *.
  destruct s as [| a [| b [| c tl]]]; cbn [startsWithCI] in H; try discriminate;
    try (apply andb_true_iff in H; destruct H as [_ H]; try discriminate;
         apply andb_true_iff in H; destruct H as [_ H]; discriminate).
  apply andb_true_iff in H. destruct H as [Ha H].
  apply andb_true_iff in H. destruct H as [Hb H].
  apply andb_true_iff in H. destruct H as [Hc _].
  cbn [startsWith].
  rewrite (lowerChar_backtick a Ha), (lowerChar_backtick b Hb), (lowerChar_backtick c Hc).
  reflexivity.
Qed.

Lemma stripToolFences_no_fence :
  forall fuel s, includes FENCE s = false -> stripToolFences fuel s = s.
Proof.
  induction fuel as [| fuel IH]; intros s H; [reflexivity |].
  destruct s as [| c tl]; [reflexivity |].
  destruct (includes_cons _ _ _ H) as [Hhead Htail].
  cbn [stripToolFences].
  destruct (startsWithCI FENCE_JSON (String c tl)) eqn:Hci.
  - apply startsWithCI_fence in Hci. congruence.
  - rewrite (IH tl Htail). reflexivity.
Qed.

Lemma stripFences_no_fence :
  forall fuel s, includes FENCE s = false -> stripFences fuel s = s.
Proof.
  induction fuel as [| fuel IH]; intros s H; [reflexivity |].
  destruct s as [| c tl]; [reflexivity |].
  destruct (includes_cons _ _ _ H) as [Hhead Htail].
  cbn [stripFences]. rewrite Hhead, (IH tl Htail). reflexivity.
Qed.

Lemma stripBacktickRuns_no_fence :
  forall fuel s, includes FENCE s = false -> stripBacktickRuns fuel s = s.
Proof.
  induction fuel as [| fuel IH]; intros s H; [reflexivity |].
  destruct s as [| c tl]; [reflexivity |].
  destruct (includes_cons _ _ _ H) as [Hhead Htail].
  cbn [stripBacktickRuns]. rewrite Hhead, (IH tl Htail). reflexivity.
Qed.

Lemma stripOpenToolFence_no_fence :
  forall s, includes FENCE s = false -> stripOpenToolFence s = s.
Proof.
  induction s as [| c tl IH]; intros H.
  - reflexivity.
  - assert (Hopen : startsWithCI FENCE_JSON (trimStart (String c tl)) = false).
    { destruct (startsWithCI FENCE_JSON (trimStart (String c tl))) eqn:E; [| reflexivity].
      apply startsWithCI_fence, includes_head, includes_trimStart in E. congruence. }
    destruct (includes_cons _ _ _ H) as [_ Htail].
    unfold stripOpenToolFence; fold stripOpenToolFence.
    rewrite Hopen, (IH Htail). reflexivity.
Qed.

Lemma startsWith_app :
  forall p s y, startsWith p s = true -> startsWith p (s ++ y)%string = true.
Proof.
  induction p as [| a p IH]; intros s y H; [reflexivity |].
  destruct s as [| b s]; [discriminate |].
  cbn [startsWith append] in *. apply andb_true_iff in H. destruct H as [Hab H].
  rewrite Hab, (IH s y H). reflexivity.
Qed.

Lemma startsWithCI_app :
  forall p s y, startsWithCI p s = true -> startsWithCI p (s ++ y)%string = true.
Proof.
  induction p as [| a p IH]; intros s y H; [reflexivity |].
  destruct s as [| b s]; [discriminate |].
  cbn [startsWithCI append] in *. apply andb_true_iff in H. destruct H as [Hab H].
  rewrite Hab, (IH s y H). reflexivity.
Qed.

Lemma startsWith_colon_app :
  forall s y, startsWith ":" s = true -> startsWith ":" (s ++ y)%string = true.
Proof. intros s y H. apply startsWith_app, H. Qed.

Lemma trimStart_colon_app :
  forall s y,
    startsWith ":" (trimStart s) = true -> startsWith ":" (trimStart (s ++ y)%string) = true.
Proof.
  induction s as [| c tl IH]; intros y H; [discriminate |].
  cbn [trimStart append] in *. destruct (isSpace c).
  - apply IH, H.
  - apply (startsWith_app ":" (String c tl) y H).
Qed.

Lemma dropN_colon_app :
  forall n s y,
    startsWith ":" (trimStart (dropN n s)) = true ->
    startsWith ":" (trimStart (dropN n (s ++ y)%string)) = true.
Proof.
  induction n as [| n IH]; intros s y H.
  - destruct s; cbn [dropN] in *; [discriminate |]. apply trimStart_colon_app, H.
  - destruct s as [| c tl]; [discriminate |]. cbn [dropN append] in *. apply IH, H.
Qed.

Lemma toolCallsKeyAt_app :
  forall ci s y, toolCallsKeyAt ci s = true -> toolCallsKeyAt ci (s ++ y)%string = true.
Proof.
  intros ci s y H. unfold toolCallsKeyAt in *.
  apply andb_true_iff in H. destruct H as [Hkey Hcolon].
  apply andb_true_iff. split.
  - destruct ci; [apply startsWithCI_app | apply startsWith_app]; exact Hkey.
  - apply dropN_colon_app, Hcolon.
Qed.

Lemma hasToolCallsKey_app :
  forall ci s y, hasToolCallsKey ci s = true -> hasToolCallsKey ci (s ++ y)%string = true.
Proof.
  intros ci s. induction s as [| c tl IH]; intros y H.
  - destruct ci; vm_compute in H; discriminate.
  - cbn [hasToolCallsKey] in H. apply orb_true_iff in H.
    change (String c tl ++ y)%string with (String c (tl ++ y)%string).
    cbn [hasToolCallsKey]. apply orb_true_iff. destruct H as [H | H].
    + left. apply (toolCallsKeyAt_app ci (String c tl) y H).
    + right. apply IH, H.
Qed.

Lemma hasToolCallsKey_tail :
  forall ci c tl, hasToolCallsKey ci tl = true -> hasToolCallsKey ci (String c tl) = true.
Proof.
  intros ci c tl H. cbn [hasToolCallsKey]. rewrite H. apply orb_true_r.
Qed.

Lemma hasToolCallsKey_trimStart :
  forall ci s, hasToolCallsKey ci (trimStart s) = true -> hasToolCallsKey ci s = true.
Proof.
  intros ci s. induction s as [| c tl IH]; intros H; [exact H |].
  cbn [trimStart] in H. destruct (isSpace c); [| exact H].
  apply hasToolCallsKey_tail, IH, H.
Qed.

Lemma removeLast_prefix :
  forall s, exists y, s = (removeLast s ++ y)%string.
Proof.
  induction s as [| c tl [y IH]].
  - exists EmptyString. reflexivity.
  - destruct tl as [| d tl'].
    + exists (String c EmptyString). reflexivity.
    + exists y. change (removeLast (String c (String d tl')))
        with (String c (removeLast (String d tl'))).
      cbn [append]. rewrite <- IH. reflexivity.
Qed.

Lemma trimEnd_prefix :
  forall s, exists y, s = (trimEnd s ++ y)%string.
Proof.
  induction s as [| c tl [y IH]].
  - exists EmptyString. reflexivity.
  - cbn [trimEnd]. destruct (trimEnd tl) as [| d r] eqn:E.
    + destruct (isSpace c).
      * exists (String c tl). reflexivity.
      * exists tl. reflexivity.
    + exists y. cbn [append]. cbn [append] in IH. rewrite <- IH. reflexivity.
Qed.

Lemma trailingToolObjectAt_has_key :
  forall s, trailingToolObjectAt s = true -> hasToolCallsKey true s = true.
Proof.
  intros s H. unfold trailingToolObjectAt in H.
  destruct (trimStart s) as [| c rest] eqn:E; [discriminate |].
  apply andb_true_iff in H. destruct H as [_ H].
  apply andb_true_iff in H. destruct H as [_ H].
  apply hasToolCallsKey_trimStart. rewrite E. apply hasToolCallsKey_tail.
  destruct (trimEnd_prefix rest) as [y Hy]. rewrite Hy.
  apply hasToolCallsKey_app.
  destruct (removeLast_prefix (trimEnd rest)) as [z Hz]. rewrite Hz.
  apply hasToolCallsKey_app, H.
Qed.

Lemma stripTrailingToolObject_no_key :
  forall s, hasToolCallsKey true s = false -> stripTrailingToolObject s = s.
Proof.
  induction s as [| c tl IH]; intros H.
  - reflexivity.
  - assert (Hat : trailingToolObjectAt (String c tl) = false).
    { destruct (trailingToolObjectAt (String c tl)) eqn:E; [| reflexivity].
      apply trailingToolObjectAt_has_key in E. congruence. }
    assert (Htail : hasToolCallsKey true tl = false).
    { cbn [hasToolCallsKey] in H. apply orb_false_iff in H. apply H. }
    unfold stripTrailingToolObject; fold stripTrailingToolObject.
    rewrite Hat, (IH Htail). reflexivity.
Qed.

(** Text without a triple backtick and without a [tool_calls] key passes
    through [sanitize] with its ends trimmed and nothing else changed. *)
Lemma sanitize_plain_text :
  forall text,
    includes FENCE text = false ->
    hasToolCallsKey true text = false ->
    sanitize text = trim text.
Proof.
  intros text Hfence Hkey. unfold sanitize.
  rewrite (stripToolFences_no_fence _ _ Hfence).
  rewrite (stripFences_no_fence _ _ Hfence).
  rewrite (stripOpenToolFence_no_fence _ Hfence).
  rewrite (stripTrailingToolObject_no_key _ Hkey).
  rewrite (stripBacktickRuns_no_fence _ _ Hfence).
  reflexivity.
Qed.

Lemma digit_first :
  forall fuel n acc,
    (exists d tl, (d < 10)%nat /\ acc = String (digitChar d) tl) \/ fuel <> O ->
    exists d tl, (d < 10)%nat /\ natToStringFuel fuel n acc = String (digitChar d) tl.
Proof.
  induction fuel as [| fuel IH]; intros n acc H.
  - destruct H as [H | H]; [exact H | congruence].
  - cbn [natToStringFuel].
    assert (Hacc : exists d tl, (d < 10)%nat /\
              String (digitChar (n mod 10)) acc = String (digitChar d) tl).
    { exists (n mod 10)%nat, acc. split; [| reflexivity].
      apply Nat.mod_upper_bound. discriminate. }
    destruct (n / 10)%nat as [| q]; [exact Hacc |].
    apply IH. left. exact Hacc.
Qed.

Lemma indexKey_not_message :
  forall n, String.eqb (natToString n) "message" = false.
Proof.
  intros n. unfold natToString.
  destruct (digit_first (S n) n EmptyString) as [d [tl [Hd ->]]]; [right; discriminate |].
  do 10 (destruct d as [| d]; [reflexivity |]). lia.
Qed.

Lemma arrayRecord_no_message :
  forall (items : list json) (i : nat),
    prop (map (fun p => (natToString (fst p), snd p)) (indexed i items)) "message" = None.
Proof.
  induction items as [| x tl IH]; intros i; [reflexivity |].
  cbn [indexed map prop fst snd]. rewrite indexKey_not_message. apply IH.
Qed.

Lemma parseAgentMessage_text :
  forall JSON_parse raw,
    parseAgentMessage JSON_parse raw = sanitize (messageOf (JSON_parse raw) raw).
Proof.
  intros JSON_parse raw. unfold parseAgentMessage, messageOf.
  destruct (JSON_parse raw) as [[| b | z | s | items | props] |]; try reflexivity.
  cbn [asRecord]. rewrite arrayRecord_no_message. reflexivity.
Qed.

(** C7, as the specification has it, fails: a note with an ordinary
    code-fenced block and no tool call loses the block. *)
Lemma sanitize_drops_ordinary_fence :
  hasToolCallsKey true fencedNote = false /\
  includes "tool_calls" fencedNote = false /\
  sanitize fencedNote = "see  here" /\
  sanitize fencedNote <> trim fencedNote.
Proof.
  repeat split; try reflexivity. vm_compute. discriminate.
Qed.

(** C7, amended. [parseAgentMessage] sanitizes the string member [message] of
    the raw text when that is the JSON document of an object with one, and
    the raw text otherwise.  When the sanitized text holds neither a triple
    backtick nor a [tool_calls] key followed by a colon, the result is that
    text with its ends trimmed.  Code-fenced blocks are removed whether or
    not they are tool calls. *)
Theorem parseAgentMessage_plain_text :
  forall (JSON_parse : string -> option json) (raw : string),
    includes FENCE (messageOf (JSON_parse raw) raw) = false ->
    hasToolCallsKey true (messageOf (JSON_parse raw) raw) = false ->
    parseAgentMessage JSON_parse raw = trim (messageOf (JSON_parse raw) raw).
Proof.
  intros JSON_parse raw Hfence Hkey.
  rewrite parseAgentMessage_text. apply sanitize_plain_text; assumption.
Qed.

Lemma parseAgentMessage_plain_text_witness :
  parseAgentMessage rejectingParser "  I will go left, 3 steps.  " = "I will go left, 3 steps.".
Proof.
  apply (parseAgentMessage_plain_text rejectingParser "  I will go left, 3 steps.  ");
    reflexivity.
Defined.

(** ** The fuel of the scanning functions

    The three scans that continue after a removed block take the length of
    the text as fuel; any larger fuel gives the same result, so they never
    stop short of the end of the text. *)

Lemma dropN_length : forall n s, (String.length (dropN n s) <= String.length s)%nat.
Proof.
  induction n as [| n IH]; intros s; destruct s as [| c tl]; cbn [dropN String.length];
    try lia.
  specialize (IH tl). lia.
Qed.

Lemma startsWith_fence_length :
  forall s, startsWith FENCE s = true ->
            (String.length (dropN 3 s) + 3 <= String.length s)%nat.
Proof.
  intros s H. unfold FENCE in H.
  destruct s as [| a [| b [| c tl]]]; cbn [startsWith] in H;
    rewrite ?andb_false_r in H; try discriminate.
  cbn [dropN String.length]. lia.
Qed.

Lemma splitAtFence_length :
  forall s before after,
    splitAtFence s = Some (before, after) ->
    (String.length after + 3 <= String.length s)%nat.
Proof.
  induction s as [| c tl IH]; intros before after H.
  - cbn in H. discriminate.
  - unfold splitAtFence in H; fold splitAtFence in H.
    destruct (startsWith FENCE (String c tl)) eqn:E.
    + injection H as _ <-. exact (startsWith_fence_length (String c tl) E).
    + destruct (splitAtFence tl) as [[b a] |]; [| discriminate].
      injection H as _ <-. specialize (IH b a eq_refl). cbn [String.length]. lia.
Qed.

Lemma dropBackticks_length :
  forall s, (String.length (dropBackticks s) <= String.length s)%nat.
Proof.
  induction s as [| c tl IH]; cbn [dropBackticks String.length]; [lia |].
  destruct (Ascii.eqb c "`"); cbn [String.length]; lia.
Qed.

Lemma dropBackticks_fence_length :
  forall s, startsWith FENCE s = true ->
            (String.length (dropBackticks s) < String.length s)%nat.
Proof.
  intros s H. destruct s as [| c tl]; [discriminate |].
  unfold FENCE in H. cbn [startsWith] in H. apply andb_true_iff in H. destruct H as [Hc _].
  cbn [dropBackticks]. rewrite Ascii.eqb_sym in Hc. rewrite Hc.
  pose proof (dropBackticks_length tl). cbn [String.length]. lia.
Qed.

Lemma stripFences_fuel :
  forall fuel1 fuel2 s,
    (String.length s <= fuel1)%nat -> (String.length s <= fuel2)%nat ->
    stripFences fuel1 s = stripFences fuel2 s.
Proof.
  induction fuel1 as [| fuel1 IH]; intros fuel2 s H1 H2.
  - destruct s; [| cbn in H1; lia]. destruct fuel2; reflexivity.
  - destruct fuel2 as [| fuel2]; [destruct s; [reflexivity | cbn in H2; lia] |].
    destruct s as [| c tl]; [reflexivity |].
    cbn [stripFences]. cbn [String.length] in H1, H2.
    destruct (startsWith FENCE (String c tl)) eqn:E.
    + pose proof (dropN_length 3 (String c tl)) as Hd. cbn [String.length] in Hd.
      destruct (splitAtFence (dropN 3 (String c tl))) as [[b after] |] eqn:Es.
      * apply splitAtFence_length in Es. apply IH; lia.
      * f_equal. apply IH; lia.
    + f_equal. apply IH; lia.
Qed.

Lemma stripToolFences_fuel :
  forall fuel1 fuel2 s,
    (String.length s <= fuel1)%nat -> (String.length s <= fuel2)%nat ->
    stripToolFences fuel1 s = stripToolFences fuel2 s.
Proof.
  induction fuel1 as [| fuel1 IH]; intros fuel2 s H1 H2.
  - destruct s; [| cbn in H1; lia]. destruct fuel2; reflexivity.
  - destruct fuel2 as [| fuel2]; [destruct s; [reflexivity | cbn in H2; lia] |].
    destruct s as [| c tl]; [reflexivity |].
    cbn [stripToolFences]. cbn [String.length] in H1, H2.
    destruct (startsWithCI FENCE_JSON (String c tl)) eqn:E.
    + pose proof (dropN_length 7 (String c tl)) as Hd. cbn [String.length] in Hd.
      destruct (splitAtFence (dropN 7 (String c tl))) as [[b after] |] eqn:Es.
      * apply splitAtFence_length in Es. f_equal. apply IH; lia.
      * f_equal. apply IH; lia.
    + f_equal. apply IH; lia.
Qed.

Lemma stripBacktickRuns_fuel :
  forall fuel1 fuel2 s,
    (String.length s <= fuel1)%nat -> (String.length s <= fuel2)%nat ->
    stripBacktickRuns fuel1 s = stripBacktickRuns fuel2 s.
Proof.
  induction fuel1 as [| fuel1 IH]; intros fuel2 s H1 H2.
  - destruct s; [| cbn in H1; lia]. destruct fuel2; reflexivity.
  - destruct fuel2 as [| fuel2]; [destruct s; [reflexivity | cbn in H2; lia] |].
    destruct s as [| c tl]; [reflexivity |].
    cbn [stripBacktickRuns].
    destruct (startsWith FENCE (String c tl)) eqn:E.
    + apply dropBackticks_fence_length in E. apply IH; lia.
    + cbn [String.length] in H1, H2. f_equal. apply IH; lia.
Qed.

(** ** How the handlers touch the frames and the actions *)

Lemma same_refl : forall st, same st st.
Proof. intros st. repeat split. Qed.

Lemma same_trans : forall st1 st2 st3, same st1 st2 -> same st2 st3 -> same st1 st3.
Proof.
  intros st1 st2 st3 [H1 [H2 H3]] [K1 [K2 K3]]. repeat split; congruence.
Qed.

Lemma map_frameShape_mapPlayers :
  forall f frames, map frameShape (map (ReplayFrame.mapPlayers f) frames) = map frameShape frames.
Proof.
  intros f frames. rewrite map_map. apply map_ext. intros fr. reflexivity.
Qed.

Lemma map_frameShape_patchSpawn :
  forall agentId spawn sign frames,
    map frameShape (map (patchSpawn agentId spawn sign) frames) = map frameShape frames.
Proof.
  intros agentId spawn sign frames. rewrite map_map. apply map_ext. intros fr. reflexivity.
Qed.

Lemma same_updatePlayer : forall agentId f st, same st (updatePlayer agentId f st).
Proof. intros. repeat split. Qed.

Lemma same_backfillFallbackHp : forall nextMaxHp st, same st (backfillFallbackHp nextMaxHp st).
Proof.
  intros nextMaxHp st. unfold backfillFallbackHp.
  destruct (negb (maxHpSeen st <? nextMaxHp)); [apply same_refl |].
  repeat split. unfold shapes. cbn. apply map_frameShape_mapPlayers.
Qed.

Lemma same_ensurePlayer : forall agentId aiName avatar st, same st (ensurePlayer agentId aiName avatar st).
Proof.
  intros agentId aiName avatar st. unfold ensurePlayer.
  destruct (negb (mapHas (players st) agentId)), (negb (isEmpty aiName)),
    (negb (isEmpty avatar)); repeat split.
Qed.

Lemma same_pushLog : forall kind payload st, same st (pushLog kind payload st).
Proof. intros. repeat split. Qed.

Lemma same_ensureCommentatorExists : forall st, same st (ensureCommentatorExists st).
Proof.
  intros st. unfold ensureCommentatorExists.
  destruct (existsb _ _); [apply same_refl |].
  eapply same_trans; [apply same_ensurePlayer | apply same_updatePlayer].
Qed.

Lemma same_fold_left :
  forall (A : Type) (f : Recon -> A -> Recon) (l : list A),
    (forall st x, same st (f st x)) -> forall st, same st (fold_left f l st).
Proof.
  intros A f l H. induction l as [| x tl IH]; intros st; [apply same_refl |].
  cbn [fold_left]. eapply same_trans; [apply H | apply IH].
Qed.

Lemma same_updateTruck : forall payload wrap st, same st (updateTruck payload wrap st).
Proof. intros. repeat split. Qed.

(** Peels one operation off the state on the right of [same]. *)
Ltac same_step :=
  match goal with
  | |- same ?s ?s => apply same_refl
  | |- same ?s (let x := ?v in @?body x) =>
      let y := fresh x in
      pose (y := v); change (same s (body y)); cbv beta
  | |- same _ (if ?b then _ else _) => destruct b
  | |- same _ (match ?x with _ => _ end) => destruct x
  | |- same ?s (ensurePlayer _ _ _ ?t) =>
      apply (same_trans s t); [| apply same_ensurePlayer]
  | |- same ?s (updatePlayer _ _ ?t) =>
      apply (same_trans s t); [| apply same_updatePlayer]
  | |- same ?s (backfillFallbackHp _ ?t) =>
      apply (same_trans s t); [| apply same_backfillFallbackHp]
  | |- same ?s (pushLog _ _ ?t) =>
      apply (same_trans s t); [| apply same_pushLog]
  | |- same ?s (updateTruck _ _ ?t) =>
      apply (same_trans s t); [| apply same_updateTruck]
  | |- same ?s (fold_left _ _ ?t) =>
      apply (same_trans s t); [| apply same_fold_left; intros]
  | |- same ?s (set_knownPositionByAgent _ ?t) =>
      apply (same_trans s t); [| repeat split]
  | |- same ?s (set_inferredSpawnDone _ ?t) =>
      apply (same_trans s t); [| repeat split]
  | |- same ?s (set_discussionByTurnAgent _ ?t) =>
      apply (same_trans s t); [| repeat split]
  | |- same ?s (set_actionByTurnAgent _ ?t) =>
      apply (same_trans s t); [| repeat split]
  | |- same ?s (set_lastIntentByAgent _ ?t) =>
      apply (same_trans s t); [| repeat split]
  | |- same ?s (set_discussions _ ?t) =>
      apply (same_trans s t); [| repeat split]
  | |- same ?s (set_tick _ ?t) =>
      apply (same_trans s t); [| repeat split]
  | |- same ?s ?y => is_var y; subst y
  end.

Ltac same_auto := repeat same_step.

Lemma same_applyHit :
  forall payload agentId player st, same st (applyHit payload agentId player st).
Proof. intros. unfold applyHit. same_auto. Qed.

Lemma same_patchFrames :
  forall agentId spawn sign st,
    same st (set_frames (map (patchSpawn agentId spawn sign) (frames st)) st).
Proof.
  intros. repeat split. unfold shapes. cbn. apply map_frameShape_patchSpawn.
Qed.

Lemma same_applyMove :
  forall payload agentId player st, same st (applyMove payload agentId player st).
Proof.
  intros. unfold applyMove. same_auto.
  match goal with
  | |- same ?s (set_frames _ ?t) => apply (same_trans s t); [| apply same_patchFrames]
  end.
  same_auto.
Qed.

Lemma same_setPlayerMessage :
  forall agentId message st, same st (setPlayerMessage agentId message st).
Proof. intros. repeat split. Qed.

Lemma same_systemChatter : forall text st, same st (systemChatter text st).
Proof. intros. repeat split. Qed.

Lemma same_seedRoster : forall metas st, same st (seedRoster metas st).
Proof.
  intros metas st. unfold seedRoster. apply same_fold_left.
  intros st' item. same_auto.
Qed.

Lemma same_clampRegistryHp : forall st, same st (clampRegistryHp st).
Proof. intros. repeat split. Qed.

Lemma emits_pushFrame :
  forall label st0 st, same st0 st -> StepShape st0 (pushFrame label st).
Proof.
  intros label st0 st [H1 [H2 H3]]. apply (StepEmits st0 _ label).
  - unfold shapes, pushFrame. cbn. rewrite map_app. cbn.
    unfold shapes in H1. rewrite H1, H3. reflexivity.
  - exact H2.
  - exact H3.
Qed.

Lemma quiet_same : forall st0 st, same st0 st -> StepShape st0 st.
Proof. intros st0 st [H1 [H2 H3]]. apply StepQuiet; assumption. Qed.

Lemma step_discussions :
  forall st0 st v, StepShape st0 st -> StepShape st0 (set_discussions v st).
Proof.
  intros st0 st v H. destruct H as [H1 H2 H3 | label H1 H2 H3 | action H1 H2 H3 H4].
  - apply StepQuiet; assumption.
  - apply (StepEmits _ _ label); assumption.
  - apply (StepMoves _ _ action); assumption.
Qed.

Ltac open_let :=
  match goal with
  | |- ?P ?s (let x := ?v in @?body x) =>
      let y := fresh x in
      pose (y := v); change (P s (body y)); cbv beta
  end.

Ltac emit_auto :=
  repeat open_let;
  repeat match goal with
    | |- StepShape _ (if ?b then _ else _) => destruct b
    | |- StepShape _ (set_discussions _ _) => apply step_discussions
    | |- StepShape _ (pushFrame _ _) => apply emits_pushFrame
    | |- StepShape ?s ?y => is_var y; subst y
    end.

Ltac same_more :=
  repeat first
    [ same_step
    | match goal with
      | |- same ?s (setPlayerMessage _ _ ?t) =>
          apply (same_trans s t); [| apply same_setPlayerMessage]
      | |- same ?s (systemChatter _ ?t) =>
          apply (same_trans s t); [| apply same_systemChatter]
      | |- same ?s (applyHit _ _ _ ?t) =>
          apply (same_trans s t); [| apply same_applyHit]
      | |- same ?s (applyMove _ _ _ ?t) =>
          apply (same_trans s t); [| apply same_applyMove]
      end ].

Lemma step_onGameStarted : forall payload st, StepShape st (onGameStarted payload st).
Proof. intros. unfold onGameStarted. emit_auto; same_more. Qed.

Lemma step_onPlayerHit : forall payload st, StepShape st (onPlayerHit payload st).
Proof. intros. unfold onPlayerHit. emit_auto; same_more. Qed.

Lemma step_onTruckMoved : forall payload st, StepShape st (onTruckMoved payload st).
Proof. intros. unfold onTruckMoved. emit_auto; same_more. Qed.

Lemma step_onCommentatorBroadcast :
  forall JSON_parse payload st, StepShape st (onCommentatorBroadcast JSON_parse payload st).
Proof. intros. unfold onCommentatorBroadcast. emit_auto; same_more. Qed.

Lemma step_onPublicBroadcast :
  forall JSON_parse payload st, StepShape st (onPublicBroadcast JSON_parse payload st).
Proof. intros. unfold onPublicBroadcast. emit_auto; same_more. Qed.

Lemma step_onAgentInteraction :
  forall JSON_parse event payload st,
    StepShape st (onAgentInteraction JSON_parse event payload st).
Proof.
  intros. unfold onAgentInteraction. emit_auto; try apply quiet_same; same_more.
Qed.

Lemma shapes_length : forall st, List.length (shapes st) = List.length (frames st).
Proof. intros st. unfold shapes. apply length_map. Qed.

Lemma moveAction_frameIndex :
  forall payload agentId aiName st,
    ReplayAction.frameIndex (moveAction payload agentId aiName st) =
    Z.of_nat (List.length (frames st)) - 1.
Proof. reflexivity. Qed.

Lemma step_onPlayerMoved : forall payload st, StepShape st (onPlayerMoved payload st).
Proof.
  intros payload st. unfold onPlayerMoved. cbv zeta.
  set (agentId := asString (prop payload "agent_id") EmptyString).
  set (aiName := asString (prop payload "ai_name") agentId).
  set (seeded := ensurePlayer agentId aiName _ st).
  set (moved := match mapGet (players seeded) agentId with
                | Some player => applyMove payload agentId player seeded
                | None => seeded
                end).
  assert (Hsame : same st moved) by (subst moved seeded; same_more).
  destruct Hsame as [H1 [H2 H3]].
  apply (StepMoves st _ (moveAction payload agentId aiName (pushFrame "player_moved" moved))).
  - unfold shapes in *. cbn. rewrite map_app, H1, H3. reflexivity.
  - cbn. rewrite H2. reflexivity.
  - rewrite moveAction_frameIndex. cbn [pushFrame frames set_frames].
    rewrite length_app. cbn [List.length].
    rewrite <- H1, shapes_length. lia.
  - exact H3.
Qed.

Lemma step_dispatchEvent :
  forall JSON_parse event messageType payload st,
    StepShape st (dispatchEvent JSON_parse event messageType payload st).
Proof.
  intros. unfold dispatchEvent.
  repeat match goal with
    | |- StepShape _ (if ?b then _ else _) => destruct b
    end.
  - apply step_onGameStarted.
  - apply step_onAgentInteraction.
  - apply step_onPlayerMoved.
  - apply step_onPlayerHit.
  - apply step_onTruckMoved.
  - apply step_onCommentatorBroadcast.
  - apply step_onPublicBroadcast.
  - apply emits_pushFrame, same_refl.
  - apply quiet_same, same_refl.
Qed.

(** The track length in force once the hint of [message] is taken. *)
Lemma processMessage_shape :
  forall JSON_parse st message st',
    processMessage JSON_parse st message = Some st' ->
    let track := match trackHintOf message with
                 | Some hint => hint
                 | None => trackLength st
                 end in
    trackLength st' = track /\
    ((shapes st' = shapes st /\ actions st' = actions st) \/
     (exists label, shapes st' = shapes st ++ [(label, track)] /\ actions st' = actions st) \/
     (exists action,
        shapes st' = shapes st ++ [("player_moved", track)] /\
        actions st' = actions st ++ [action] /\
        ReplayAction.frameIndex action = Z.of_nat (List.length (shapes st)))).
Proof.
  intros JSON_parse st message st' H track.
  unfold processMessage in H.
  set (fields := asRecord (Some message)) in *.
  set (payload := asRecord (prop fields "payload")) in *.
  set (hinted := applyTrackHint payload
                   (set_tick (Z.max (tick st) (asNumber (prop fields "turn") (tick st))) st)) in *.
  assert (Hh : shapes hinted = shapes st /\ actions hinted = actions st /\
               trackLength hinted = track).
  { subst hinted track. unfold applyTrackHint, trackHintOf. fold fields. fold payload.
    destruct (compactTrackSize payload); repeat split. }
  destruct Hh as [Hs [Ha Ht]].
  assert (Hstep : StepShape hinted st').
  { destruct message; try discriminate; cbv zeta in H; injection H as <-;
      apply step_dispatchEvent. }
  destruct Hstep as [H1 H2 H3 | label H1 H2 H3 | action H1 H2 H3 H4].
  - split; [congruence |]. left. split; congruence.
  - split; [congruence |]. right. left. exists label. split; congruence.
  - split; [congruence |]. right. right. exists action. repeat split; congruence.
Qed.

(** ** Actions and their frames *)

Lemma StronglySorted_snoc :
  forall (l : list Z) (y : Z),
    StronglySorted Z.lt l -> Forall (fun x => x < y) l -> StronglySorted Z.lt (l ++ [y]).
Proof.
  induction l as [| x tl IH]; intros y Hs Hy; cbn.
  - constructor; constructor.
  - inversion Hs as [| ? ? Htl Hx]; subst. inversion Hy as [| ? ? Hxy Htly]; subst.
    constructor; [apply IH; assumption |].
    apply Forall_app. split; [assumption | constructor; [assumption | constructor]].
Qed.

Lemma anchoredAt_more_labels :
  forall labels new actions, anchoredAt labels actions -> anchoredAt (labels ++ new) actions.
Proof.
  intros labels new actions [Hall Hsorted]. split; [| exact Hsorted].
  eapply Forall_impl; [| exact Hall]. cbn. intros a [Hrange Hnth]. split.
  - rewrite length_app. lia.
  - rewrite nth_error_app1 by lia. exact Hnth.
Qed.

Lemma anchoredAt_move :
  forall labels actions action,
    anchoredAt labels actions ->
    ReplayAction.frameIndex action = Z.of_nat (List.length labels) ->
    anchoredAt (labels ++ ["player_moved"]) (actions ++ [action]).
Proof.
  intros labels actions action H Hindex.
  destruct (anchoredAt_more_labels labels ["player_moved"] actions H) as [Hall Hsorted].
  split.
  - apply Forall_app. split; [exact Hall |]. constructor; [| constructor]. split.
    + rewrite length_app. cbn [List.length]. lia.
    + rewrite Hindex, Nat2Z.id, nth_error_app2 by lia. rewrite Nat.sub_diag. reflexivity.
  - rewrite map_app. cbn [map]. apply StronglySorted_snoc; [exact Hsorted |].
    destruct H as [Hold _]. rewrite Forall_map.
    eapply Forall_impl; [| exact Hold]. cbn. intros a [Hrange _]. lia.
Qed.

Lemma processMessage_anchored :
  forall JSON_parse st message st',
    processMessage JSON_parse st message = Some st' ->
    anchoredAt (labelsOf st) (actions st) ->
    anchoredAt (labelsOf st') (actions st').
Proof.
  intros JSON_parse st message st' H Hinv.
  destruct (processMessage_shape JSON_parse st message st' H) as [_ Hshape].
  unfold labelsOf in *.
  destruct Hshape as [[Hs Ha] | [[label [Hs Ha]] | [action [Hs [Ha Hi]]]]];
    rewrite Hs, Ha.
  - exact Hinv.
  - rewrite map_app. apply anchoredAt_more_labels, Hinv.
  - rewrite map_app. cbn [map fst]. apply anchoredAt_move; [exact Hinv |].
    rewrite Hi, length_map. reflexivity.
Qed.

Lemma processMessages_anchored :
  forall JSON_parse coreMessages st st',
    processMessages JSON_parse st coreMessages = Some st' ->
    anchoredAt (labelsOf st) (actions st) ->
    anchoredAt (labelsOf st') (actions st').
Proof.
  intros JSON_parse coreMessages.
  induction coreMessages as [| message rest IH]; intros st st' H Hinv.
  - cbn in H. injection H as <-. exact Hinv.
  - cbn [processMessages] in H.
    destruct (processMessage JSON_parse st message) as [st1 |] eqn:E; [| discriminate].
    apply (IH st1 st' H). apply (processMessage_anchored JSON_parse st message st1 E Hinv).
Qed.

Lemma repairFrom_labels :
  forall actions rest i prev,
    map ReplayFrame.label (repairFrom actions i prev rest) = map ReplayFrame.label rest.
Proof.
  intros actions rest. induction rest as [| curr tl IH]; intros i prev; [reflexivity |].
  cbn [repairFrom map]. rewrite IH. reflexivity.
Qed.

Lemma repairFrames_labels :
  forall actions frames,
    map ReplayFrame.label (repairFrames actions frames) = map ReplayFrame.label frames.
Proof.
  intros actions frames. destruct frames as [| first rest]; [reflexivity |].
  cbn [repairFrames map]. rewrite repairFrom_labels. reflexivity.
Qed.

Lemma anchoredAt_frames :
  forall frames actions,
    anchoredAt (map ReplayFrame.label frames) actions -> actionsAnchored frames actions.
Proof.
  intros frames actions [Hall Hsorted]. split; [| exact Hsorted].
  eapply Forall_impl; [| exact Hall]. cbn. intros a [Hrange Hnth].
  rewrite length_map in Hrange. split; [exact Hrange |].
  rewrite nth_error_map in Hnth.
  destruct (nth_error frames (Z.to_nat (ReplayAction.frameIndex a))) as [fr |] eqn:E;
    [| discriminate].
  exists fr. split.
  - unfold frameAt. destruct (Z.ltb_spec (ReplayAction.frameIndex a) 0); [lia | exact E].
  - cbn in Hnth. congruence.
Qed.

Lemma labelsOf_frames : forall st, labelsOf st = map ReplayFrame.label (frames st).
Proof.
  intros st. unfold labelsOf, shapes. rewrite map_map. reflexivity.
Qed.

Lemma finish_outputs :
  forall st,
    frames (ensureCommentatorExists (clampRegistryHp st)) = frames st /\
    actions (ensureCommentatorExists (clampRegistryHp st)) = actions st /\
    discussions (ensureCommentatorExists (clampRegistryHp st)) = discussions st.
Proof.
  intros st. unfold ensureCommentatorExists.
  destruct (existsb _ _); [repeat split |].
  unfold ensurePlayer.
  destruct (negb (mapHas (players (clampRegistryHp st)) "commentator")); repeat split.
Qed.

(** The state at the end of the loop, for an export that has messages and
    on which the loop does not throw. *)
Lemma parseLegacyExport_run :
  forall JSON_parse input tl,
    parseLegacyExport JSON_parse input = Some tl ->
    tl = ReplayTimeline.empty \/
    exists st0 st,
      same initialRecon st0 /\
      processMessages JSON_parse st0 (coreMessagesOf input) = Some st /\
      tl = ReplayTimeline.mk (repairFrames (actions st) (frames st)) (actions st)
             (discussions st).
Proof.
  intros JSON_parse input tl H. unfold parseLegacyExport in H. fold (coreMessagesOf input) in H.
  destruct (coreMessagesOf input) as [| m rest] eqn:Emsgs.
  - left. congruence.
  - right.
    set (st0 := ensureCommentatorExists
                  (seedRoster (asArray (prop (asRecord (Some input)) "agent_metadata"))
                     initialRecon)) in *.
    destruct (processMessages JSON_parse st0 (m :: rest)) as [st |] eqn:E; [| discriminate].
    exists st0, st. split; [| split].
    + subst st0. eapply same_trans; [apply same_seedRoster | apply same_ensureCommentatorExists].
    + exact E.
    + injection H as <-.
      destruct (finish_outputs st) as [-> [-> ->]]. reflexivity.
Qed.

(** C10. In the timeline that [parseLegacyExport] returns, the [frameIndex]
    of every action is a valid index into the frames, the frame there is
    labeled [player_moved], and the indices increase strictly along the
    list of actions. *)
Theorem parseLegacyExport_actions_anchored :
  forall (JSON_parse : string -> option json) (input : json) (tl : ReplayTimeline.t),
    parseLegacyExport JSON_parse input = Some tl ->
    actionsAnchored (ReplayTimeline.frames tl) (ReplayTimeline.actions tl).
Proof.
  intros JSON_parse input tl H.
  destruct (parseLegacyExport_run JSON_parse input tl H) as [-> | [st0 [st [Hsame [Hrun ->]]]]].
  - split; constructor.
  - cbn [ReplayTimeline.frames ReplayTimeline.actions].
    apply anchoredAt_frames. rewrite repairFrames_labels, <- labelsOf_frames.
    apply (processMessages_anchored JSON_parse _ st0 st Hrun).
    destruct Hsame as [Hs [Ha _]]. unfold labelsOf. rewrite Hs, Ha.
    split; constructor.
Qed.

Lemma parseLegacyExport_actions_anchored_witness :
  parseLegacyExport rejectingParser sampleExport = Some sampleTimeline /\
  map ReplayAction.frameIndex (ReplayTimeline.actions sampleTimeline) = [1; 3] /\
  actionsAnchored (ReplayTimeline.frames sampleTimeline) (ReplayTimeline.actions sampleTimeline).
Proof.
  split; [vm_compute; reflexivity |]. split; [reflexivity |].
  apply (parseLegacyExport_actions_anchored rejectingParser sampleExport sampleTimeline).
  vm_compute. reflexivity.
Defined.

(** ** The repaired trajectory *)

(** After the pass, between two consecutive frames, a player who is in both
    and is not the acting agent of the later one is at most 2 cells from
    the earlier position, unless the later frame is labeled [player_hit]. *)
Theorem repairFrames_bounds_jumps :
  forall (actions : list ReplayAction.t) (frames : list ReplayFrame.t) (n k : nat)
         (prevOut currOut : ReplayFrame.t) (playerOut prevPlayer : PlayerState.t),
    nth_error (repairFrames actions frames) n = Some prevOut ->
    nth_error (repairFrames actions frames) (S n) = Some currOut ->
    nth_error (GameState.players (ReplayFrame.state currOut)) k = Some playerOut ->
    prevByIdGet (GameState.players (ReplayFrame.state prevOut))
      (PlayerState.player_id playerOut) = Some prevPlayer ->
    isActing (actionByFrameGet actions (Z.of_nat (S n))) playerOut = false ->
    ReplayFrame.label currOut <> "player_hit" ->
    circularDistance (PlayerState.position prevPlayer) (PlayerState.position playerOut)
      (GameState.track_length (ReplayFrame.state currOut)) <= 2.
Proof.
  intros actions frames n k prevOut currOut playerOut prevPlayer
    Hprev Hcurr Hk Hby Hact Hlabel.
  destruct (nth_error frames (S n)) as [curr |] eqn:Ein.
  - destruct (repairFrames_nth actions frames n curr Ein) as [prevOut' [H1 H2]].
    rewrite Hprev in H1. injection H1 as <-.
    rewrite Hcurr in H2. clear Hcurr Hprev Ein.
    remember (Z.of_nat (S n)) as i eqn:Hi. clear Hi.
    injection H2 as ->.
    unfold repairFrame, ReplayFrame.mapPlayers in Hk, Hlabel |- *.
    cbn [ReplayFrame.state ReplayFrame.label GameState.set_players GameState.players
         GameState.track_length] in Hk, Hlabel |- *.
    rewrite nth_error_map in Hk.
    destruct (nth_error (GameState.players (ReplayFrame.state curr)) k) as [player |];
      [| discriminate].
    cbn [option_map] in Hk. injection Hk as <-.
    assert (Hid : PlayerState.player_id
                    (repairPlayer prevOut curr (actionByFrameGet actions i) player)
                  = PlayerState.player_id player).
    { unfold repairPlayer.
      repeat match goal with
        | |- context [match ?x with _ => _ end] => destruct x
        end; reflexivity. }
    rewrite Hid in Hby. unfold isActing in Hact. rewrite Hid in Hact.
    unfold repairPlayer. rewrite Hby.
    destruct (String.eqb_spec (ReplayFrame.label curr) "player_hit") as [He | _];
      [contradiction |].
    cbn [andb].
    destruct (actionByFrameGet actions i) as [a |].
    + rewrite Hact.
      destruct (Z.ltb_spec 2 (circularDistance (PlayerState.position prevPlayer)
                  (PlayerState.position player)
                  (GameState.track_length (ReplayFrame.state curr)))) as [_ | Hle].
      * cbn [PlayerState.position PlayerState.set_position].
        rewrite circularDistance_same. lia.
      * exact Hle.
    + destruct (Z.ltb_spec 2 (circularDistance (PlayerState.position prevPlayer)
                  (PlayerState.position player)
                  (GameState.track_length (ReplayFrame.state curr)))) as [_ | Hle].
      * cbn [PlayerState.position PlayerState.set_position].
        rewrite circularDistance_same. lia.
      * exact Hle.
  - exfalso.
    assert (Hlen : List.length (repairFrames actions frames) = List.length frames).
    { rewrite <- (length_map ReplayFrame.label), repairFrames_labels. apply length_map. }
    apply nth_error_None in Ein. assert (Hsome : nth_error (repairFrames actions frames) (S n) <> None)
      by congruence.
    apply nth_error_Some in Hsome. lia.
Qed.

(** ** Track length *)

Lemma Sorted_le_lower :
  forall (a b : Z) (l : list Z), Sorted Z.le (a :: l) -> b <= a -> Sorted Z.le (b :: l).
Proof.
  intros a b l H Hba. inversion H as [| ? ? Hl Hhd]; subst.
  constructor; [exact Hl |].
  destruct l as [| c tl]; constructor. inversion Hhd; subst. lia.
Qed.

Lemma Sorted_le_tail : forall (a : Z) (l : list Z), Sorted Z.le (a :: l) -> Sorted Z.le l.
Proof. intros a l H. inversion H; assumption. Qed.

(** *** Which turns of the loop push a frame *)

Lemma pushes_pushFrame :
  forall label st0 st, same st0 st -> PushesOne st0 (pushFrame label st).
Proof.
  intros label st0 st [H1 [_ H3]]. split; [| exact H3].
  exists label. unfold shapes, pushFrame. cbn. rewrite map_app. cbn.
  unfold shapes in H1. rewrite H1, H3. reflexivity.
Qed.

Lemma pushes_discussions :
  forall st0 st v, PushesOne st0 st -> PushesOne st0 (set_discussions v st).
Proof. intros st0 st v H. exact H. Qed.

Lemma pushes_actions :
  forall st0 st v, PushesOne st0 st -> PushesOne st0 (set_actions v st).
Proof. intros st0 st v H. exact H. Qed.

Ltac push_auto :=
  repeat open_let;
  repeat match goal with
    | |- PushesOne _ (if ?b then _ else _) => destruct b
    | |- PushesOne _ (set_discussions _ _) => apply pushes_discussions
    | |- PushesOne _ (set_actions _ _) => apply pushes_actions
    | |- PushesOne _ (pushFrame _ _) => apply pushes_pushFrame
    | |- PushesOne ?s ?y => is_var y; subst y
    end.

Lemma pushes_onGameStarted : forall payload st, PushesOne st (onGameStarted payload st).
Proof. intros. unfold onGameStarted. push_auto; same_more. Qed.

Lemma pushes_onPlayerHit : forall payload st, PushesOne st (onPlayerHit payload st).
Proof. intros. unfold onPlayerHit. push_auto; same_more. Qed.

Lemma pushes_onTruckMoved : forall payload st, PushesOne st (onTruckMoved payload st).
Proof. intros. unfold onTruckMoved. push_auto; same_more. Qed.

Lemma pushes_onCommentatorBroadcast :
  forall JSON_parse payload st, PushesOne st (onCommentatorBroadcast JSON_parse payload st).
Proof. intros. unfold onCommentatorBroadcast. push_auto; same_more. Qed.

Lemma pushes_onPublicBroadcast :
  forall JSON_parse payload st, PushesOne st (onPublicBroadcast JSON_parse payload st).
Proof. intros. unfold onPublicBroadcast. push_auto; same_more. Qed.

Lemma pushes_onPlayerMoved : forall payload st, PushesOne st (onPlayerMoved payload st).
Proof. intros. unfold onPlayerMoved. push_auto; same_more. Qed.

(** The [agent_interaction] branch pushes a frame for the three events that
    carry the text of an agent, and for no other event. *)
Lemma pushes_onAgentInteraction :
  forall JSON_parse name payload st,
    if isAgentTextEvent name
    then PushesOne st (onAgentInteraction JSON_parse name payload st)
    else same st (onAgentInteraction JSON_parse name payload st).
Proof.
  intros. unfold onAgentInteraction.
  destruct (isAgentTextEvent name).
  - push_auto; same_more.
  - same_more.
Qed.

Lemma pushes_dispatchEvent :
  forall JSON_parse name messageType payload st,
    if pushesFrame name messageType
    then PushesOne st (dispatchEvent JSON_parse name messageType payload st)
    else same st (dispatchEvent JSON_parse name messageType payload st).
Proof.
  intros. unfold dispatchEvent, pushesFrame.
  destruct (String.eqb name "game_started"); [apply pushes_onGameStarted |].
  destruct (String.eqb messageType "agent_interaction"); [apply pushes_onAgentInteraction |].
  destruct (String.eqb name "player_moved"); [apply pushes_onPlayerMoved |].
  destruct (String.eqb name "player_hit"); [apply pushes_onPlayerHit |].
  destruct (String.eqb name "truck_moved"); [apply pushes_onTruckMoved |].
  destruct (String.eqb name "commentator_broadcast"); [apply pushes_onCommentatorBroadcast |].
  destruct (String.eqb name "public_broadcast"); [apply pushes_onPublicBroadcast |].
  destruct (String.eqb name "turn_finished" || String.eqb name "turn_started").
  - apply pushes_pushFrame, same_refl.
  - apply same_refl.
Qed.

(** One turn of the loop: the hint of the message, if any, replaces the
    track length, and the frame of the message, if any, carries the result. *)
Lemma processMessage_tracks :
  forall JSON_parse st message st',
    processMessage JSON_parse st message = Some st' ->
    let track := match trackHintOf message with
                 | Some hint => hint
                 | None => trackLength st
                 end in
    trackLength st' = track /\
    tracksOf st' = tracksOf st ++ (if emitsFrame message then [track] else []).
Proof.
  intros JSON_parse st message st' H track.
  unfold processMessage in H.
  set (fields := asRecord (Some message)) in *.
  set (payload := asRecord (prop fields "payload")) in *.
  set (hinted := applyTrackHint payload
                   (set_tick (Z.max (tick st) (asNumber (prop fields "turn") (tick st))) st)) in *.
  assert (Hh : shapes hinted = shapes st /\ trackLength hinted = track).
  { subst hinted track. unfold applyTrackHint, trackHintOf. fold fields. fold payload.
    destruct (compactTrackSize payload); repeat split. }
  destruct Hh as [Hs Ht].
  assert (Hst : st' = dispatchEvent JSON_parse
                        (asString (prop fields "event") EmptyString)
                        (asString (prop fields "message_type") EmptyString) payload hinted).
  { destruct message; try discriminate; cbv zeta in H; injection H as <-; reflexivity. }
  pose proof (pushes_dispatchEvent JSON_parse
                (asString (prop fields "event") EmptyString)
                (asString (prop fields "message_type") EmptyString) payload hinted) as Hstep.
  rewrite <- Hst in Hstep. unfold emitsFrame. fold fields.
  destruct (pushesFrame _ _).
  - destruct Hstep as [[label Hshapes] Htrack].
    split; [congruence |]. unfold tracksOf. rewrite Hshapes, map_app, Hs, Ht. reflexivity.
  - destruct Hstep as [Hshapes [_ Htrack]].
    split; [congruence |]. unfold tracksOf. rewrite Hshapes, Hs, app_nil_r. reflexivity.
Qed.

Lemma processMessages_tracks :
  forall JSON_parse coreMessages st st',
    processMessages JSON_parse st coreMessages = Some st' ->
    tracksOf st' = tracksOf st ++ expectedTracks (trackLength st) coreMessages.
Proof.
  intros JSON_parse coreMessages.
  induction coreMessages as [| message rest IH]; intros st st' H.
  - cbn in H. injection H as <-. cbn. rewrite app_nil_r. reflexivity.
  - cbn [processMessages] in H.
    destruct (processMessage JSON_parse st message) as [st1 |] eqn:E; [| discriminate].
    destruct (processMessage_tracks JSON_parse st message st1 E) as [Ht Hnew].
    rewrite (IH st1 st' H), Hnew, Ht, <- app_assoc. cbn [expectedTracks].
    destruct (emitsFrame message); reflexivity.
Qed.

(** *** The expected track lengths, before and from the first hint *)

Lemma expectedTracks_split :
  forall coreMessages current,
    expectedTracks current coreMessages =
    repeat current (framesPushedBy (beforeFirstHint coreMessages)) ++
    expectedTracks current (fromFirstHint coreMessages).
Proof.
  intros coreMessages current. induction coreMessages as [| message rest IH]; [reflexivity |].
  cbn [expectedTracks beforeFirstHint fromFirstHint].
  destruct (trackHintOf message) as [hint |] eqn:Ehint.
  - cbn [expectedTracks]. rewrite Ehint. reflexivity.
  - unfold framesPushedBy in *. cbn [filter].
    destruct (emitsFrame message); cbn [List.length repeat app]; rewrite IH; reflexivity.
Qed.

Lemma expectedTracks_length :
  forall coreMessages current,
    List.length (expectedTracks current coreMessages) = framesPushedBy coreMessages.
Proof.
  intros coreMessages. unfold framesPushedBy.
  induction coreMessages as [| message rest IH]; intros current; [reflexivity |].
  cbn [expectedTracks filter]. destruct (emitsFrame message); cbn [List.length]; rewrite IH;
    reflexivity.
Qed.

Lemma expectedTracks_values :
  forall coreMessages current,
    Forall (fun t => t = current \/ In t (trackHints coreMessages))
      (expectedTracks current coreMessages).
Proof.
  intros coreMessages. induction coreMessages as [| message rest IH]; intros current;
    [constructor |].
  cbn [expectedTracks trackHints].
  destruct (trackHintOf message) as [hint |].
  - assert (Hrest : Forall (fun t => t = current \/ In t (hint :: trackHints rest))
                      (expectedTracks hint rest)).
    { eapply Forall_impl; [| exact (IH hint)]. cbn. intros t [-> | Hin]; auto. }
    destruct (emitsFrame message); [constructor; [right; left; reflexivity |] |]; exact Hrest.
  - destruct (emitsFrame message); [constructor; [left; reflexivity |] |]; exact (IH current).
Qed.

Lemma expectedTracks_sorted :
  forall coreMessages current,
    Sorted Z.le (current :: trackHints coreMessages) ->
    Sorted Z.le (current :: expectedTracks current coreMessages).
Proof.
  intros coreMessages. induction coreMessages as [| message rest IH]; intros current Hsorted.
  - repeat constructor.
  - cbn [expectedTracks trackHints] in *.
    destruct (trackHintOf message) as [hint |].
    + inversion Hsorted as [| ? ? Hrest Hhd]; subst. inversion Hhd; subst.
      pose proof (IH hint Hrest) as Hlater.
      destruct (emitsFrame message).
      * constructor; [exact Hlater | constructor; assumption].
      * apply (Sorted_le_lower hint); assumption.
    + pose proof (IH current Hsorted) as Hlater.
      destruct (emitsFrame message); [| exact Hlater].
      constructor; [exact Hlater | constructor; lia].
Qed.

Lemma fromFirstHint_hints :
  forall coreMessages, trackHints (fromFirstHint coreMessages) = trackHints coreMessages.
Proof.
  intros coreMessages. induction coreMessages as [| message rest IH]; [reflexivity |].
  cbn [fromFirstHint trackHints]. destruct (trackHintOf message) eqn:Ehint.
  - cbn [trackHints]. rewrite Ehint. reflexivity.
  - exact IH.
Qed.

(** From the first hint on, every expected track length is a hint, and the
    expected track lengths never decrease when the hints never do. *)
Lemma expectedTracks_fromFirstHint :
  forall coreMessages current,
    Forall (fun t => In t (trackHints coreMessages))
      (expectedTracks current (fromFirstHint coreMessages)) /\
    (Sorted Z.le (trackHints coreMessages) ->
     Sorted Z.le (expectedTracks current (fromFirstHint coreMessages))).
Proof.
  intros coreMessages current. rewrite <- (fromFirstHint_hints coreMessages).
  destruct coreMessages as [| m0 rest0]; [split; constructor |].
  assert (Hhead : fromFirstHint (m0 :: rest0) = [] \/
                  exists message rest hint,
                    fromFirstHint (m0 :: rest0) = message :: rest /\
                    trackHintOf message = Some hint).
  { generalize (m0 :: rest0). intros l. induction l as [| m tl IH]; [left; reflexivity |].
    cbn [fromFirstHint]. destruct (trackHintOf m) as [hint |] eqn:Ehint; [| exact IH].
    right. exists m, tl, hint. split; [reflexivity | exact Ehint]. }
  destruct Hhead as [-> | (message & rest & hint & -> & Ehint)]; [split; constructor |].
  cbn [expectedTracks trackHints]. rewrite Ehint.
  pose proof (expectedTracks_values rest hint) as Hvalues.
  assert (Hin : Forall (fun t => In t (hint :: trackHints rest)) (expectedTracks hint rest)).
  { eapply Forall_impl; [| exact Hvalues]. cbn. intros t [-> | H]; auto. }
  split.
  - destruct (emitsFrame message); [constructor; [left; reflexivity |] |]; exact Hin.
  - intros Hsorted. pose proof (expectedTracks_sorted rest hint Hsorted) as Hlater.
    destruct (emitsFrame message); [exact Hlater | exact (Sorted_le_tail _ _ Hlater)].
Qed.

Lemma repairFrom_trackLengths :
  forall actions rest i prev,
    trackLengths (repairFrom actions i prev rest) = trackLengths rest.
Proof.
  intros actions rest. induction rest as [| curr tl IH]; intros i prev; [reflexivity |].
  unfold trackLengths in *. cbn [repairFrom map]. rewrite IH. reflexivity.
Qed.

Lemma repairFrames_trackLengths :
  forall actions frames, trackLengths (repairFrames actions frames) = trackLengths frames.
Proof.
  intros actions frames. destruct frames as [| first rest]; [reflexivity |].
  unfold trackLengths. cbn [repairFrames map].
  fold (trackLengths (repairFrom actions 1 first rest)).
  rewrite repairFrom_trackLengths. reflexivity.
Qed.

Lemma tracksOf_frames : forall st, tracksOf st = trackLengths (frames st).
Proof.
  intros st. unfold tracksOf, shapes, trackLengths. rewrite map_map. reflexivity.
Qed.

(** C6, as the specification has it, fails: a later hint of 10 after a first
    hint of 20 lowers the track length of the frames from 20 to 10. *)
Lemma track_length_can_decrease :
  option_map (fun tl => trackLengths (ReplayTimeline.frames tl))
    (parseLegacyExport rejectingParser shrinkingExport) = Some [20; 10] /\
  trackHints (coreMessagesOf shrinkingExport) = [20; 10] /\
  ~ Sorted Z.le [20; 10].
Proof.
  split; [vm_compute; reflexivity |]. split; [vm_compute; reflexivity |].
  intros H. inversion H as [| ? ? _ Hhd]; subst. inversion Hhd; subst. lia.
Qed.

(** The track lengths of the frames of a returned timeline. *)
Lemma parseLegacyExport_tracks :
  forall (JSON_parse : string -> option json) (input : json) (tl : ReplayTimeline.t),
    parseLegacyExport JSON_parse input = Some tl ->
    trackLengths (ReplayTimeline.frames tl) =
    expectedTracks FALLBACK_TRACK (coreMessagesOf input).
Proof.
  intros JSON_parse input tl H. unfold parseLegacyExport in H.
  fold (coreMessagesOf input) in H. fold (startOf input) in H.
  destruct (coreMessagesOf input) as [| m rest] eqn:Emsgs.
  - injection H as <-. reflexivity.
  - destruct (processMessages JSON_parse (startOf input) (m :: rest)) as [st |] eqn:Erun;
      [| discriminate].
    injection H as <-. destruct (finish_outputs st) as [-> [-> _]].
    cbn [ReplayTimeline.frames].
    rewrite repairFrames_trackLengths, <- tracksOf_frames,
      (processMessages_tracks JSON_parse _ _ st Erun).
    assert (Hstart : same initialRecon (startOf input))
      by (unfold startOf;
          eapply same_trans; [apply same_seedRoster | apply same_ensureCommentatorExists]).
    destruct Hstart as [Hs [_ Ht]]. unfold tracksOf at 1. rewrite Hs, Ht. reflexivity.
Qed.

(** C6, amended. Every positive track-size hint replaces the track length,
    whether it is larger or smaller than the current one: the frame that a
    message pushes carries the hint of that message, or else the latest
    hint of the messages before it, or else the fallback 48.  So the frames
    pushed by the messages before the first hint, and no others, carry 48;
    the frames pushed from the message of the first hint on carry hints,
    and their track lengths never decrease when the hints of the stream
    never decrease. *)
Theorem track_length_follows_hints :
  forall (JSON_parse : string -> option json) (input : json) (tl : ReplayTimeline.t),
    parseLegacyExport JSON_parse input = Some tl ->
    trackLengths (ReplayTimeline.frames tl) =
      expectedTracks FALLBACK_TRACK (coreMessagesOf input) /\
    exists later : list Z,
      trackLengths (ReplayTimeline.frames tl) =
        repeat FALLBACK_TRACK (framesPushedBy (beforeFirstHint (coreMessagesOf input))) ++ later /\
      List.length later = framesPushedBy (fromFirstHint (coreMessagesOf input)) /\
      Forall (fun t => In t (trackHints (coreMessagesOf input))) later /\
      (Sorted Z.le (trackHints (coreMessagesOf input)) -> Sorted Z.le later).
Proof.
  intros JSON_parse input tl H.
  pose proof (parseLegacyExport_tracks JSON_parse input tl H) as Hexact.
  split; [exact Hexact |].
  exists (expectedTracks FALLBACK_TRACK (fromFirstHint (coreMessagesOf input))).
  split; [rewrite Hexact; apply expectedTracks_split |].
  split; [apply expectedTracks_length |].
  apply expectedTracks_fromFirstHint.
Qed.

Lemma track_length_follows_hints_witness :
  parseLegacyExport rejectingParser growingExport = Some growingTimeline /\
  framesPushedBy (beforeFirstHint (coreMessagesOf growingExport)) = 1%nat /\
  trackHints (coreMessagesOf growingExport) = [20; 24] /\
  trackLengths (ReplayTimeline.frames growingTimeline) = [48; 20; 20; 24] /\
  trackLengths (ReplayTimeline.frames growingTimeline) =
    expectedTracks FALLBACK_TRACK (coreMessagesOf growingExport) /\
  exists later : list Z,
    trackLengths (ReplayTimeline.frames growingTimeline) =
      repeat FALLBACK_TRACK (framesPushedBy (beforeFirstHint (coreMessagesOf growingExport)))
        ++ later /\
    List.length later = framesPushedBy (fromFirstHint (coreMessagesOf growingExport)) /\
    Forall (fun t => In t (trackHints (coreMessagesOf growingExport))) later /\
    (Sorted Z.le (trackHints (coreMessagesOf growingExport)) -> Sorted Z.le later).
Proof.
  split; [vm_compute; reflexivity |]. split; [vm_compute; reflexivity |].
  split; [vm_compute; reflexivity |]. split; [reflexivity |].
  apply (track_length_follows_hints rejectingParser growingExport growingTimeline).
  vm_compute. reflexivity.
Defined.

(** ** Hit points *)

Lemma grows_refl : forall st, grows st st.
Proof. intros st. split; [lia | auto]. Qed.

Lemma grows_trans : forall st1 st2 st3, grows st1 st2 -> grows st2 st3 -> grows st1 st3.
Proof. intros st1 st2 st3 [H1 H2] [K1 K2]. split; [lia | auto]. Qed.

Lemma Forall_mapSet :
  forall (V : Type) (Q : V -> Prop) (m : SMap V) key v,
    Forall (fun kv => Q (snd kv)) m -> Q v -> Forall (fun kv => Q (snd kv)) (mapSet m key v).
Proof.
  intros V Q m key v Hm Hv. induction m as [| [k w] tl IH]; cbn [mapSet].
  - constructor; [exact Hv | constructor].
  - inversion Hm as [| ? ? Hw Htl]; subst. destruct (String.eqb k key).
    + constructor; [exact Hv | exact Htl].
    + constructor; [exact Hw | apply IH, Htl].
Qed.

Lemma Forall_mapUpdate :
  forall (V : Type) (Q : V -> Prop) (m : SMap V) key f,
    Forall (fun kv => Q (snd kv)) m -> (forall v, Q v -> Q (f v)) ->
    Forall (fun kv => Q (snd kv)) (mapUpdate m key f).
Proof.
  intros V Q m key f Hm Hf. induction m as [| [k w] tl IH]; cbn [mapUpdate].
  - constructor.
  - inversion Hm as [| ? ? Hw Htl]; subst. destruct (String.eqb k key).
    + constructor; [apply Hf, Hw | exact Htl].
    + constructor; [exact Hw | apply IH, Htl].
Qed.

Lemma grows_updatePlayer :
  forall agentId f st,
    (forall p, MutablePlayer.hp p <= maxHpSeen st -> MutablePlayer.hp (f p) <= maxHpSeen st) ->
    grows st (updatePlayer agentId f st).
Proof.
  intros agentId f st Hf. split; [cbn; lia |].
  intros [H3 [Hreg Hfr]]. split; [exact H3 |]. split; [| exact Hfr].
  cbn. apply (Forall_mapUpdate _ (fun p => MutablePlayer.hp p <= maxHpSeen st)); assumption.
Qed.

Lemma grows_ensurePlayer :
  forall agentId aiName avatar st, grows st (ensurePlayer agentId aiName avatar st).
Proof.
  intros agentId aiName avatar st. unfold ensurePlayer.
  set (st1 := if negb (mapHas (players st) agentId) then _ else _).
  assert (H1 : grows st st1).
  { subst st1. destruct (negb (mapHas (players st) agentId)).
    - split; [cbn; lia |]. intros [H3 [Hreg Hfr]]. split; [exact H3 |]. split; [| exact Hfr].
      cbn. apply (Forall_mapSet _ (fun p => MutablePlayer.hp p <= maxHpSeen st));
        [exact Hreg | cbn; lia].
    - destruct (negb (isEmpty aiName)); [| apply grows_refl].
      apply grows_updatePlayer. intros p Hp. exact Hp. }
  set (st2 := if negb (isEmpty avatar) then _ else st1).
  assert (H2 : grows st1 st2).
  { subst st2. destruct (negb (isEmpty avatar)); [| apply grows_refl].
    apply (grows_trans _ (updatePlayer agentId (MutablePlayer.set_avatar avatar) st1)).
    - apply grows_updatePlayer. intros p Hp. exact Hp.
    - split; [cbn; lia | exact (fun H => H)]. }
  apply (grows_trans _ st1); [exact H1 |]. apply (grows_trans _ st2); [exact H2 |].
  destruct (negb (isEmpty aiName)); [| apply grows_refl].
  split; [cbn; lia | exact (fun H => H)].
Qed.

Lemma Forall_upgrade_le :
  forall (ceiling next : Z) (l : list PlayerState.t),
    ceiling < next ->
    Forall (fun p => PlayerState.hp p <= ceiling) l ->
    Forall (fun p => PlayerState.hp p <= next) (map (upgradeHp next) l).
Proof.
  intros ceiling next l Hlt H. rewrite Forall_map.
  eapply Forall_impl; [| exact H]. cbn. intros p Hp. unfold upgradeHp.
  destruct (PlayerState.hp p =? FALLBACK_HP); cbn; lia.
Qed.

Lemma grows_backfillFallbackHp :
  forall nextMaxHp st,
    grows st (backfillFallbackHp nextMaxHp st) /\
    nextMaxHp <= maxHpSeen (backfillFallbackHp nextMaxHp st).
Proof.
  intros nextMaxHp st. unfold backfillFallbackHp.
  destruct (Z.ltb_spec (maxHpSeen st) nextMaxHp) as [Hlt | Hge]; cbn [negb].
  - split; [| cbn; lia]. split; [cbn; lia |].
    intros [H3 [Hreg Hfr]]. split; [cbn; lia |]. split; cbn.
    + rewrite Forall_map. eapply Forall_impl; [| exact Hreg]. cbn. intros kv Hkv.
      unfold upgradeMutableHp. destruct (MutablePlayer.hp (snd kv) =? FALLBACK_HP); cbn; lia.
    + rewrite Forall_map. eapply Forall_impl; [| exact Hfr]. cbn. intros fr Hplayers.
      apply (Forall_upgrade_le (maxHpSeen st)); assumption.
  - split; [apply grows_refl | exact Hge].
Qed.

(** The pair of statements [backfillFallbackHp(lives); player.hp = lives]. *)
Lemma grows_set_lives :
  forall agentId lives st,
    grows st (updatePlayer agentId (MutablePlayer.set_hp lives) (backfillFallbackHp lives st)).
Proof.
  intros agentId lives st.
  destruct (grows_backfillFallbackHp lives st) as [Hgrow Hle].
  apply (grows_trans _ _ _ Hgrow). apply grows_updatePlayer. intros p _. cbn. exact Hle.
Qed.

Lemma grows_pushFrame : forall label st, grows st (pushFrame label st).
Proof.
  intros label st. split; [cbn; lia |].
  intros [H3 [Hreg Hfr]]. split; [exact H3 |]. split; [exact Hreg |].
  cbn. apply Forall_app. split; [exact Hfr |]. constructor; [| constructor].
  cbn. unfold mapValues. rewrite !Forall_map.
  eapply Forall_impl; [| exact Hreg]. cbn. auto.
Qed.

Lemma updateFirst_hp :
  forall (pred : PlayerState.t -> bool) (f : PlayerState.t -> PlayerState.t) ceiling l,
    (forall p, PlayerState.hp (f p) = PlayerState.hp p) ->
    Forall (fun p => PlayerState.hp p <= ceiling) l ->
    Forall (fun p => PlayerState.hp p <= ceiling) (updateFirst pred f l).
Proof.
  intros pred f ceiling l Hf H. induction H as [| p tl Hp Htl IH]; cbn [updateFirst].
  - constructor.
  - destruct (pred p); constructor; try assumption. rewrite Hf. exact Hp.
Qed.

Lemma grows_patchFrames :
  forall agentId spawn sign st,
    grows st (set_frames (map (patchSpawn agentId spawn sign) (frames st)) st).
Proof.
  intros agentId spawn sign st. split; [cbn; lia |].
  intros [H3 [Hreg Hfr]]. split; [exact H3 |]. split; [exact Hreg |].
  cbn. rewrite Forall_map. eapply Forall_impl; [| exact Hfr]. cbn. intros fr Hplayers.
  apply updateFirst_hp; [reflexivity | exact Hplayers].
Qed.

Lemma grows_pushLog : forall kind payload st, grows st (pushLog kind payload st).
Proof. intros. split; [cbn; lia | exact (fun H => H)]. Qed.

Lemma grows_updateTruck : forall payload wrap st, grows st (updateTruck payload wrap st).
Proof. intros. split; [cbn; lia | exact (fun H => H)]. Qed.

Lemma grows_fold_left :
  forall (A : Type) (f : Recon -> A -> Recon) (l : list A),
    (forall st x, grows st (f st x)) -> forall st, grows st (fold_left f l st).
Proof.
  intros A f l H. induction l as [| x tl IH]; intros st; [apply grows_refl |].
  cbn [fold_left]. eapply grows_trans; [apply H | apply IH].
Qed.

Ltac grows_plain := split; [cbn; lia | exact (fun H => H)].

Ltac grows_step :=
  match goal with
  | |- grows ?s ?s => apply grows_refl
  | |- grows ?s (let x := ?v in @?body x) =>
      let y := fresh x in
      pose (y := v); change (grows s (body y)); cbv beta
  | |- grows _ (if ?b then _ else _) => destruct b
  | |- grows _ (match ?x with _ => _ end) => destruct x
  | |- grows ?s (ensurePlayer _ _ _ ?t) =>
      apply (grows_trans s t); [| apply grows_ensurePlayer]
  | |- grows ?s (updatePlayer _ (MutablePlayer.set_hp ?l) (backfillFallbackHp ?l ?t)) =>
      apply (grows_trans s t); [| apply grows_set_lives]
  | |- grows ?s (updatePlayer _ _ ?t) =>
      apply (grows_trans s t); [| apply grows_updatePlayer; intros ? Hkeep; exact Hkeep]
  | |- grows ?s (setPlayerMessage _ _ ?t) =>
      apply (grows_trans s t); [| apply grows_updatePlayer; intros ? Hkeep; exact Hkeep]
  | |- grows ?s (pushLog _ _ ?t) =>
      apply (grows_trans s t); [| apply grows_pushLog]
  | |- grows ?s (systemChatter _ ?t) =>
      apply (grows_trans s t); [| apply grows_pushLog]
  | |- grows ?s (pushFrame _ ?t) =>
      apply (grows_trans s t); [| apply grows_pushFrame]
  | |- grows ?s (updateTruck _ _ ?t) =>
      apply (grows_trans s t); [| apply grows_updateTruck]
  | |- grows ?s (fold_left _ _ ?t) =>
      apply (grows_trans s t); [| apply grows_fold_left; intros]
  | |- grows ?s (set_frames (map (patchSpawn _ _ _) (frames ?t)) ?t) =>
      apply (grows_trans s t); [| apply grows_patchFrames]
  | |- grows ?s (set_knownPositionByAgent _ ?t) => apply (grows_trans s t); [| grows_plain]
  | |- grows ?s (set_inferredSpawnDone _ ?t) => apply (grows_trans s t); [| grows_plain]
  | |- grows ?s (set_discussionByTurnAgent _ ?t) => apply (grows_trans s t); [| grows_plain]
  | |- grows ?s (set_actionByTurnAgent _ ?t) => apply (grows_trans s t); [| grows_plain]
  | |- grows ?s (set_lastIntentByAgent _ ?t) => apply (grows_trans s t); [| grows_plain]
  | |- grows ?s (set_discussions _ ?t) => apply (grows_trans s t); [| grows_plain]
  | |- grows ?s (set_actions _ ?t) => apply (grows_trans s t); [| grows_plain]
  | |- grows ?s (set_tick _ ?t) => apply (grows_trans s t); [| grows_plain]
  | |- grows ?s (set_trackLength _ ?t) => apply (grows_trans s t); [| grows_plain]
  | |- grows ?s ?y => is_var y; subst y
  end.

Lemma grows_applyHit :
  forall payload agentId player st, grows st (applyHit payload agentId player st).
Proof.
  intros. unfold applyHit. cbv zeta.
  destruct (prop payload "respawned_position") as [[| | respawn | | |] |];
    repeat grows_step.
Qed.

Lemma grows_applyMove :
  forall payload agentId player st, grows st (applyMove payload agentId player st).
Proof.
  intros. unfold applyMove.
  repeat match goal with
    | |- grows ?s (let x := ?v in @?body x) =>
        lazymatch v with
        | backfillFallbackHp _ _ => fail
        | _ => let y := fresh x in pose (y := v); change (grows s (body y)); cbv beta
        end
    end.
  cbv zeta. repeat grows_step.
Qed.

Ltac grows_auto :=
  repeat first
    [ grows_step
    | match goal with
      | |- grows ?s (applyHit _ _ _ ?t) =>
          apply (grows_trans s t); [| apply grows_applyHit]
      | |- grows ?s (applyMove _ _ _ ?t) =>
          apply (grows_trans s t); [| apply grows_applyMove]
      end ].

Lemma grows_dispatchEvent :
  forall JSON_parse event messageType payload st,
    grows st (dispatchEvent JSON_parse event messageType payload st).
Proof.
  intros. unfold dispatchEvent.
  repeat match goal with
    | |- grows _ (if ?b then _ else _) => destruct b
    end.
  - unfold onGameStarted. grows_auto.
  - unfold onAgentInteraction. grows_auto.
  - unfold onPlayerMoved. grows_auto.
  - unfold onPlayerHit. grows_auto.
  - unfold onTruckMoved. grows_auto.
  - unfold onCommentatorBroadcast. grows_auto.
  - unfold onPublicBroadcast. grows_auto.
  - grows_auto.
  - grows_auto.
Qed.

Lemma grows_processMessage :
  forall JSON_parse st message st',
    processMessage JSON_parse st message = Some st' -> grows st st'.
Proof.
  intros JSON_parse st message st' H. unfold processMessage in H.
  destruct message; try discriminate; cbv zeta in H; injection H as <-;
    (eapply grows_trans; [| apply grows_dispatchEvent]);
    unfold applyTrackHint; grows_auto.
Qed.

(** The upper half of the hit-point bound is an invariant of the loop over
    the messages, and the ceiling [maxHpSeen] never decreases: whatever the
    messages, once no registry player and no emitted frame exceeds the
    ceiling, none does after any further run of messages, against the
    ceiling of that moment. *)
Theorem hp_ceiling_invariant :
  forall (JSON_parse : string -> option json) (coreMessages : list json) (st st' : Recon),
    processMessages JSON_parse st coreMessages = Some st' ->
    maxHpSeen st <= maxHpSeen st' /\ (hpCapped st -> hpCapped st').
Proof.
  intros JSON_parse coreMessages.
  induction coreMessages as [| message rest IH]; intros st st' H.
  - cbn in H. injection H as <-. apply grows_refl.
  - cbn [processMessages] in H.
    destruct (processMessage JSON_parse st message) as [st1 |] eqn:E; [| discriminate].
    apply (grows_trans st st1 st').
    + apply (grows_processMessage JSON_parse st message st1 E).
    + apply (IH st1 st' H).
Qed.

Lemma hpCapped_start :
  forall metas, hpCapped (ensureCommentatorExists (seedRoster metas initialRecon)).
Proof.
  intros metas.
  assert (H0 : hpCapped initialRecon).
  { split; [cbn; lia |]. split; constructor. }
  assert (H1 : grows initialRecon (seedRoster metas initialRecon)).
  { unfold seedRoster. apply grows_fold_left. intros st item. grows_auto. }
  set (st := seedRoster metas initialRecon) in *.
  assert (H2 : grows st (ensureCommentatorExists st)).
  { unfold ensureCommentatorExists. destruct (existsb _ _); [apply grows_refl |].
    set (st1 := ensurePlayer _ _ _ st).
    apply (grows_trans st st1); [apply grows_ensurePlayer |].
    apply grows_updatePlayer. intros p Hp.
    cbn [MutablePlayer.hp MutablePlayer.set_message MutablePlayer.set_hp].
    fold st1. lia. }
  apply H2, H1, H0.
Qed.

Lemma repairPlayer_hp :
  forall prev curr movedAction player,
    PlayerState.hp (repairPlayer prev curr movedAction player) = PlayerState.hp player.
Proof.
  intros prev curr movedAction player. unfold repairPlayer.
  repeat match goal with
    | |- context [match ?x with _ => _ end] => destruct x
    end; reflexivity.
Qed.

Lemma repairFrom_hp :
  forall actions rest i prev,
    map (fun fr => map PlayerState.hp (GameState.players (ReplayFrame.state fr)))
      (repairFrom actions i prev rest) =
    map (fun fr => map PlayerState.hp (GameState.players (ReplayFrame.state fr))) rest.
Proof.
  intros actions rest. induction rest as [| curr tl IH]; intros i prev; [reflexivity |].
  cbn [repairFrom map]. rewrite IH. f_equal.
  unfold repairFrame, ReplayFrame.mapPlayers. cbn. rewrite map_map.
  apply map_ext. intros p. apply repairPlayer_hp.
Qed.

Lemma repairFrames_hp :
  forall actions frames,
    map (fun fr => map PlayerState.hp (GameState.players (ReplayFrame.state fr)))
      (repairFrames actions frames) =
    map (fun fr => map PlayerState.hp (GameState.players (ReplayFrame.state fr))) frames.
Proof.
  intros actions frames. destruct frames as [| first rest]; [reflexivity |].
  cbn [repairFrames map]. rewrite repairFrom_hp. reflexivity.
Qed.

(** X24: in the timeline that [parseLegacyExport] returns no player of any
    frame has more hp than the ceiling [maxHpSeen] that the loop ends with,
    and that ceiling is the fallback 3 at least. *)
Theorem parseLegacyExport_hp_capped :
  forall (JSON_parse : string -> option json) (input : json) (tl : ReplayTimeline.t),
    parseLegacyExport JSON_parse input = Some tl ->
    tl = ReplayTimeline.empty \/
    exists st,
      processMessages JSON_parse (startOf input) (coreMessagesOf input) = Some st /\
      FALLBACK_HP <= maxHpSeen st /\
      Forall (Forall (fun hp => hp <= maxHpSeen st)) (hpTable tl).
Proof.
  intros JSON_parse input tl H. unfold parseLegacyExport in H.
  fold (coreMessagesOf input) in H. fold (startOf input) in H.
  destruct (coreMessagesOf input) as [| m rest] eqn:Emsgs.
  - left. congruence.
  - right.
    destruct (processMessages JSON_parse (startOf input) (m :: rest)) as [st |] eqn:E;
      [| discriminate].
    exists st.
    destruct (hp_ceiling_invariant JSON_parse _ (startOf input) st E) as [_ Hkeep].
    destruct (Hkeep (hpCapped_start _)) as [H3 [_ Hfr]].
    split; [reflexivity |]. split; [exact H3 |].
    injection H as <-. destruct (finish_outputs st) as [-> [-> _]].
    unfold hpTable. cbn [ReplayTimeline.frames]. rewrite repairFrames_hp.
    rewrite Forall_map. eapply Forall_impl; [| exact Hfr]. cbn. intros fr Hplayers.
    rewrite Forall_map. exact Hplayers.
Qed.

(** C1 at an export whose only event is a hit that reports -1 lives: the
    frame of the hit carries the player with hp -1, below zero, although the
    ceiling is 3. *)
Theorem negative_lives_reach_the_frames :
  option_map hpTable (parseLegacyExport rejectingParser negativeLivesExport) = Some [[3; -1]].
Proof. vm_compute. reflexivity. Qed.

(** * The registry and the frames through the loop *)

(** ** Maps keyed by strings *)

Lemma mapGet_None_notin :
  forall (V : Type) (m : SMap V) key, mapGet m key = None -> ~ In key (map fst m).
Proof.
  intros V m key. induction m as [| [k v] tl IH]; cbn [mapGet map fst]; intros H.
  - intros [].
  - destruct (String.eqb_spec k key) as [-> | Hne]; [discriminate |].
    intros [Heq | Hin]; [congruence | exact (IH H Hin)].
Qed.

Lemma mapGet_Some_in :
  forall (V : Type) (m : SMap V) key v, mapGet m key = Some v -> In key (map fst m).
Proof.
  intros V m key v. induction m as [| [k w] tl IH]; cbn [mapGet map fst]; intros H.
  - discriminate.
  - destruct (String.eqb_spec k key) as [-> | Hne]; [left; reflexivity | right; auto].
Qed.

Lemma mapSet_absent :
  forall (V : Type) (m : SMap V) key v, mapGet m key = None -> mapSet m key v = m ++ [(key, v)].
Proof.
  intros V m key v. induction m as [| [k w] tl IH]; cbn [mapGet mapSet app]; intros H.
  - reflexivity.
  - destruct (String.eqb k key); [discriminate |]. rewrite (IH H). reflexivity.
Qed.

Lemma mapUpdate_keys :
  forall (V : Type) (m : SMap V) key f, map fst (mapUpdate m key f) = map fst m.
Proof.
  intros V m key f. induction m as [| [k w] tl IH]; cbn [mapUpdate map fst]; [reflexivity |].
  destruct (String.eqb k key); cbn [map fst]; [reflexivity | rewrite IH; reflexivity].
Qed.

Lemma Forall_mapUpdate_entry :
  forall (V : Type) (P : string * V -> Prop) (m : SMap V) key f,
    Forall P m -> (forall k v, P (k, v) -> P (k, f v)) -> Forall P (mapUpdate m key f).
Proof.
  intros V P m key f Hm Hf. induction m as [| [k w] tl IH]; cbn [mapUpdate].
  - constructor.
  - inversion Hm as [| ? ? Hw Htl]; subst. destruct (String.eqb k key).
    + constructor; [apply Hf, Hw | exact Htl].
    + constructor; [exact Hw | apply IH, Htl].
Qed.

Lemma mapGet_mapSet_same :
  forall (V : Type) (m : SMap V) key v, mapGet (mapSet m key v) key = Some v.
Proof.
  intros V m key v. induction m as [| [k w] tl IH]; cbn [mapSet mapGet].
  - rewrite String.eqb_refl. reflexivity.
  - destruct (String.eqb k key) eqn:E; cbn [mapGet]; rewrite E; [reflexivity | exact IH].
Qed.

Lemma NoDup_snoc :
  forall (A : Type) (l : list A) (x : A), NoDup l -> ~ In x l -> NoDup (l ++ [x]).
Proof.
  intros A l x Hl Hx. induction l as [| y tl IH]; cbn.
  - constructor; [intros [] | constructor].
  - inversion Hl as [| ? ? Hy Htl]; subst. constructor.
    + intros Hin. apply in_app_or in Hin. destruct Hin as [Hin | [-> | []]].
      * exact (Hy Hin).
      * apply Hx. left. reflexivity.
    + apply IH; [exact Htl |]. intros Hin. apply Hx. right. exact Hin.
Qed.

(** ** Prefixes *)

Lemma prefixOf_refl : forall (A : Type) (l : list A), prefixOf l l.
Proof. intros A l. exists []. rewrite app_nil_r. reflexivity. Qed.

Lemma prefixOf_trans :
  forall (A : Type) (l1 l2 l3 : list A), prefixOf l1 l2 -> prefixOf l2 l3 -> prefixOf l1 l3.
Proof.
  intros A l1 l2 l3 [t1 ->] [t2 ->]. exists (t1 ++ t2). rewrite app_assoc. reflexivity.
Qed.

Lemma prefixOf_In :
  forall (A : Type) (l l' : list A) x, prefixOf l l' -> In x l -> In x l'.
Proof. intros A l l' x [t ->] H. apply in_or_app. left. exact H. Qed.

(** ** The closures keep the registry and the frames well formed *)

Lemma Quiet_refl : forall st, Quiet st st.
Proof.
  intros st. constructor; auto; [lia | apply prefixOf_refl].
Qed.

Lemma Quiet_trans : forall st1 st2 st3, Quiet st1 st2 -> Quiet st2 st3 -> Quiet st1 st3.
Proof.
  intros st1 st2 st3 [a1 a2 a3 a4 a5 a6 a7] [b1 b2 b3 b4 b5 b6 b7].
  constructor; try congruence; auto; [lia | eapply prefixOf_trans; eassumption].
Qed.

Lemma RegOK_same :
  forall st st',
    players st' = players st -> truck st' = truck st -> logs st' = logs st ->
    RegOK st -> RegOK st'.
Proof.
  intros st st' Hp Ht Hl [k n fc t l]. unfold idsOf in *.
  constructor; unfold idsOf; rewrite ?Hp, ?Ht, ?Hl; assumption.
Qed.

(** A step that touches neither the registry of players, nor the truck, the
    logs, the tick, the frames, the actions or the discussions. *)
Lemma Quiet_plain :
  forall st st',
    frames st' = frames st -> actions st' = actions st -> discussions st' = discussions st ->
    tick st' = tick st -> players st' = players st -> truck st' = truck st ->
    logs st' = logs st -> Quiet st st'.
Proof.
  intros st st' Hf Ha Hd Ht Hp Htr Hl.
  constructor; [unfold cores; rewrite Hf; reflexivity | exact Ha | exact Hd | lia | | | ].
  - unfold idsOf. rewrite Hp. apply prefixOf_refl.
  - apply RegOK_same; assumption.
  - unfold FramesOK. rewrite Hf. auto.
Qed.

Lemma Quiet_updatePlayer :
  forall agentId f st,
    (forall p, MutablePlayer.player_id (f p) = MutablePlayer.player_id p) ->
    (forall p, facingOK (MutablePlayer.facing p) -> facingOK (MutablePlayer.facing (f p))) ->
    Quiet st (updatePlayer agentId f st).
Proof.
  intros agentId f st Hid Hface.
  constructor; [reflexivity | reflexivity | reflexivity | apply Z.le_refl | | | auto].
  - unfold idsOf. cbn. rewrite mapUpdate_keys. apply prefixOf_refl.
  - intros [k n fc t l]. constructor; [| | | exact t | exact l].
    + cbn. apply Forall_mapUpdate_entry; [exact k |]. intros key v. cbn. rewrite Hid. auto.
    + unfold idsOf in *. cbn. rewrite mapUpdate_keys. exact n.
    + cbn. apply Forall_mapUpdate_entry; [exact fc |]. intros key v. cbn. apply Hface.
Qed.

Lemma Quiet_addPlayer :
  forall agentId player st,
    mapGet (players st) agentId = None ->
    MutablePlayer.player_id player = agentId ->
    facingOK (MutablePlayer.facing player) ->
    Quiet st (set_players (mapSet (players st) agentId player) st).
Proof.
  intros agentId player st E Hid Hface.
  constructor; [reflexivity | reflexivity | reflexivity | apply Z.le_refl | | | auto].
  - unfold idsOf. cbn. rewrite (mapSet_absent _ _ _ _ E), map_app. eexists. reflexivity.
  - intros [k n fc t l]. constructor; [| | | exact t | exact l].
    + cbn. rewrite (mapSet_absent _ _ _ _ E). apply Forall_app. split; [exact k |].
      constructor; [exact Hid | constructor].
    + unfold idsOf in *. cbn. rewrite (mapSet_absent _ _ _ _ E), map_app.
      cbn [map fst]. apply NoDup_snoc; [exact n |].
      apply (mapGet_None_notin _ _ _ E).
    + cbn. rewrite (mapSet_absent _ _ _ _ E). apply Forall_app. split; [exact fc |].
      constructor; [exact Hface | constructor].
Qed.

Lemma Quiet_ensurePlayer :
  forall agentId aiName avatar st, Quiet st (ensurePlayer agentId aiName avatar st).
Proof.
  intros agentId aiName avatar st. unfold ensurePlayer.
  set (st1 := if negb (mapHas (players st) agentId) then _ else _).
  assert (H1 : Quiet st st1).
  { subst st1. unfold mapHas. destruct (mapGet (players st) agentId) as [p |] eqn:E; cbn [negb].
    - destruct (negb (isEmpty aiName)); [| apply Quiet_refl].
      apply Quiet_updatePlayer; intros; auto.
    - apply Quiet_addPlayer; [exact E | reflexivity | left; reflexivity]. }
  set (st2 := if negb (isEmpty avatar) then _ else st1).
  assert (H2 : Quiet st1 st2).
  { subst st2. destruct (negb (isEmpty avatar)); [| apply Quiet_refl].
    apply (Quiet_trans _ (updatePlayer agentId (MutablePlayer.set_avatar avatar) st1)).
    - apply Quiet_updatePlayer; intros; auto.
    - apply Quiet_plain; reflexivity. }
  apply (Quiet_trans _ st1); [exact H1 |]. apply (Quiet_trans _ st2); [exact H2 |].
  destruct (negb (isEmpty aiName)); [| apply Quiet_refl].
  apply Quiet_plain; reflexivity.
Qed.

Lemma Quiet_mapFrames :
  forall (g : ReplayFrame.t -> ReplayFrame.t) st,
    (forall fr, frameCore (g fr) = frameCore fr) ->
    (forall fr, facingsOK (ReplayFrame.state fr) -> facingsOK (ReplayFrame.state (g fr))) ->
    Quiet st (set_frames (map g (frames st)) st).
Proof.
  intros g st Hcore Hface.
  constructor; [| reflexivity | reflexivity | apply Z.le_refl | apply prefixOf_refl | | ].
  - unfold cores. cbn. rewrite map_map. apply map_ext. exact Hcore.
  - apply RegOK_same; reflexivity.
  - unfold FramesOK. cbn. intros H. rewrite Forall_map.
    eapply Forall_impl; [| exact H]. exact Hface.
Qed.

Lemma Quiet_mapRegistry :
  forall (h : MutablePlayer.t -> MutablePlayer.t) st,
    (forall p, MutablePlayer.player_id (h p) = MutablePlayer.player_id p) ->
    (forall p, MutablePlayer.facing (h p) = MutablePlayer.facing p) ->
    Quiet st (set_players (map (fun kv => (fst kv, h (snd kv))) (players st)) st).
Proof.
  intros h st Hid Hface.
  assert (Hkeys : map fst (map (fun kv => (fst kv, h (snd kv))) (players st)) =
                  map fst (players st)).
  { rewrite map_map. apply map_ext. reflexivity. }
  constructor; [reflexivity | reflexivity | reflexivity | apply Z.le_refl | | | auto].
  - unfold idsOf. cbn. rewrite Hkeys. apply prefixOf_refl.
  - intros [k n fc t l]. constructor; [| | | exact t | exact l].
    + cbn. rewrite Forall_map. eapply Forall_impl; [| exact k]. cbn. intros kv Hkv.
      rewrite Hid. exact Hkv.
    + unfold idsOf in *. cbn. rewrite Hkeys. exact n.
    + cbn. rewrite Forall_map. eapply Forall_impl; [| exact fc]. cbn. intros kv Hkv.
      rewrite Hface. exact Hkv.
Qed.

Lemma frameCore_mapPlayers :
  forall f fr,
    (forall p, PlayerState.player_id (f p) = PlayerState.player_id p) ->
    frameCore (ReplayFrame.mapPlayers f fr) = frameCore fr.
Proof.
  intros f fr Hid. unfold frameCore, ReplayFrame.mapPlayers, playerIds. cbn.
  f_equal. rewrite map_map. apply map_ext. exact Hid.
Qed.

Lemma facingsOK_mapPlayers :
  forall f fr,
    (forall p, facingOK (PlayerState.facing p) -> facingOK (PlayerState.facing (f p))) ->
    facingsOK (ReplayFrame.state fr) ->
    facingsOK (ReplayFrame.state (ReplayFrame.mapPlayers f fr)).
Proof.
  intros f fr Hf H. unfold facingsOK, ReplayFrame.mapPlayers in *. cbn.
  rewrite Forall_map. eapply Forall_impl; [| exact H]. exact Hf.
Qed.

Lemma upgradeHp_id :
  forall next p, PlayerState.player_id (upgradeHp next p) = PlayerState.player_id p.
Proof. intros. unfold upgradeHp. destruct (_ =? _); reflexivity. Qed.

Lemma upgradeHp_facing :
  forall next p, PlayerState.facing (upgradeHp next p) = PlayerState.facing p.
Proof. intros. unfold upgradeHp. destruct (_ =? _); reflexivity. Qed.

Lemma Quiet_backfillFallbackHp :
  forall nextMaxHp st, Quiet st (backfillFallbackHp nextMaxHp st).
Proof.
  intros nextMaxHp st. unfold backfillFallbackHp.
  destruct (negb (maxHpSeen st <? nextMaxHp)); [apply Quiet_refl |]. cbv zeta.
  set (st1 := set_maxHpSeen nextMaxHp st).
  set (st2 := set_players _ st1).
  apply (Quiet_trans st st1); [apply Quiet_plain; reflexivity |].
  apply (Quiet_trans st1 st2).
  - subst st2. apply (Quiet_mapRegistry (upgradeMutableHp nextMaxHp) st1);
      intros p; unfold upgradeMutableHp; destruct (_ =? _); reflexivity.
  - apply (Quiet_mapFrames (ReplayFrame.mapPlayers (upgradeHp nextMaxHp)) st2).
    + intros fr. apply frameCore_mapPlayers, upgradeHp_id.
    + intros fr. apply facingsOK_mapPlayers. intros p. rewrite upgradeHp_facing. auto.
Qed.

Lemma updateFirst_map :
  forall (A B : Type) (proj : A -> B) (pred : A -> bool) (f : A -> A) (l : list A),
    (forall x, proj (f x) = proj x) -> map proj (updateFirst pred f l) = map proj l.
Proof.
  intros A B proj pred f l H. induction l as [| x tl IH]; cbn [updateFirst map]; [reflexivity |].
  destruct (pred x); cbn [map]; [rewrite H | rewrite IH]; reflexivity.
Qed.

Lemma updateFirst_Forall :
  forall (A : Type) (P : A -> Prop) (pred : A -> bool) (f : A -> A) (l : list A),
    (forall x, P (f x)) -> Forall P l -> Forall P (updateFirst pred f l).
Proof.
  intros A P pred f l Hf H. induction H as [| x tl Hx Htl IH]; cbn [updateFirst].
  - constructor.
  - destruct (pred x); constructor; auto.
Qed.

Lemma Quiet_patchSpawn :
  forall agentId spawn sign st,
    facingOK sign ->
    Quiet st (set_frames (map (patchSpawn agentId spawn sign) (frames st)) st).
Proof.
  intros agentId spawn sign st Hsign. apply Quiet_mapFrames.
  - intros fr. unfold frameCore, patchSpawn, playerIds. cbn. f_equal.
    apply updateFirst_map. reflexivity.
  - intros fr H. unfold facingsOK, patchSpawn in *. cbn.
    apply updateFirst_Forall; [intros p; exact Hsign | exact H].
Qed.

Lemma capped_push :
  forall (A : Type) (l : list A) (x : A),
    (List.length
       (if (120 <? List.length (l ++ [x]))%nat
        then skipn (List.length (l ++ [x]) - 120) (l ++ [x]) else l ++ [x]) <= 120)%nat.
Proof.
  intros A l x.
  destruct (Nat.ltb_spec 120 (List.length (l ++ [x]))) as [Hlong | Hshort].
  - rewrite length_skipn. lia.
  - exact Hshort.
Qed.

Lemma Quiet_pushLog : forall kind payload st, Quiet st (pushLog kind payload st).
Proof.
  intros kind payload st.
  constructor; [reflexivity | reflexivity | reflexivity | apply Z.le_refl |
                apply prefixOf_refl | | auto].
  intros [k n fc t l]. constructor; try assumption.
  exact (capped_push _ (logs st) (LogEntry.mk (seq st) (tick st) kind payload)).
Qed.

Lemma signOf_facingOK : forall n, facingOK (signOf n).
Proof. intros n. unfold signOf, facingOK. destruct (0 <=? n); auto. Qed.

Lemma Quiet_updateTruck : forall payload wrap st, Quiet st (updateTruck payload wrap st).
Proof.
  intros payload wrap st.
  constructor; [reflexivity | reflexivity | reflexivity | apply Z.le_refl |
                apply prefixOf_refl | | auto].
  intros [k n fc t l]. constructor; try assumption.
  unfold updateTruck, truckOK. cbn. split; [apply signOf_facingOK | lia].
Qed.

Lemma Quiet_fold_left :
  forall (A : Type) (f : Recon -> A -> Recon) (l : list A),
    (forall st x, Quiet st (f st x)) -> forall st, Quiet st (fold_left f l st).
Proof.
  intros A f l H. induction l as [| x tl IH]; intros st; [apply Quiet_refl |].
  cbn [fold_left]. eapply Quiet_trans; [apply H | apply IH].
Qed.

Ltac keeps_player :=
  intros;
  repeat match goal with
    | |- context [match ?x with _ => _ end] => destruct x
    end;
  cbn; unfold facingOK; auto.

Ltac quiet_step :=
  match goal with
  | |- Quiet ?s ?s => apply Quiet_refl
  | |- Quiet ?s (let x := ?v in @?body x) =>
      let y := fresh x in
      pose (y := v); change (Quiet s (body y)); cbv beta
  | |- Quiet _ (if ?b then _ else _) => destruct b
  | |- Quiet _ (match ?x with _ => _ end) => destruct x
  | |- Quiet ?s (ensurePlayer _ _ _ ?t) =>
      apply (Quiet_trans s t); [| apply Quiet_ensurePlayer]
  | |- Quiet ?s (updatePlayer _ _ ?t) =>
      apply (Quiet_trans s t); [| apply Quiet_updatePlayer; keeps_player]
  | |- Quiet ?s (setPlayerMessage _ _ ?t) =>
      apply (Quiet_trans s t); [| apply Quiet_updatePlayer; keeps_player]
  | |- Quiet ?s (backfillFallbackHp _ ?t) =>
      apply (Quiet_trans s t); [| apply Quiet_backfillFallbackHp]
  | |- Quiet ?s (pushLog _ _ ?t) =>
      apply (Quiet_trans s t); [| apply Quiet_pushLog]
  | |- Quiet ?s (systemChatter _ ?t) =>
      apply (Quiet_trans s t); [| apply Quiet_pushLog]
  | |- Quiet ?s (updateTruck _ _ ?t) =>
      apply (Quiet_trans s t); [| apply Quiet_updateTruck]
  | |- Quiet ?s (fold_left _ _ ?t) =>
      apply (Quiet_trans s t); [| apply Quiet_fold_left; intros]
  | |- Quiet ?s (set_frames (map (patchSpawn _ _ _) (frames ?t)) ?t) =>
      apply (Quiet_trans s t); [| apply Quiet_patchSpawn; keeps_player]
  | |- Quiet ?s (set_knownPositionByAgent _ ?t) =>
      apply (Quiet_trans s t); [| apply Quiet_plain; reflexivity]
  | |- Quiet ?s (set_inferredSpawnDone _ ?t) =>
      apply (Quiet_trans s t); [| apply Quiet_plain; reflexivity]
  | |- Quiet ?s (set_discussionByTurnAgent _ ?t) =>
      apply (Quiet_trans s t); [| apply Quiet_plain; reflexivity]
  | |- Quiet ?s (set_actionByTurnAgent _ ?t) =>
      apply (Quiet_trans s t); [| apply Quiet_plain; reflexivity]
  | |- Quiet ?s (set_lastIntentByAgent _ ?t) =>
      apply (Quiet_trans s t); [| apply Quiet_plain; reflexivity]
  | |- Quiet ?s (set_trackLength _ ?t) =>
      apply (Quiet_trans s t); [| apply Quiet_plain; reflexivity]
  | |- Quiet ?s ?y => is_var y; subst y
  end.

Lemma Quiet_applyHit :
  forall payload agentId player st, Quiet st (applyHit payload agentId player st).
Proof.
  intros. unfold applyHit. cbv zeta.
  destruct (prop payload "respawned_position") as [[| | respawn | | |] |];
    repeat quiet_step.
Qed.

Lemma Quiet_applyMove :
  forall payload agentId player st, Quiet st (applyMove payload agentId player st).
Proof.
  intros. unfold applyMove. repeat quiet_step.
Qed.

Lemma Quiet_ensureCommentatorExists : forall st, Quiet st (ensureCommentatorExists st).
Proof.
  intros st. unfold ensureCommentatorExists. repeat quiet_step.
Qed.

Lemma Quiet_seedRoster : forall metas st, Quiet st (seedRoster metas st).
Proof.
  intros metas st. unfold seedRoster. repeat quiet_step.
Qed.

Lemma ensurePlayer_has :
  forall agentId aiName avatar st, In agentId (idsOf (ensurePlayer agentId aiName avatar st)).
Proof.
  intros agentId aiName avatar st. unfold ensurePlayer.
  set (st1 := if negb (mapHas (players st) agentId) then _ else _).
  assert (H1 : In agentId (idsOf st1)).
  { subst st1. unfold mapHas. destruct (mapGet (players st) agentId) as [p |] eqn:E; cbn [negb].
    - apply (prefixOf_In _ (idsOf st)); [| apply (mapGet_Some_in _ _ _ _ E)].
      destruct (negb (isEmpty aiName)); [| apply prefixOf_refl].
      apply q_ids, Quiet_updatePlayer; keeps_player.
    - unfold idsOf. cbn. rewrite (mapSet_absent _ _ _ _ E), map_app.
      apply in_or_app. right. left. reflexivity. }
  set (st2 := if negb (isEmpty avatar) then _ else st1).
  assert (H2 : Quiet st1 st2).
  { subst st2. repeat quiet_step.
    match goal with
    | |- Quiet ?s (set_avatarById _ ?t) => apply (Quiet_trans s t); [| apply Quiet_plain; reflexivity]
    end.
    repeat quiet_step. }
  apply (prefixOf_In _ (idsOf st2)); [| exact (prefixOf_In _ _ _ _ (q_ids _ _ H2) H1)].
  destruct (negb (isEmpty aiName)); [| apply prefixOf_refl].
  apply q_ids, Quiet_plain; reflexivity.
Qed.

Lemma Pushed_pushFrame : forall label pre, Pushed pre label (pushFrame label pre).
Proof. intros label pre. repeat split. Qed.

Ltac frame_step :=
  match goal with
  | |- Handled ?s (pushFrame ?l ?t) =>
      apply (HandledFrame s _ t l);
        [ | apply Pushed_pushFrame | reflexivity | reflexivity | reflexivity ]
  end.

Lemma Handled_onGameStarted : forall payload st, Handled st (onGameStarted payload st).
Proof.
  intros. unfold onGameStarted. repeat open_let. frame_step. repeat quiet_step.
Qed.

Lemma Handled_onPlayerHit : forall payload st, Handled st (onPlayerHit payload st).
Proof.
  intros. unfold onPlayerHit. repeat open_let. frame_step.
  repeat first
    [ quiet_step
    | match goal with
      | |- Quiet ?s (applyHit _ _ _ ?t) => apply (Quiet_trans s t); [| apply Quiet_applyHit]
      end ].
Qed.

Lemma Handled_onTruckMoved : forall payload st, Handled st (onTruckMoved payload st).
Proof.
  intros. unfold onTruckMoved. frame_step. repeat quiet_step.
Qed.

Lemma Handled_onCommentatorBroadcast :
  forall JSON_parse payload st, Handled st (onCommentatorBroadcast JSON_parse payload st).
Proof.
  intros. unfold onCommentatorBroadcast. repeat open_let. frame_step. repeat quiet_step.
Qed.

Lemma Handled_onPublicBroadcast :
  forall JSON_parse payload st, Handled st (onPublicBroadcast JSON_parse payload st).
Proof.
  intros. unfold onPublicBroadcast. repeat open_let. frame_step. repeat quiet_step.
Qed.

Lemma isAgentTextEvent_plain :
  forall name, isAgentTextEvent name = true -> isPlainLabel name = true.
Proof.
  intros name. unfold isAgentTextEvent, isPlainLabel. cbn [existsb].
  repeat match goal with
    | |- context [String.eqb name ?x] => destruct (String.eqb name x)
    end; cbn; intros H; try reflexivity; discriminate.
Qed.

Lemma Handled_onPlayerMoved : forall payload st, Handled st (onPlayerMoved payload st).
Proof.
  intros payload st. unfold onPlayerMoved. cbv zeta.
  set (agentId := asString (prop payload "agent_id") EmptyString).
  set (aiName := asString (prop payload "ai_name") agentId).
  set (seeded := ensurePlayer agentId aiName _ st).
  set (moved := match mapGet (players seeded) agentId with
                | Some player => applyMove payload agentId player seeded
                | None => seeded
                end).
  assert (Hseed : Quiet st seeded) by (subst seeded; apply Quiet_ensurePlayer).
  assert (Hmoved : Quiet seeded moved).
  { subst moved. destruct (mapGet (players seeded) agentId);
      [apply Quiet_applyMove | apply Quiet_refl]. }
  apply (HandledMove st _ moved
           (moveAction payload agentId aiName (pushFrame "player_moved" moved))).
  - eapply Quiet_trans; eassumption.
  - repeat split.
  - reflexivity.
  - reflexivity.
  - rewrite moveAction_frameIndex. cbn [pushFrame frames set_frames].
    rewrite length_app. cbn [List.length]. lia.
  - reflexivity.
  - cbn. lia.
  - apply (prefixOf_In _ (idsOf seeded)); [apply (q_ids _ _ Hmoved) |].
    subst seeded. apply ensurePlayer_has.
Qed.

Lemma onAgentInteraction_stages :
  forall JSON_parse name payload st,
    onAgentInteraction JSON_parse name payload st =
    if isAgentTextEvent name then
      let pushed := pushFrame name (agentSpoken JSON_parse name payload st) in
      if String.eqb name "discussion_response" &&
         negb (isEmpty (asString (prop payload "agent_id") EmptyString))
      then set_discussions (discussions pushed ++ [discussionOf JSON_parse payload pushed]) pushed
      else pushed
    else agentRostered payload st.
Proof. reflexivity. Qed.

Lemma Quiet_agentRostered : forall payload st, Quiet st (agentRostered payload st).
Proof. intros. unfold agentRostered. repeat quiet_step. Qed.

Lemma Quiet_agentSpoken :
  forall JSON_parse name payload st, Quiet st (agentSpoken JSON_parse name payload st).
Proof.
  intros. unfold agentSpoken.
  repeat first
    [ quiet_step
    | match goal with
      | |- Quiet ?s (agentRostered _ ?t) =>
          apply (Quiet_trans s t); [| apply Quiet_agentRostered]
      end ].
Qed.

Lemma agentRostered_has :
  forall payload st,
    isEmpty (asString (prop payload "agent_id") EmptyString) = false ->
    In (asString (prop payload "agent_id") EmptyString) (idsOf (agentRostered payload st)).
Proof.
  intros payload st Hne. unfold agentRostered. cbv zeta. rewrite Hne.
  set (seeded := ensurePlayer _ _ _ st).
  apply (prefixOf_In _ (idsOf seeded)); [| subst seeded; apply ensurePlayer_has].
  apply q_ids. repeat quiet_step.
Qed.

Lemma agentSpoken_has :
  forall JSON_parse name payload st,
    isEmpty (asString (prop payload "agent_id") EmptyString) = false ->
    In (asString (prop payload "agent_id") EmptyString)
       (idsOf (agentSpoken JSON_parse name payload st)).
Proof.
  intros JSON_parse name payload st Hne.
  apply (prefixOf_In _ (idsOf (agentRostered payload st)));
    [| apply agentRostered_has, Hne].
  apply q_ids. unfold agentSpoken. repeat quiet_step.
Qed.

Lemma Handled_onAgentInteraction :
  forall JSON_parse name payload st,
    Handled st (onAgentInteraction JSON_parse name payload st).
Proof.
  intros. rewrite onAgentInteraction_stages.
  destruct (isAgentTextEvent name) eqn:Etext.
  2: { apply HandledQuiet, Quiet_agentRostered. }
  cbv zeta.
  destruct (String.eqb_spec name "discussion_response") as [-> | Hne];
    [destruct (isEmpty (asString (prop payload "agent_id") EmptyString)) eqn:Eempty |];
    cbn [andb negb].
  - apply (HandledFrame st _ (agentSpoken JSON_parse "discussion_response" payload st)
             "discussion_response");
      [apply Quiet_agentSpoken | apply Pushed_pushFrame | reflexivity | reflexivity | reflexivity].
  - apply (HandledDiscussion st _ (agentSpoken JSON_parse "discussion_response" payload st)
             (discussionOf JSON_parse payload
                (pushFrame "discussion_response"
                   (agentSpoken JSON_parse "discussion_response" payload st)))).
    + apply Quiet_agentSpoken.
    + repeat split.
    + reflexivity.
    + reflexivity.
    + unfold discussionOf. cbn [ReplayDiscussion.frameIndex pushFrame frames set_frames].
      rewrite length_app. cbn [List.length]. lia.
    + reflexivity.
    + apply agentSpoken_has, Eempty.
  - apply (HandledFrame st _ (agentSpoken JSON_parse name payload st) name);
      [apply Quiet_agentSpoken | apply Pushed_pushFrame | | reflexivity | reflexivity].
    apply isAgentTextEvent_plain, Etext.
Qed.

Lemma Handled_dispatchEvent :
  forall JSON_parse name messageType payload st,
    Handled st (dispatchEvent JSON_parse name messageType payload st).
Proof.
  intros. unfold dispatchEvent.
  destruct (String.eqb name "game_started"); [apply Handled_onGameStarted |].
  destruct (String.eqb messageType "agent_interaction"); [apply Handled_onAgentInteraction |].
  destruct (String.eqb name "player_moved"); [apply Handled_onPlayerMoved |].
  destruct (String.eqb name "player_hit"); [apply Handled_onPlayerHit |].
  destruct (String.eqb name "truck_moved"); [apply Handled_onTruckMoved |].
  destruct (String.eqb name "commentator_broadcast"); [apply Handled_onCommentatorBroadcast |].
  destruct (String.eqb name "public_broadcast"); [apply Handled_onPublicBroadcast |].
  destruct (String.eqb_spec name "turn_finished") as [-> | _].
  - cbn [orb]. frame_step. apply Quiet_refl.
  - destruct (String.eqb_spec name "turn_started") as [-> | _]; cbn [orb].
    + frame_step. apply Quiet_refl.
    + apply HandledQuiet, Quiet_refl.
Qed.

(** ** The invariant of the loop *)

Lemma StronglySorted_app_one :
  forall (A : Type) (R : A -> A -> Prop) (l : list A) (y : A),
    StronglySorted R l -> Forall (fun x => R x y) l -> StronglySorted R (l ++ [y]).
Proof.
  intros A R l y Hs Hy. induction l as [| x tl IH]; cbn.
  - constructor; constructor.
  - inversion Hs as [| ? ? Htl Hx]; subst. inversion Hy as [| ? ? Hxy Htly]; subst.
    constructor; [apply IH; assumption |].
    apply Forall_app. split; [assumption | constructor; [assumption | constructor]].
Qed.

Lemma coreAt_app :
  forall cs more i c, coreAt cs i = Some c -> coreAt (cs ++ more) i = Some c.
Proof.
  intros cs more i c. unfold coreAt. destruct (i <? 0); [discriminate |].
  intros H. rewrite nth_error_app1; [exact H |].
  apply nth_error_Some. congruence.
Qed.

Lemma coreAt_last :
  forall cs c, coreAt (cs ++ [c]) (Z.of_nat (List.length cs)) = Some c.
Proof.
  intros cs c. unfold coreAt.
  destruct (Z.ltb_spec (Z.of_nat (List.length cs)) 0) as [Hneg | _]; [lia |].
  rewrite Nat2Z.id, nth_error_app2 by lia. rewrite Nat.sub_diag. reflexivity.
Qed.

Lemma coreAt_bound :
  forall cs i c, coreAt cs i = Some c -> 0 <= i < Z.of_nat (List.length cs).
Proof.
  intros cs i c. unfold coreAt. destruct (Z.ltb_spec i 0) as [| Hpos]; [discriminate |].
  intros H. assert (Hlt : (Z.to_nat i < List.length cs)%nat)
    by (apply nth_error_Some; congruence).
  lia.
Qed.

Lemma indicesOf_app :
  forall label cs i c,
    indicesOf label i (cs ++ [c]) =
    indicesOf label i cs ++
      (if String.eqb (core_label c) label then [i + Z.of_nat (List.length cs)] else []).
Proof.
  intros label cs. induction cs as [| x tl IH]; intros i c.
  - cbn. rewrite Z.add_0_r. destruct (String.eqb (core_label c) label); reflexivity.
  - cbn [app indicesOf List.length]. rewrite IH.
    replace (i + 1 + Z.of_nat (List.length tl)) with (i + Z.of_nat (S (List.length tl))) by lia.
    destruct (String.eqb (core_label x) label); reflexivity.
Qed.

Lemma plain_not_moved :
  forall label, isPlainLabel label = true -> String.eqb label "player_moved" = false.
Proof.
  intros label H. destruct (String.eqb_spec label "player_moved") as [-> | _];
    [discriminate | reflexivity].
Qed.

Lemma LoopOK_Quiet : forall st st', Quiet st st' -> LoopOK st -> LoopOK st'.
Proof.
  intros st st' [qc qa qd qt qi qr qf] [lr lf lt ltop].
  constructor; [auto | auto | rewrite qc, qa, qd; exact lt |].
  rewrite qc. eapply Forall_impl; [| exact ltop]. cbn. intros c [Htick Hids].
  split; [lia | eapply prefixOf_trans; eassumption].
Qed.

Lemma playerIds_cloneState :
  forall st,
    RegOK st ->
    playerIds (cloneState (tick st) (trackLength st) (players st) (truck st) (logs st)) =
    idsOf st.
Proof.
  intros st [Hkeys _ _ _ _]. unfold playerIds, cloneState, idsOf, mapValues. cbn.
  rewrite !map_map. apply map_ext_in. intros kv Hin.
  rewrite Forall_forall in Hkeys. exact (Hkeys kv Hin).
Qed.

Lemma Pushed_cores :
  forall pre label st',
    RegOK pre -> Pushed pre label st' -> cores st' = cores pre ++ [pushedCore pre label].
Proof.
  intros pre label st' Hreg (Hf & _). unfold cores. rewrite Hf, map_app. cbn [map].
  f_equal. f_equal. unfold frameCore, pushedCore. cbn [ReplayFrame.state ReplayFrame.label].
  rewrite (playerIds_cloneState pre Hreg). reflexivity.
Qed.

Lemma Pushed_RegOK :
  forall pre label st', RegOK pre -> Pushed pre label st' -> RegOK st'.
Proof.
  intros pre label st' [Hk Hn Hf Ht Hl] (_ & Hp & _ & Hlogs & Htruck).
  constructor; unfold idsOf; rewrite ?Hp, ?Hlogs, ?Htruck; assumption.
Qed.

Lemma Pushed_FramesOK :
  forall pre label st', RegOK pre -> FramesOK pre -> Pushed pre label st' -> FramesOK st'.
Proof.
  intros pre label st' [_ _ Hf _ _] Hfr (Hframes & _). unfold FramesOK. rewrite Hframes.
  apply Forall_app. split; [exact Hfr |]. constructor; [| constructor].
  unfold facingsOK, cloneState, mapValues. cbn. rewrite map_map.
  apply Forall_map. eapply Forall_impl; [| exact Hf]. intros kv H. exact H.
Qed.

Lemma pushedCore_OK :
  forall pre label, RegOK pre -> isFrameLabel label = true -> coreOK (pushedCore pre label).
Proof.
  intros pre label [_ Hn _ Ht Hl] Hlabel. repeat split; cbn; try assumption; apply Ht.
Qed.

Lemma cores_length : forall st, List.length (cores st) = List.length (frames st).
Proof. intros st. apply length_map. Qed.

Lemma actionOK_app : forall cs more a, actionOK cs a -> actionOK (cs ++ more) a.
Proof.
  intros cs more a (c & Hat & H). exists c. split; [apply coreAt_app; exact Hat | exact H].
Qed.

Lemma discussionOK_app : forall cs more d, discussionOK cs d -> discussionOK (cs ++ more) d.
Proof.
  intros cs more d (Hpos & c & Hat & H). split; [exact Hpos |].
  exists c. split; [apply coreAt_app; exact Hat | exact H].
Qed.

(** What every push keeps of the invariant, whatever comes with the
    frame. *)
Lemma LoopOK_push_common :
  forall pre label st',
    LoopOK pre -> Pushed pre label st' -> isFrameLabel label = true ->
    RegOK st' /\ FramesOK st' /\
    cores st' = cores pre ++ [pushedCore pre label] /\
    StronglySorted coreLe (cores st') /\ Forall coreOK (cores st') /\
    Forall (fun c => core_tick c <= tick st' /\ prefixOf (core_ids c) (idsOf st')) (cores st').
Proof.
  intros pre label st' [lr lf [tc te _ _ _ _] ltop] Hpush Hlabel.
  pose proof (Pushed_cores pre label st' lr Hpush) as Hc.
  pose proof Hpush as (Hf & Hp & Ht & Hl & Htr).
  split; [eapply Pushed_RegOK; eassumption |].
  split; [eapply Pushed_FramesOK; eassumption |].
  split; [exact Hc |]. rewrite Hc.
  split.
  { apply StronglySorted_app_one; [exact tc |].
    eapply Forall_impl; [| exact ltop]. intros c H. exact H. }
  split.
  { apply Forall_app. split; [exact te |].
    constructor; [apply pushedCore_OK; assumption | constructor]. }
  unfold idsOf. rewrite Ht, Hp. apply Forall_app. split; [exact ltop |].
  constructor; [| constructor]. cbn. split; [lia | apply prefixOf_refl].
Qed.

Lemma LoopOK_Handled : forall st st', Handled st st' -> LoopOK st -> LoopOK st'.
Proof.
  intros st st' H Hok. destruct H as [Hq | pre label Hq Hpush Hlabel Ha Hd
    | pre d Hq Hpush Ha Hd Hidx Htick Hin | pre a Hq Hpush Ha Hd Hidx Htick Hsteps Hin].
  - eapply LoopOK_Quiet; eassumption.
  - pose proof (LoopOK_Quiet _ _ Hq Hok) as Hpre.
    assert (Hfl : isFrameLabel label = true)
      by (unfold isFrameLabel; rewrite Hlabel; apply orb_true_r).
    destruct (LoopOK_push_common pre label st' Hpre Hpush Hfl)
      as (Hr & Hfr & Hc & Hs & He & Htop).
    destruct Hpre as [_ _ [_ _ tm ta td tdo] _].
    constructor; [exact Hr | exact Hfr | | exact Htop].
    constructor; [exact Hs | exact He | | | |].
    + rewrite Ha, Hc, indicesOf_app. cbn [core_label pushedCore].
      rewrite (plain_not_moved label Hlabel), app_nil_r. exact tm.
    + rewrite Ha, Hc. eapply Forall_impl; [| exact ta]. intros x. apply actionOK_app.
    + rewrite Hd, Hc. eapply Forall_impl; [| exact td]. intros x. apply discussionOK_app.
    + rewrite Hd. exact tdo.
  - pose proof (LoopOK_Quiet _ _ Hq Hok) as Hpre.
    destruct (LoopOK_push_common pre "discussion_response" st' Hpre Hpush eq_refl)
      as (Hr & Hfr & Hc & Hs & He & Htop).
    destruct Hpre as [_ _ [_ _ tm ta td tdo] _].
    constructor; [exact Hr | exact Hfr | | exact Htop].
    constructor; [exact Hs | exact He | | | |].
    + rewrite Ha, Hc, indicesOf_app. cbn [core_label pushedCore String.eqb].
      cbn. rewrite app_nil_r. exact tm.
    + rewrite Ha, Hc. eapply Forall_impl; [| exact ta]. intros x. apply actionOK_app.
    + rewrite Hd, Hc. apply Forall_app. split.
      * eapply Forall_impl; [| exact td]. intros x. apply discussionOK_app.
      * constructor; [| constructor]. split; [lia |].
        exists (pushedCore pre "discussion_response").
        rewrite Hidx, <- cores_length.
        split; [apply coreAt_last |]. repeat split; cbn; auto.
    + rewrite Hd, map_app. cbn [map]. apply StronglySorted_app_one; [exact tdo |].
      apply Forall_map. eapply Forall_impl; [| exact td].
      intros x (_ & c & Hat & _). apply coreAt_bound in Hat.
      rewrite cores_length in Hat. lia.
  - pose proof (LoopOK_Quiet _ _ Hq Hok) as Hpre.
    destruct (LoopOK_push_common pre "player_moved" st' Hpre Hpush eq_refl)
      as (Hr & Hfr & Hc & Hs & He & Htop).
    destruct Hpre as [_ _ [_ _ tm ta td tdo] _].
    constructor; [exact Hr | exact Hfr | | exact Htop].
    constructor; [exact Hs | exact He | | | |].
    + rewrite Ha, Hc, indicesOf_app, map_app. cbn [core_label pushedCore map].
      rewrite String.eqb_refl, tm, Hidx, <- cores_length. reflexivity.
    + rewrite Ha, Hc. apply Forall_app. split.
      * eapply Forall_impl; [| exact ta]. intros x. apply actionOK_app.
      * constructor; [| constructor].
        exists (pushedCore pre "player_moved").
        rewrite Hidx, <- cores_length.
        split; [apply coreAt_last |]. repeat split; cbn; auto.
    + rewrite Hd, Hc. eapply Forall_impl; [| exact td]. intros x. apply discussionOK_app.
    + rewrite Hd. exact tdo.
Qed.

(** ** The loop over the messages *)

Lemma Quiet_prelude :
  forall payload t st,
    Quiet st (applyTrackHint payload (set_tick (Z.max (tick st) t) st)).
Proof.
  intros payload t st. apply (Quiet_trans st (set_tick (Z.max (tick st) t) st)).
  - constructor; [reflexivity | reflexivity | reflexivity | cbn; lia | apply prefixOf_refl
                  | apply RegOK_same; reflexivity | auto].
  - unfold applyTrackHint. destruct (compactTrackSize payload);
      [apply Quiet_plain; reflexivity | apply Quiet_refl].
Qed.

Lemma Handled_after_Quiet :
  forall st1 st2 st3, Quiet st1 st2 -> Handled st2 st3 -> Handled st1 st3.
Proof.
  intros st1 st2 st3 Hq [H | pre label H Hp Hl Ha Hd | pre d H Hp Ha Hd Hi Ht Hin
                         | pre a H Hp Ha Hd Hi Ht Hs Hin].
  - apply HandledQuiet. eapply Quiet_trans; eassumption.
  - apply (HandledFrame st1 st3 pre label); try assumption. eapply Quiet_trans; eassumption.
  - apply (HandledDiscussion st1 st3 pre d); try assumption. eapply Quiet_trans; eassumption.
  - apply (HandledMove st1 st3 pre a); try assumption. eapply Quiet_trans; eassumption.
Qed.

Lemma Handled_processMessage :
  forall JSON_parse st message st',
    processMessage JSON_parse st message = Some st' -> Handled st st'.
Proof.
  intros JSON_parse st message st' H.
  assert (Hgen :
    st' = dispatchEvent JSON_parse
            (asString (prop (asRecord (Some message)) "event") EmptyString)
            (asString (prop (asRecord (Some message)) "message_type") EmptyString)
            (asRecord (prop (asRecord (Some message)) "payload"))
            (applyTrackHint (asRecord (prop (asRecord (Some message)) "payload"))
               (set_tick
                  (Z.max (tick st) (asNumber (prop (asRecord (Some message)) "turn") (tick st)))
                  st))).
  { unfold processMessage in H.
    destruct message; try discriminate; cbv zeta in H; injection H as <-; reflexivity. }
  rewrite Hgen. eapply Handled_after_Quiet; [apply Quiet_prelude | apply Handled_dispatchEvent].
Qed.

Lemma LoopOK_processMessages :
  forall JSON_parse coreMessages st st',
    processMessages JSON_parse st coreMessages = Some st' -> LoopOK st -> LoopOK st'.
Proof.
  intros JSON_parse coreMessages. induction coreMessages as [| m rest IH]; intros st st' H Hok.
  - cbn in H. injection H as <-. exact Hok.
  - cbn [processMessages] in H.
    destruct (processMessage JSON_parse st m) as [st1 |] eqn:E; [| discriminate].
    apply (IH st1 st' H). eapply LoopOK_Handled; [| exact Hok].
    eapply Handled_processMessage; exact E.
Qed.

Lemma TimelineOK_nil : TimelineOK [] [] [].
Proof. constructor; constructor. Qed.

Lemma LoopOK_initialRecon : LoopOK initialRecon.
Proof.
  constructor.
  - constructor;
      [constructor | constructor | constructor | split; [left; reflexivity | cbn; lia]
       | cbn; lia].
  - constructor.
  - exact TimelineOK_nil.
  - constructor.
Qed.

Lemma LoopOK_startOf : forall input, LoopOK (startOf input).
Proof.
  intros input. apply (LoopOK_Quiet initialRecon); [| exact LoopOK_initialRecon].
  unfold startOf. eapply Quiet_trans; [apply Quiet_seedRoster | apply Quiet_ensureCommentatorExists].
Qed.

(** ** The repair pass moves players and does nothing else *)

Lemma set_position_blank :
  forall v p, blankPosition (PlayerState.set_position v p) = blankPosition p.
Proof. intros v p. reflexivity. Qed.

Lemma repairPlayer_blank :
  forall prev curr movedAction player,
    blankPosition (repairPlayer prev curr movedAction player) = blankPosition player.
Proof.
  intros prev curr movedAction player. unfold repairPlayer.
  destruct (prevByIdGet _ _); [| reflexivity].
  destruct (_ && _); [reflexivity |]. cbv zeta.
  destruct movedAction as [a |].
  - destruct (String.eqb _ _).
    + destruct (_ || _); [apply set_position_blank | reflexivity].
    + destruct (2 <? _); [apply set_position_blank | reflexivity].
  - destruct (2 <? _); [apply set_position_blank | reflexivity].
Qed.

Lemma repairFrame_blank :
  forall actions i prev curr,
    withoutPositions (repairFrame actions i prev curr) = withoutPositions curr.
Proof.
  intros actions i prev curr. unfold withoutPositions, repairFrame, ReplayFrame.mapPlayers.
  cbn [ReplayFrame.state ReplayFrame.label]. unfold GameState.set_players.
  cbn [GameState.players GameState.tick GameState.track_length GameState.truck GameState.items
       GameState.logs].
  rewrite map_map. do 2 f_equal. apply map_ext. intros p. apply repairPlayer_blank.
Qed.

Lemma repairFrom_blank :
  forall actions rest i prev,
    map withoutPositions (repairFrom actions i prev rest) = map withoutPositions rest.
Proof.
  intros actions rest. induction rest as [| curr tl IH]; intros i prev; [reflexivity |].
  cbn [repairFrom map]. rewrite IH, repairFrame_blank. reflexivity.
Qed.

Lemma frameCore_blank : forall fr, frameCore (withoutPositions fr) = frameCore fr.
Proof.
  intros fr. unfold frameCore, withoutPositions, playerIds.
  cbn [ReplayFrame.state ReplayFrame.label GameState.players GameState.tick
       GameState.track_length GameState.truck GameState.logs].
  rewrite map_map. reflexivity.
Qed.

Lemma facings_blank :
  forall fr,
    map PlayerState.facing (GameState.players (ReplayFrame.state (withoutPositions fr))) =
    map PlayerState.facing (GameState.players (ReplayFrame.state fr)).
Proof.
  intros fr. unfold withoutPositions. cbn [ReplayFrame.state GameState.players].
  rewrite map_map. reflexivity.
Qed.

Lemma map_through_blank :
  forall (B : Type) (g : ReplayFrame.t -> B) (l l' : list ReplayFrame.t),
    (forall fr, g (withoutPositions fr) = g fr) ->
    map withoutPositions l = map withoutPositions l' -> map g l = map g l'.
Proof.
  intros B g l l' Hg H.
  rewrite <- (map_ext _ _ Hg l), <- (map_ext _ _ Hg l'), <- !map_map with (g := g)
    (f := withoutPositions), H. reflexivity.
Qed.

(** ** What every returned timeline satisfies *)

Lemma parseLegacyExport_loop :
  forall JSON_parse input tl,
    parseLegacyExport JSON_parse input = Some tl ->
    tl = ReplayTimeline.empty \/
    exists st,
      processMessages JSON_parse (startOf input) (coreMessagesOf input) = Some st /\
      LoopOK st /\
      tl = ReplayTimeline.mk (repairFrames (actions st) (frames st)) (actions st)
             (discussions st).
Proof.
  intros JSON_parse input tl H. unfold parseLegacyExport in H.
  fold (coreMessagesOf input) in H. fold (startOf input) in H.
  destruct (coreMessagesOf input) as [| m rest] eqn:Emsgs.
  - left. congruence.
  - right.
    destruct (processMessages JSON_parse (startOf input) (m :: rest)) as [st |] eqn:E;
      [| discriminate].
    exists st. split; [reflexivity |].
    split; [exact (LoopOK_processMessages _ _ _ _ E (LoopOK_startOf input)) |].
    injection H as <-. destruct (finish_outputs st) as [-> [-> ->]]. reflexivity.
Qed.

Lemma repairFrames_blank :
  forall actions frames,
    map withoutPositions (repairFrames actions frames) = map withoutPositions frames.
Proof.
  intros actions frames. destruct frames as [| first rest]; [reflexivity |].
  cbn [repairFrames map]. rewrite repairFrom_blank. reflexivity.
Qed.

Lemma repairFrames_cores :
  forall actions frames, map frameCore (repairFrames actions frames) = map frameCore frames.
Proof.
  intros actions frames. apply map_through_blank; [apply frameCore_blank | apply repairFrames_blank].
Qed.

Lemma repairFrames_facings :
  forall actions frames,
    Forall (fun fr => facingsOK (ReplayFrame.state fr)) frames ->
    Forall (fun fr => facingsOK (ReplayFrame.state fr)) (repairFrames actions frames).
Proof.
  intros actions frames H.
  assert (Hmap :
    map (fun fr => map PlayerState.facing (GameState.players (ReplayFrame.state fr)))
      (repairFrames actions frames) =
    map (fun fr => map PlayerState.facing (GameState.players (ReplayFrame.state fr))) frames)
    by (apply map_through_blank; [apply facings_blank | apply repairFrames_blank]).
  assert (Hall : forall l,
    Forall (fun fr => facingsOK (ReplayFrame.state fr)) l <->
    Forall (Forall facingOK)
      (map (fun fr => map PlayerState.facing (GameState.players (ReplayFrame.state fr))) l)).
  { intros l. rewrite Forall_map. split; intros Hl; eapply Forall_impl; try exact Hl;
      intros fr Hfr; unfold facingsOK in *; [rewrite Forall_map | rewrite Forall_map in Hfr];
      exact Hfr. }
  apply Hall. rewrite Hmap. apply Hall. exact H.
Qed.

(** The invariant of the loop, on the timeline that is returned. *)
Lemma parseLegacyExport_invariant :
  forall JSON_parse input tl,
    parseLegacyExport JSON_parse input = Some tl ->
    TimelineOK (timelineCores tl) (ReplayTimeline.actions tl) (ReplayTimeline.discussions tl) /\
    Forall (fun fr => facingsOK (ReplayFrame.state fr)) (ReplayTimeline.frames tl).
Proof.
  intros JSON_parse input tl H.
  destruct (parseLegacyExport_loop _ _ _ H) as [-> | (st & _ & [_ lf lt _] & ->)].
  - split; [exact TimelineOK_nil | constructor].
  - unfold timelineCores. cbn [ReplayTimeline.frames ReplayTimeline.actions
      ReplayTimeline.discussions]. rewrite repairFrames_cores.
    split; [exact lt | apply repairFrames_facings; exact lf].
Qed.

Lemma StronglySorted_map_impl :
  forall (A B : Type) (R : B -> B -> Prop) (S : A -> A -> Prop) (f : A -> B) (l : list A),
    (forall x y, R (f x) (f y) -> S x y) ->
    StronglySorted R (map f l) -> StronglySorted S l.
Proof.
  intros A B R S f l HRS. induction l as [| x tl IH]; intros H; [constructor |].
  cbn [map] in H. inversion H as [| ? ? Htl Hx]; subst.
  constructor; [apply IH; exact Htl |].
  rewrite Forall_map in Hx. eapply Forall_impl; [| exact Hx]. intros y. apply HRS.
Qed.

Lemma frameAt_coreAt :
  forall frames i c,
    coreAt (map frameCore frames) i = Some c ->
    exists fr, frameAt frames i = Some fr /\ frameCore fr = c.
Proof.
  intros frames i c. unfold coreAt, frameAt. destruct (i <? 0); [discriminate |].
  rewrite nth_error_map. destruct (nth_error frames (Z.to_nat i)) as [fr |]; [| discriminate].
  cbn. intros H. injection H as <-. exists fr. split; reflexivity.
Qed.

(** X1: the repair pass changes positions only: with the positions of the
    players blanked, the frames after the pass are the frames before it;
    the pass keeps the number of frames and leaves the first frame as it
    is. *)
Theorem repairFrames_moves_players_only :
  forall (actions : list ReplayAction.t) (frames : list ReplayFrame.t),
    map withoutPositions (repairFrames actions frames) = map withoutPositions frames /\
    List.length (repairFrames actions frames) = List.length frames /\
    hd_error (repairFrames actions frames) = hd_error frames.
Proof.
  intros actions frames. split; [apply repairFrames_blank |].
  split.
  - rewrite <- (length_map withoutPositions), repairFrames_blank. apply length_map.
  - destruct frames; reflexivity.
Qed.

(** X2: in a returned timeline the ticks of the frames never go back: the
    tick of a frame is at most the tick of every later frame. *)
Theorem parseLegacyExport_ticks_sorted :
  forall (JSON_parse : string -> option json) (input : json) (tl : ReplayTimeline.t),
    parseLegacyExport JSON_parse input = Some tl ->
    StronglySorted (fun fr fr' => frameTick fr <= frameTick fr') (ReplayTimeline.frames tl).
Proof.
  intros JSON_parse input tl H.
  destruct (parseLegacyExport_invariant _ _ _ H) as [[tc _ _ _ _ _] _].
  eapply StronglySorted_map_impl; [| exact tc]. intros x y [Ht _]. exact Ht.
Qed.

Lemma parseLegacyExport_ticks_sorted_witness :
  StronglySorted (fun fr fr' => frameTick fr <= frameTick fr') (ReplayTimeline.frames richTimeline).
Proof. apply (parseLegacyExport_ticks_sorted rejectingParser richExport). reflexivity. Defined.

(** X3: in a returned timeline the roster only grows: the player ids of a
    frame are distinct, and they are the first ids, in the same order, of
    every later frame. *)
Theorem parseLegacyExport_roster_grows :
  forall (JSON_parse : string -> option json) (input : json) (tl : ReplayTimeline.t),
    parseLegacyExport JSON_parse input = Some tl ->
    Forall (fun fr => NoDup (frameIds fr)) (ReplayTimeline.frames tl) /\
    StronglySorted (fun fr fr' => prefixOf (frameIds fr) (frameIds fr'))
      (ReplayTimeline.frames tl).
Proof.
  intros JSON_parse input tl H.
  destruct (parseLegacyExport_invariant _ _ _ H) as [[tc te _ _ _ _] _].
  split.
  - unfold timelineCores in te. rewrite Forall_map in te.
    eapply Forall_impl; [| exact te]. intros fr [Hn _]. exact Hn.
  - eapply StronglySorted_map_impl; [| exact tc]. intros x y [_ Hp]. exact Hp.
Qed.

Lemma parseLegacyExport_roster_grows_witness :
  Forall (fun fr => NoDup (frameIds fr)) (ReplayTimeline.frames richTimeline) /\
  StronglySorted (fun fr fr' => prefixOf (frameIds fr) (frameIds fr'))
    (ReplayTimeline.frames richTimeline).
Proof. apply (parseLegacyExport_roster_grows rejectingParser richExport). reflexivity. Defined.

(** X4: every frame of a returned timeline carries at most 120 log
    entries. *)
Theorem parseLegacyExport_logs_capped :
  forall (JSON_parse : string -> option json) (input : json) (tl : ReplayTimeline.t),
    parseLegacyExport JSON_parse input = Some tl ->
    Forall (fun fr => (List.length (GameState.logs (ReplayFrame.state fr)) <= 120)%nat)
      (ReplayTimeline.frames tl).
Proof.
  intros JSON_parse input tl H.
  destruct (parseLegacyExport_invariant _ _ _ H) as [[_ te _ _ _ _] _].
  unfold timelineCores in te. rewrite Forall_map in te.
  eapply Forall_impl; [| exact te]. intros fr (_ & Hl & _). exact Hl.
Qed.

Lemma parseLegacyExport_logs_capped_witness :
  Forall (fun fr => (List.length (GameState.logs (ReplayFrame.state fr)) <= 120)%nat)
    (ReplayTimeline.frames richTimeline).
Proof. apply (parseLegacyExport_logs_capped rejectingParser richExport). reflexivity. Defined.

(** X5: in every frame of a returned timeline each player faces 1 or -1,
    the truck heads 1 or -1, and the speed of the truck is 1 at least. *)
Theorem parseLegacyExport_facings :
  forall (JSON_parse : string -> option json) (input : json) (tl : ReplayTimeline.t),
    parseLegacyExport JSON_parse input = Some tl ->
    Forall
      (fun fr =>
         facingsOK (ReplayFrame.state fr) /\ truckOK (GameState.truck (ReplayFrame.state fr)))
      (ReplayTimeline.frames tl).
Proof.
  intros JSON_parse input tl H.
  destruct (parseLegacyExport_invariant _ _ _ H) as [[_ te _ _ _ _] Hf].
  unfold timelineCores in te. rewrite Forall_map in te.
  rewrite Forall_forall in *. intros fr Hin. split; [exact (Hf fr Hin) |].
  destruct (te fr Hin) as (_ & _ & Ht & _). exact Ht.
Qed.

Lemma parseLegacyExport_facings_witness :
  Forall
    (fun fr =>
       facingsOK (ReplayFrame.state fr) /\ truckOK (GameState.truck (ReplayFrame.state fr)))
    (ReplayTimeline.frames richTimeline).
Proof. apply (parseLegacyExport_facings rejectingParser richExport). reflexivity. Defined.

(** X6: a returned timeline has no frame under a label other than the
    eleven event names that push one. *)
Theorem parseLegacyExport_frame_labels :
  forall (JSON_parse : string -> option json) (input : json) (tl : ReplayTimeline.t),
    parseLegacyExport JSON_parse input = Some tl ->
    Forall (fun fr => isFrameLabel (ReplayFrame.label fr) = true) (ReplayTimeline.frames tl).
Proof.
  intros JSON_parse input tl H.
  destruct (parseLegacyExport_invariant _ _ _ H) as [[_ te _ _ _ _] _].
  unfold timelineCores in te. rewrite Forall_map in te.
  eapply Forall_impl; [| exact te]. intros fr (_ & _ & _ & Hl). exact Hl.
Qed.

Lemma parseLegacyExport_frame_labels_witness :
  Forall (fun fr => isFrameLabel (ReplayFrame.label fr) = true) (ReplayTimeline.frames richTimeline).
Proof. apply (parseLegacyExport_frame_labels rejectingParser richExport). reflexivity. Defined.

(** X7: every discussion of a returned timeline points at a frame of the
    timeline that is labeled [discussion_response], has the tick of the
    discussion and holds the speaker among its players; the frame indices
    of the discussions are strictly increasing. *)
Theorem parseLegacyExport_discussions_anchored :
  forall (JSON_parse : string -> option json) (input : json) (tl : ReplayTimeline.t),
    parseLegacyExport JSON_parse input = Some tl ->
    Forall
      (fun d =>
         exists fr,
           frameAt (ReplayTimeline.frames tl) (ReplayDiscussion.frameIndex d) = Some fr /\
           ReplayFrame.label fr = "discussion_response" /\
           frameTick fr = ReplayDiscussion.tick d /\
           In (ReplayDiscussion.agent_id d) (frameIds fr))
      (ReplayTimeline.discussions tl) /\
    StronglySorted Z.lt (map ReplayDiscussion.frameIndex (ReplayTimeline.discussions tl)).
Proof.
  intros JSON_parse input tl H.
  destruct (parseLegacyExport_invariant _ _ _ H) as [[_ _ _ _ td tdo] _].
  split; [| exact tdo].
  eapply Forall_impl; [| exact td]. intros d (_ & c & Hat & Hl & Ht & Hin).
  destruct (frameAt_coreAt _ _ _ Hat) as (fr & Hfr & <-).
  exists fr. repeat split; assumption.
Qed.

Lemma parseLegacyExport_discussions_anchored_witness :
  Forall
    (fun d =>
       exists fr,
         frameAt (ReplayTimeline.frames richTimeline) (ReplayDiscussion.frameIndex d) = Some fr /\
         ReplayFrame.label fr = "discussion_response" /\
         frameTick fr = ReplayDiscussion.tick d /\
         In (ReplayDiscussion.agent_id d) (frameIds fr))
    (ReplayTimeline.discussions richTimeline) /\
  StronglySorted Z.lt (map ReplayDiscussion.frameIndex (ReplayTimeline.discussions richTimeline)).
Proof.
  apply (parseLegacyExport_discussions_anchored rejectingParser richExport). reflexivity.
Defined.

(** X8: every action of a returned timeline has the tick of the frame it
    points at, its agent is one of the players of that frame, and it has
    one step at least. *)
Theorem parseLegacyExport_actions_match_frames :
  forall (JSON_parse : string -> option json) (input : json) (tl : ReplayTimeline.t),
    parseLegacyExport JSON_parse input = Some tl ->
    Forall
      (fun a =>
         exists fr,
           frameAt (ReplayTimeline.frames tl) (ReplayAction.frameIndex a) = Some fr /\
           frameTick fr = ReplayAction.tick a /\
           In (ReplayAction.agent_id a) (frameIds fr) /\
           1 <= ReplayAction.steps a)
      (ReplayTimeline.actions tl).
Proof.
  intros JSON_parse input tl H.
  destruct (parseLegacyExport_invariant _ _ _ H) as [[_ _ _ ta _ _] _].
  eapply Forall_impl; [| exact ta]. intros a (c & Hat & Hl & Ht & Hin & Hs).
  destruct (frameAt_coreAt _ _ _ Hat) as (fr & Hfr & <-).
  exists fr. repeat split; assumption.
Qed.

Lemma parseLegacyExport_actions_match_frames_witness :
  Forall
    (fun a =>
       exists fr,
         frameAt (ReplayTimeline.frames richTimeline) (ReplayAction.frameIndex a) = Some fr /\
         frameTick fr = ReplayAction.tick a /\
         In (ReplayAction.agent_id a) (frameIds fr) /\
         1 <= ReplayAction.steps a)
    (ReplayTimeline.actions richTimeline).
Proof.
  apply (parseLegacyExport_actions_match_frames rejectingParser richExport). reflexivity.
Defined.

(** X9: in a returned timeline the frames labeled [player_moved] and the
    actions correspond one to one and in the same order: the frame indices
    of the actions are the indices of those frames. *)
Theorem parseLegacyExport_one_action_per_move :
  forall (JSON_parse : string -> option json) (input : json) (tl : ReplayTimeline.t),
    parseLegacyExport JSON_parse input = Some tl ->
    map ReplayAction.frameIndex (ReplayTimeline.actions tl) =
    framesLabeled "player_moved" (ReplayTimeline.frames tl).
Proof.
  intros JSON_parse input tl H.
  destruct (parseLegacyExport_invariant _ _ _ H) as [[_ _ tm _ _ _] _]. exact tm.
Qed.

Lemma parseLegacyExport_one_action_per_move_witness :
  map ReplayAction.frameIndex (ReplayTimeline.actions richTimeline) =
  framesLabeled "player_moved" (ReplayTimeline.frames richTimeline).
Proof.
  apply (parseLegacyExport_one_action_per_move rejectingParser richExport). reflexivity.
Defined.

(** ** Counting frames, actions and discussions *)

Lemma Quiet_frames_length :
  forall st st', Quiet st st' -> List.length (frames st') = List.length (frames st).
Proof.
  intros st st' [qc _ _ _ _ _ _]. rewrite <- !cores_length, qc. reflexivity.
Qed.

Lemma Handled_counts :
  forall st st',
    Handled st st' ->
    (List.length (frames st') <= List.length (frames st) + 1)%nat /\
    (List.length (actions st') + List.length (discussions st') + List.length (frames st) <=
     List.length (actions st) + List.length (discussions st) + List.length (frames st'))%nat.
Proof.
  intros st st' [Hq | pre label Hq Hp _ Ha Hd | pre d Hq Hp Ha Hd _ _ _
                 | pre a Hq Hp Ha Hd _ _ _ _].
  - rewrite (Quiet_frames_length _ _ Hq), (q_actions _ _ Hq), (q_discussions _ _ Hq). lia.
  - destruct Hp as (Hf & _). rewrite Hf, Ha, Hd, length_app.
    rewrite (Quiet_frames_length _ _ Hq), (q_actions _ _ Hq), (q_discussions _ _ Hq).
    cbn [List.length]. lia.
  - destruct Hp as (Hf & _). rewrite Hf, Ha, Hd, !length_app.
    rewrite (Quiet_frames_length _ _ Hq), (q_actions _ _ Hq), (q_discussions _ _ Hq).
    cbn [List.length]. lia.
  - destruct Hp as (Hf & _). rewrite Hf, Ha, Hd, !length_app.
    rewrite (Quiet_frames_length _ _ Hq), (q_actions _ _ Hq), (q_discussions _ _ Hq).
    cbn [List.length]. lia.
Qed.

Lemma processMessages_counts :
  forall JSON_parse coreMessages st st',
    processMessages JSON_parse st coreMessages = Some st' ->
    (List.length (frames st') <= List.length (frames st) + List.length coreMessages)%nat /\
    (List.length (actions st') + List.length (discussions st') + List.length (frames st) <=
     List.length (actions st) + List.length (discussions st) + List.length (frames st'))%nat.
Proof.
  intros JSON_parse coreMessages. induction coreMessages as [| m rest IH]; intros st st' H.
  - cbn in H. injection H as <-. cbn. lia.
  - cbn [processMessages] in H.
    destruct (processMessage JSON_parse st m) as [st1 |] eqn:E; [| discriminate].
    destruct (IH st1 st' H) as [H1 H2].
    destruct (Handled_counts st st1 (Handled_processMessage _ _ _ _ E)) as [H3 H4].
    cbn [List.length]. lia.
Qed.

Lemma startOf_outputs :
  forall input,
    frames (startOf input) = [] /\ actions (startOf input) = [] /\
    discussions (startOf input) = [].
Proof.
  intros input.
  assert (Hq : Quiet initialRecon (startOf input)).
  { unfold startOf.
    eapply Quiet_trans; [apply Quiet_seedRoster | apply Quiet_ensureCommentatorExists]. }
  split; [| split; [exact (q_actions _ _ Hq) | exact (q_discussions _ _ Hq)]].
  apply length_zero_iff_nil. rewrite (Quiet_frames_length _ _ Hq). reflexivity.
Qed.

Lemma repairFrames_length :
  forall actions frames, List.length (repairFrames actions frames) = List.length frames.
Proof.
  intros actions frames.
  rewrite <- (length_map withoutPositions), repairFrames_blank. apply length_map.
Qed.

(** X10: a returned timeline has at most one frame for each core message,
    and at most one action or discussion for each frame. *)
Theorem parseLegacyExport_counts :
  forall (JSON_parse : string -> option json) (input : json) (tl : ReplayTimeline.t),
    parseLegacyExport JSON_parse input = Some tl ->
    (List.length (ReplayTimeline.frames tl) <= List.length (coreMessagesOf input))%nat /\
    (List.length (ReplayTimeline.actions tl) + List.length (ReplayTimeline.discussions tl) <=
     List.length (ReplayTimeline.frames tl))%nat.
Proof.
  intros JSON_parse input tl H.
  destruct (parseLegacyExport_loop _ _ _ H) as [-> | (st & Hrun & _ & ->)].
  - cbn. lia.
  - destruct (processMessages_counts _ _ _ _ Hrun) as [H1 H2].
    destruct (startOf_outputs input) as (Hf & Ha & Hd). rewrite Hf, Ha, Hd in *.
    cbn [ReplayTimeline.frames ReplayTimeline.actions ReplayTimeline.discussions].
    rewrite repairFrames_length. cbn [List.length] in *. lia.
Qed.

Lemma parseLegacyExport_counts_witness :
  (List.length (ReplayTimeline.frames richTimeline) <= List.length (coreMessagesOf richExport))%nat /\
  (List.length (ReplayTimeline.actions richTimeline) +
   List.length (ReplayTimeline.discussions richTimeline) <=
   List.length (ReplayTimeline.frames richTimeline))%nat.
Proof. apply (parseLegacyExport_counts rejectingParser richExport). reflexivity. Defined.

(** ** Failure *)

Lemma processMessage_None :
  forall JSON_parse st message,
    processMessage JSON_parse st message = None <-> message = JNull.
Proof.
  intros JSON_parse st message. unfold processMessage.
  destruct message; split; intros H; try discriminate; reflexivity.
Qed.

Lemma processMessages_None :
  forall JSON_parse coreMessages st,
    processMessages JSON_parse st coreMessages = None <-> In JNull coreMessages.
Proof.
  intros JSON_parse coreMessages. induction coreMessages as [| m rest IH]; intros st.
  - cbn. split; [discriminate | intros []].
  - cbn [processMessages In].
    destruct (processMessage JSON_parse st m) as [st1 |] eqn:E.
    + rewrite IH. split; [intros Hin; right; exact Hin |].
      intros [-> | Hin]; [| exact Hin].
      assert (Hnone : processMessage JSON_parse st JNull = None) by reflexivity. congruence.
    + apply processMessage_None in E. split; [intros _; left; exact E | reflexivity].
Qed.

(** X11: [parseLegacyExport] throws exactly when one of the core messages
    is [null]; on every other input it returns a timeline. *)
Theorem parseLegacyExport_fails_iff_null_message :
  forall (JSON_parse : string -> option json) (input : json),
    parseLegacyExport JSON_parse input = None <-> In JNull (coreMessagesOf input).
Proof.
  intros JSON_parse input. unfold parseLegacyExport.
  fold (coreMessagesOf input). fold (startOf input).
  destruct (coreMessagesOf input) as [| m rest] eqn:Emsgs.
  - split; [discriminate | intros []].
  - rewrite <- (processMessages_None JSON_parse (m :: rest) (startOf input)).
    destruct (processMessages JSON_parse (startOf input) (m :: rest));
      split; intros H; try discriminate; reflexivity.
Qed.

(** X12: the clamp of the registry's hp and the second check for a
    commentator, which run after the loop over the messages, have no effect
    on what is returned: the timeline is made of the frames, the actions
    and the discussions as the loop left them, and the repair pass. *)
Theorem parseLegacyExport_final_clamp_unused :
  forall (JSON_parse : string -> option json) (input : json),
    parseLegacyExport JSON_parse input =
    match coreMessagesOf input with
    | [] => Some ReplayTimeline.empty
    | coreMessages =>
        option_map timelineOf (processMessages JSON_parse (startOf input) coreMessages)
    end.
Proof.
  intros JSON_parse input. unfold parseLegacyExport.
  fold (coreMessagesOf input). fold (startOf input).
  destruct (coreMessagesOf input) as [| m rest]; [reflexivity |].
  destruct (processMessages JSON_parse (startOf input) (m :: rest)) as [st |]; [| reflexivity].
  cbn [option_map]. unfold timelineOf.
  destruct (finish_outputs st) as [-> [-> ->]]. reflexivity.
Qed.

(** ** The declared agents *)

Lemma ensurePlayer_keeps :
  forall agentId aiName avatar st x,
    In x (idsOf st) -> In x (idsOf (ensurePlayer agentId aiName avatar st)).
Proof.
  intros agentId aiName avatar st x Hin.
  eapply prefixOf_In; [| exact Hin]. apply (q_ids _ _ (Quiet_ensurePlayer agentId aiName avatar st)).
Qed.

Lemma seedRoster_has :
  forall metas st item,
    In item metas ->
    isEmpty (asString (prop (asRecord (Some item)) "agent_id") EmptyString) = false ->
    In (asString (prop (asRecord (Some item)) "agent_id") EmptyString)
       (idsOf (seedRoster metas st)).
Proof.
  intros metas. induction metas as [| m rest IH]; intros st item Hin Hne; [destruct Hin |].
  unfold seedRoster in *. cbn [fold_left].
  destruct Hin as [-> | Hin]; [| apply IH; assumption].
  cbv zeta. rewrite Hne.
  eapply prefixOf_In.
  - apply (q_ids _ _ (Quiet_seedRoster rest _)).
  - apply ensurePlayer_has.
Qed.

Lemma declaredAgents_start :
  forall input agentId, In agentId (declaredAgents input) -> In agentId (idsOf (startOf input)).
Proof.
  intros input agentId Hin. unfold declaredAgents in Hin.
  apply filter_In in Hin. destruct Hin as [Hin Hne].
  apply in_map_iff in Hin. destruct Hin as (item & <- & Hitem).
  unfold startOf. eapply prefixOf_In.
  - apply (q_ids _ _ (Quiet_ensureCommentatorExists _)).
  - apply seedRoster_has; [exact Hitem |].
    destruct (isEmpty _); [discriminate | reflexivity].
Qed.

Lemma Rooted_Handled :
  forall (ids0 : list string) st st',
    Handled st st' -> LoopOK st ->
    prefixOf ids0 (idsOf st) /\ Forall (fun c => prefixOf ids0 (core_ids c)) (cores st) ->
    prefixOf ids0 (idsOf st') /\ Forall (fun c => prefixOf ids0 (core_ids c)) (cores st').
Proof.
  intros ids0 st st' H Hok [Hids Hcores].
  assert (Hquiet : forall pre, Quiet st pre ->
            prefixOf ids0 (idsOf pre) /\ Forall (fun c => prefixOf ids0 (core_ids c)) (cores pre)).
  { intros pre Hq. split; [eapply prefixOf_trans; [exact Hids | apply (q_ids _ _ Hq)] |].
    rewrite (q_cores _ _ Hq). exact Hcores. }
  assert (Hpush : forall pre label, Quiet st pre -> Pushed pre label st' ->
            prefixOf ids0 (idsOf st') /\ Forall (fun c => prefixOf ids0 (core_ids c)) (cores st')).
  { intros pre label Hq Hp. destruct (Hquiet pre Hq) as [Hi Hc].
    pose proof (l_reg _ (LoopOK_Quiet _ _ Hq Hok)) as Hreg.
    rewrite (Pushed_cores pre label st' Hreg Hp).
    destruct Hp as (_ & Hplayers & _). unfold idsOf at 1. rewrite Hplayers.
    split; [exact Hi |]. apply Forall_app. split; [exact Hc |].
    constructor; [exact Hi | constructor]. }
  destruct H as [Hq | pre label Hq Hp _ _ _ | pre d Hq Hp _ _ _ _ _ | pre a Hq Hp _ _ _ _ _ _].
  - apply Hquiet, Hq.
  - apply (Hpush pre label); assumption.
  - apply (Hpush pre "discussion_response"); assumption.
  - apply (Hpush pre "player_moved"); assumption.
Qed.

Lemma Rooted_processMessages :
  forall (ids0 : list string) JSON_parse coreMessages st st',
    processMessages JSON_parse st coreMessages = Some st' -> LoopOK st ->
    prefixOf ids0 (idsOf st) /\ Forall (fun c => prefixOf ids0 (core_ids c)) (cores st) ->
    Forall (fun c => prefixOf ids0 (core_ids c)) (cores st').
Proof.
  intros ids0 JSON_parse coreMessages.
  induction coreMessages as [| m rest IH]; intros st st' H Hok Hroot.
  - cbn in H. injection H as <-. apply Hroot.
  - cbn [processMessages] in H.
    destruct (processMessage JSON_parse st m) as [st1 |] eqn:E; [| discriminate].
    pose proof (Handled_processMessage _ _ _ _ E) as Hh.
    apply (IH st1 st' H); [eapply LoopOK_Handled; eassumption |].
    eapply Rooted_Handled; eassumption.
Qed.

(** X13: every agent that [agent_metadata] declares under a non-empty id
    is a player of every frame of the returned timeline. *)
Theorem parseLegacyExport_declared_agents_in_every_frame :
  forall (JSON_parse : string -> option json) (input : json) (tl : ReplayTimeline.t)
         (agentId : string),
    parseLegacyExport JSON_parse input = Some tl ->
    In agentId (declaredAgents input) ->
    Forall (fun fr => In agentId (frameIds fr)) (ReplayTimeline.frames tl).
Proof.
  intros JSON_parse input tl agentId H Hin.
  destruct (parseLegacyExport_loop _ _ _ H) as [-> | (st & Hrun & _ & ->)]; [constructor |].
  pose proof (Rooted_processMessages (idsOf (startOf input)) _ _ _ _ Hrun (LoopOK_startOf input))
    as Hroot.
  destruct (startOf_outputs input) as (Hf & _).
  assert (Hcores : Forall (fun c => prefixOf (idsOf (startOf input)) (core_ids c)) (cores st)).
  { apply Hroot. split; [apply prefixOf_refl |]. unfold cores. rewrite Hf. constructor. }
  cbn [ReplayTimeline.frames].
  assert (Hall : Forall (fun c => In agentId (core_ids c))
                   (map frameCore (repairFrames (actions st) (frames st)))).
  { rewrite repairFrames_cores. eapply Forall_impl; [| exact Hcores].
    intros c Hp. eapply prefixOf_In; [exact Hp | apply declaredAgents_start; exact Hin]. }
  rewrite Forall_map in Hall. exact Hall.
Qed.

Lemma parseLegacyExport_declared_agents_in_every_frame_witness :
  Forall (fun fr => In "b" (frameIds fr)) (ReplayTimeline.frames richTimeline).
Proof.
  apply (parseLegacyExport_declared_agents_in_every_frame rejectingParser richExport).
  - reflexivity.
  - vm_compute. right. left. reflexivity.
Defined.

(** ** The repair pass on the returned timeline *)

(** X14: between two consecutive frames of a returned timeline, a player
    who is in both and is not the agent of the action recorded for the
    later frame is at most 2 cells from the earlier position, unless the
    later frame is labeled [player_hit]. *)
Theorem parseLegacyExport_bounds_jumps :
  forall (JSON_parse : string -> option json) (input : json) (tl : ReplayTimeline.t)
         (n k : nat) (prev curr : ReplayFrame.t) (player prevPlayer : PlayerState.t),
    parseLegacyExport JSON_parse input = Some tl ->
    nth_error (ReplayTimeline.frames tl) n = Some prev ->
    nth_error (ReplayTimeline.frames tl) (S n) = Some curr ->
    nth_error (GameState.players (ReplayFrame.state curr)) k = Some player ->
    prevByIdGet (GameState.players (ReplayFrame.state prev)) (PlayerState.player_id player) =
      Some prevPlayer ->
    isActing (actionByFrameGet (ReplayTimeline.actions tl) (Z.of_nat (S n))) player = false ->
    ReplayFrame.label curr <> "player_hit" ->
    circularDistance (PlayerState.position prevPlayer) (PlayerState.position player)
      (GameState.track_length (ReplayFrame.state curr)) <= 2.
Proof.
  intros JSON_parse input tl n k prev curr player prevPlayer H Hprev Hcurr Hk Hby Hact Hlabel.
  destruct (parseLegacyExport_loop _ _ _ H) as [-> | (st & _ & _ & ->)].
  - destruct n; discriminate.
  - cbn [ReplayTimeline.frames ReplayTimeline.actions] in *.
    exact (repairFrames_bounds_jumps (actions st) (frames st) n k prev curr player prevPlayer
             Hprev Hcurr Hk Hby Hact Hlabel).
Qed.

Lemma wrapTrack_clamped :
  forall position trackLength,
    wrapTrack position trackLength = wrapTrack position (Z.max 1 trackLength).
Proof.
  intros position trackLength. unfold wrapTrack. cbv zeta.
  replace (Z.max 1 (Z.max 1 trackLength)) with (Z.max 1 trackLength) by lia. reflexivity.
Qed.

(** X15: the repair pass on the agent of the action recorded for a frame.
    Take the frame before as the pass has left it and a player of the later
    frame who is in both and is the agent of that action.  If the later
    frame is not labeled [player_hit] and the player has not moved at all,
    or has moved more than [max 2 (steps + 2)] cells, then in the repaired
    frame the player stands on the cell that the action gives from the
    earlier position, and no other field of the player has changed. *)
Theorem repairFrames_replays_action :
  forall (actions : list ReplayAction.t) (frames : list ReplayFrame.t) (n k : nat)
         (prevOut curr : ReplayFrame.t) (player prevPlayer : PlayerState.t)
         (a : ReplayAction.t),
    nth_error (repairFrames actions frames) n = Some prevOut ->
    nth_error frames (S n) = Some curr ->
    nth_error (GameState.players (ReplayFrame.state curr)) k = Some player ->
    prevByIdGet (GameState.players (ReplayFrame.state prevOut)) (PlayerState.player_id player)
      = Some prevPlayer ->
    actionByFrameGet actions (Z.of_nat (S n)) = Some a ->
    ReplayAction.agent_id a = PlayerState.player_id player ->
    ReplayFrame.label curr <> "player_hit" ->
    circularDistance (PlayerState.position prevPlayer) (PlayerState.position player)
      (GameState.track_length (ReplayFrame.state curr)) = 0 \/
    Z.max 2 (ReplayAction.steps a + 2) <
      circularDistance (PlayerState.position prevPlayer) (PlayerState.position player)
        (GameState.track_length (ReplayFrame.state curr)) ->
    exists (currOut : ReplayFrame.t) (playerOut : PlayerState.t),
      nth_error (repairFrames actions frames) (S n) = Some currOut /\
      nth_error (GameState.players (ReplayFrame.state currOut)) k = Some playerOut /\
      PlayerState.position playerOut =
        (PlayerState.position prevPlayer +
         (match ReplayAction.direction a with backward => -1 | forward => 1 end) *
         Z.max 1 (ReplayAction.steps a))
        mod Z.max 1 (GameState.track_length (ReplayFrame.state curr)) /\
      placedAt (PlayerState.position playerOut) player playerOut.
Proof.
  intros actions frames n k prevOut curr player prevPlayer a
    Hprev Hcurr Hk Hby Hact Hagent Hlabel Hjump.
  destruct (repairFrames_nth actions frames n curr Hcurr) as [prevOut' [H1 H2]].
  rewrite Hprev in H1. injection H1 as <-.
  exists (repairFrame actions (Z.of_nat (S n)) prevOut curr).
  exists (repairPlayer prevOut curr (actionByFrameGet actions (Z.of_nat (S n))) player).
  split; [exact H2 |].
  split.
  { unfold repairFrame, ReplayFrame.mapPlayers.
    cbn [ReplayFrame.state GameState.set_players GameState.players].
    rewrite nth_error_map, Hk. reflexivity. }
  assert (Hout : repairPlayer prevOut curr (actionByFrameGet actions (Z.of_nat (S n))) player =
                 PlayerState.set_position
                   (expectedPosition a (PlayerState.position prevPlayer)
                      (GameState.track_length (ReplayFrame.state curr)))
                   player).
  { unfold repairPlayer. rewrite Hby, Hact.
    destruct (String.eqb_spec (ReplayFrame.label curr) "player_hit") as [He | _];
      [contradiction |].
    cbn [andb]. cbv zeta. rewrite Hagent, String.eqb_refl.
    set (jump := circularDistance _ _ _) in *.
    assert (Hcond : (jump =? 0) || (Z.max 2 (ReplayAction.steps a + 2) <? jump) = true).
    { destruct Hjump as [-> | Hlt]; [reflexivity |].
      apply orb_true_iff. right. apply Z.ltb_lt. exact Hlt. }
    rewrite Hcond. reflexivity. }
  rewrite Hout. split; [| repeat split].
  cbn [PlayerState.set_position PlayerState.position]. unfold expectedPosition.
  rewrite wrapTrack_clamped, wrapTrack_modulo by lia. reflexivity.
Qed.

Lemma repairFrames_replays_action_witness :
  exists (currOut : ReplayFrame.t) (playerOut : PlayerState.t),
    nth_error
      (repairFrames [sampleAction 1]
         [sampleFrame "game_started" [samplePlayer "a1" 4 3];
          sampleFrame "player_moved" [samplePlayer "a1" 4 3]]) 1 = Some currOut /\
    nth_error (GameState.players (ReplayFrame.state currOut)) 0 = Some playerOut /\
    PlayerState.position playerOut = (4 + 1 * Z.max 1 3) mod Z.max 1 48 /\
    placedAt (PlayerState.position playerOut) (samplePlayer "a1" 4 3) playerOut.
Proof.
  apply (repairFrames_replays_action [sampleAction 1]
           [sampleFrame "game_started" [samplePlayer "a1" 4 3];
            sampleFrame "player_moved" [samplePlayer "a1" 4 3]]
           0 0 (sampleFrame "game_started" [samplePlayer "a1" 4 3])
           (sampleFrame "player_moved" [samplePlayer "a1" 4 3])
           (samplePlayer "a1" 4 3) (samplePlayer "a1" 4 3) (sampleAction 1)).
  - reflexivity.
  - reflexivity.
  - reflexivity.
  - reflexivity.
  - reflexivity.
  - reflexivity.
  - discriminate.
  - left. vm_compute. reflexivity.
Defined.

(** ** The move phase on a returned timeline *)

(** X16: on the frames of a returned timeline, the move phase of the
    pipeline never skips and never clamps for an action of that timeline:
    it interpolates toward the frame at the action's own index, which is
    labeled [player_moved] and has the tick of the action. *)
Theorem enterMove_on_returned_timeline :
  forall (JSON_parse : string -> option json) (input : json) (tl : ReplayTimeline.t)
         (action : ReplayAction.t) (live : GameState.t) (view : Playback.View),
    parseLegacyExport JSON_parse input = Some tl ->
    In action (ReplayTimeline.actions tl) ->
    exists fr,
      frameAt (ReplayTimeline.frames tl) (ReplayAction.frameIndex action) = Some fr /\
      ReplayFrame.label fr = "player_moved" /\
      frameTick fr = ReplayAction.tick action /\
      Playback.enterMove (ReplayTimeline.frames tl) action live view =
        Playback.MoveInterpolates (ReplayAction.frameIndex action) live (ReplayFrame.state fr).
Proof.
  intros JSON_parse input tl action live view H Hin.
  destruct (parseLegacyExport_invariant _ _ _ H) as [[_ _ _ ta _ _] _].
  rewrite Forall_forall in ta. destruct (ta action Hin) as (c & Hat & Hl & Ht & _).
  pose proof (coreAt_bound _ _ _ Hat) as Hb.
  unfold timelineCores in Hb. rewrite length_map in Hb.
  destruct (frameAt_coreAt _ _ _ Hat) as (fr & Hfr & <-).
  exists fr. split; [exact Hfr |]. split; [exact Hl |]. split; [exact Ht |].
  unfold Playback.enterMove. cbv zeta. rewrite Z.min_l by lia. rewrite Hfr. reflexivity.
Qed.

Lemma enterMove_on_returned_timeline_witness :
  exists fr,
    frameAt (ReplayTimeline.frames richTimeline) (ReplayAction.frameIndex richMove) = Some fr /\
    ReplayFrame.label fr = "player_moved" /\
    frameTick fr = ReplayAction.tick richMove /\
    Playback.enterMove (ReplayTimeline.frames richTimeline) richMove sampleState sampleView =
      Playback.MoveInterpolates (ReplayAction.frameIndex richMove) sampleState
        (ReplayFrame.state fr).
Proof.
  apply (enterMove_on_returned_timeline rejectingParser richExport richTimeline).
  - reflexivity.
  - left. reflexivity.
Defined.

Lemma parseLegacyExport_bounds_jumps_witness :
  exists (prev curr : ReplayFrame.t) (player prevPlayer : PlayerState.t),
    nth_error (ReplayTimeline.frames richTimeline) 0 = Some prev /\
    nth_error (ReplayTimeline.frames richTimeline) 1 = Some curr /\
    nth_error (GameState.players (ReplayFrame.state curr)) 1 = Some player /\
    prevByIdGet (GameState.players (ReplayFrame.state prev)) (PlayerState.player_id player) =
      Some prevPlayer /\
    circularDistance (PlayerState.position prevPlayer) (PlayerState.position player)
      (GameState.track_length (ReplayFrame.state curr)) <= 2.
Proof.
  eexists. eexists. eexists. eexists.
  split; [reflexivity |]. split; [reflexivity |]. split; [reflexivity |].
  split; [reflexivity |].
  eapply (parseLegacyExport_bounds_jumps rejectingParser richExport richTimeline 0 1).
  - reflexivity.
  - reflexivity.
  - reflexivity.
  - reflexivity.
  - reflexivity.
  - reflexivity.
  - discriminate.
Defined.

(** ** Track arithmetic *)

(** X17: for every position, negative or past the end, and every track
    length, [wrapTrack] returns the residue of the position modulo the
    track length, taken as 1 when it is smaller: a cell from 0 to the track
    length minus one. *)
Theorem wrapTrack_is_residue :
  forall position trackLength : Z,
    wrapTrack position trackLength = position mod Z.max 1 trackLength /\
    0 <= wrapTrack position trackLength < Z.max 1 trackLength.
Proof.
  intros position trackLength.
  rewrite wrapTrack_clamped, wrapTrack_modulo by lia.
  split; [reflexivity | apply Z.mod_pos_bound; lia].
Qed.

(** X18: the circular distance is symmetric, lies between 0 and half the
    track length, and is 0 exactly for two positions on the same cell. *)
Theorem circularDistance_is_a_distance :
  forall from to trackLength : Z,
    circularDistance from to trackLength = circularDistance to from trackLength /\
    0 <= 2 * circularDistance from to trackLength <= Z.max 1 trackLength /\
    (circularDistance from to trackLength = 0 <->
     wrapTrack from trackLength = wrapTrack to trackLength).
Proof.
  intros from to trackLength.
  rewrite (wrapTrack_clamped from), (wrapTrack_clamped to).
  unfold circularDistance. cbv zeta.
  set (track := Z.max 1 trackLength).
  assert (Ha : 0 <= wrapTrack from track < track).
  { rewrite wrapTrack_modulo by lia. apply Z.mod_pos_bound. lia. }
  assert (Hb : 0 <= wrapTrack to track < track).
  { rewrite wrapTrack_modulo by lia. apply Z.mod_pos_bound. lia. }
  split; [lia |]. split; lia.
Qed.

(** ** Track lengths are positive *)




(** ** Sight *)

Lemma wrapTrack_range :
  forall position track, 1 <= track -> 0 <= wrapTrack position track < track.
Proof.
  intros position track Htrack. rewrite wrapTrack_modulo by exact Htrack.
  apply Z.mod_pos_bound. lia.
Qed.

Lemma delta_modulo :
  forall a b track,
    0 <= a < track -> 0 <= b < track ->
    Z.rem (b - a + track) track = (b - a) mod track.
Proof.
  intros a b track Ha Hb. rewrite Z.rem_mod_nonneg by lia.
  replace (b - a + track) with (b - a + 1 * track) by lia.
  apply Z_mod_plus_full.
Qed.

Lemma delta_cases :
  forall a b track,
    0 <= a < track -> 0 <= b < track ->
    (b - a) mod track = if a <=? b then b - a else b - a + track.
Proof.
  intros a b track Ha Hb. destruct (Z.leb_spec a b) as [Hle | Hlt].
  - apply Z.mod_small. lia.
  - rewrite <- (Z_mod_plus_full (b - a) 1 track).
    replace (b - a + 1 * track) with (b - a + track) by lia.
    apply Z.mod_small. lia.
Qed.

(** X20: [canSeeTruckBidirectional] of the display is the test that the
    circular distance of the adapter, between the player and the truck, is
    at most the vision range, taken as 1 when it is smaller. *)
Theorem canSeeTruckBidirectional_is_distance_test :
  forall position truckPosition visionRange trackLength : Z,
    canSeeTruckBidirectional position truckPosition visionRange trackLength =
    (circularDistance position truckPosition trackLength <=? Z.max 1 visionRange).
Proof.
  intros position truckPosition visionRange trackLength.
  unfold canSeeTruckBidirectional, circularDistance. cbv zeta.
  set (track := Z.max 1 trackLength).
  pose proof (wrapTrack_range position track ltac:(lia)) as Ha.
  pose proof (wrapTrack_range truckPosition track ltac:(lia)) as Hb.
  set (a := wrapTrack position track) in *. set (b := wrapTrack truckPosition track) in *.
  rewrite (delta_modulo a b track Ha Hb), (delta_modulo b a track Hb Ha).
  rewrite (delta_cases a b track Ha Hb), (delta_cases b a track Hb Ha).
  f_equal. destruct (Z.leb_spec a b); destruct (Z.leb_spec b a); lia.
Qed.


Lemma integersFrom_length :
  forall (n : nat) (from : Z), List.length (integersFrom n from) = n.
Proof.
  induction n as [| n IH]; intros from; [reflexivity |].
  cbn [integersFrom List.length]. rewrite IH. reflexivity.
Qed.

(** X21: [visibleCellsBidirectional] returns, on each side, as many cells
    as the vision range, one at least, and every cell is a cell of the
    track. *)
Theorem visibleCellsBidirectional_shape :
  forall position visionRange trackLength : Z,
    let cells := visibleCellsBidirectional position visionRange trackLength in
    List.length (fst cells) = Z.to_nat (Z.max 1 visionRange) /\
    List.length (snd cells) = Z.to_nat (Z.max 1 visionRange) /\
    Forall (fun cell => 0 <= cell < Z.max 1 trackLength) (fst cells ++ snd cells).
Proof.
  intros position visionRange trackLength. unfold visibleCellsBidirectional. cbv zeta.
  cbn [fst snd]. rewrite !length_map, !integersFrom_length.
  split; [reflexivity |]. split; [reflexivity |].
  apply Forall_app. split; apply Forall_map, Forall_forall; intros i _;
    apply (wrapTrack_range _ (Z.max 1 trackLength)); lia.
Qed.


(** ** Sanitizing for display *)

Lemma isEmpty_true : forall s, isEmpty s = true -> s = EmptyString.
Proof. intros s H. destruct s; [reflexivity | discriminate]. Qed.

(** X23: the sanitizer of the display gives what the sanitizer of the
    adapter gives on the trimmed text, and the empty string for a missing
    message. *)
Theorem sanitizeDisplayMessage_is_sanitize_of_trim :
  (forall s : string, sanitizeDisplayMessage (Some s) = sanitize (trim s)) /\
  sanitizeDisplayMessage None = EmptyString.
Proof.
  split; [| reflexivity].
  intros s. unfold sanitizeDisplayMessage, sanitize. cbv zeta.
  destruct (isEmpty (trim s)) eqn:Hempty; [| reflexivity].
  rewrite (isEmpty_true _ Hempty). reflexivity.
Qed.

(** ** The hit-point ceiling on a sample *)

Lemma parseLegacyExport_hp_capped_witness :
  richTimeline = ReplayTimeline.empty \/
  exists st,
    processMessages rejectingParser (startOf richExport) (coreMessagesOf richExport) = Some st /\
    FALLBACK_HP <= maxHpSeen st /\
    Forall (Forall (fun hp => hp <= maxHpSeen st)) (hpTable richTimeline).
Proof. apply (parseLegacyExport_hp_capped rejectingParser richExport). reflexivity. Defined.
